(** * Proyecto1: bounded-buffer producer/consumer (Proyecto1.cpp)

    A shallow embedding of [Buffer], [Producer], [Consumer], [Principal] and
    [main], followed by the properties of the bounded channel.

    Threads are modelled by interleaving: every statement of a [Buffer]
    method that touches shared state is one atomic step of the calling
    thread, identified by a program point ([pc]).  A schedule chooses which
    thread moves next and whether a timed wait has run out. *)

From Stdlib Require Import ZArith Lia Ascii String.
From stdpp Require Import base list.

Open Scope Z_scope.

(** ** Machine integers *)

(** [int] is 32 bits wide; [wrap32] is the two's complement wrap-around. *)
Definition INT_MAX : Z := 2147483647.
Definition INT_MIN : Z := -2147483648.

Definition wrap32 (z : Z) : Z := (z + 2147483648) mod 4294967296 - 2147483648.

Definition int_add (a b : Z) : Z := wrap32 (a + b).
Definition int_mul (a b : Z) : Z := wrap32 (a * b).

Definition in_int (z : Z) : Prop := INT_MIN <= z <= INT_MAX.

(** ** Configuration constants (lines 17-18) *)

Definition MAX_WAIT_TIME_MS : Z := 5000.
Definition PRODUCER_RETRY_DELAY_MS : Z := 500.

(** Pacing delays of the worker loops (lines 137 and 170). *)
Definition PRODUCER_PACING_MS : Z := 2000.
Definition CONSUMER_PACING_MS : Z := 1500.

(** The value [consume] returns when its wait ran out (line 81). *)
Definition TIMEOUT_SENTINEL : Z := -1.

(** ** Diagnostics *)

(** One constructor per message text built in the source. *)
Inductive Message :=
| MsgProducerWait (id item : Z)      (* notifyProducerWait, lines 45-46 *)
| MsgConsumerTimeout (id : Z)        (* handleConsumerTimeout, lines 52-53 *)
| MsgProduced (id item : Z)          (* lines 66-67 *)
| MsgConsumed (id item : Z)          (* line 88 *)
| MsgRemainingEmpty                  (* lines 99 and 101 *)
| MsgRemaining (shown : list Z)      (* lines 99, 103-108 *)
| MsgProducerCreated (id : Z)        (* line 129 *)
| MsgProducerDone (id : Z)           (* line 142 *)
| MsgConsumerCreated (id : Z)        (* line 162 *)
| MsgConsumerDone (id : Z)           (* line 176 *)
| MsgUsage (prog : string)           (* line 223 *)
| MsgNotPositive.                    (* line 235 *)

(** [cout] and [logFile]; [print_mutex] makes each write of a message to
    both of them one atomic step. *)
Record Sink := mkSink { cout : list Message; logFile : list Message }.

Definition printMessage (m : Message) (k : Sink) : Sink :=
  mkSink (cout k ++ [m]) (logFile k ++ [m]).

(** ** Counting semaphores *)

(** A semaphore is its counter.  [acquire] blocks ([None]) while the counter
    is zero; [try_acquire_for] gives up when the wait has [expired]. *)
Definition sem_acquire (c : Z) : option Z :=
  if 0 <? c then Some (c - 1) else None.

Definition sem_release (c : Z) : Z := c + 1.

Definition sem_try_acquire_for (expired : bool) (c : Z) : option (bool * Z) :=
  if expired then Some (false, c)
  else if 0 <? c then Some (true, c - 1)
  else None.

(** ** The Buffer class (lines 31-113) *)

Record Buffer := mkBuffer {
  buffer : list Z;        (* queue<int>, front of the queue first *)
  buffer_mutex : Z;       (* counting_semaphore<1>, initially 1 *)
  spaces : Z;             (* counting_semaphore<>, initially the capacity *)
  items : Z               (* counting_semaphore<>, initially 0 *)
}.

Definition Buffer_new (capacity : Z) : Buffer := mkBuffer [] 1 capacity 0.

Definition set_buffer (q : list Z) (b : Buffer) : Buffer :=
  mkBuffer q (buffer_mutex b) (spaces b) (items b).
Definition set_buffer_mutex (c : Z) (b : Buffer) : Buffer :=
  mkBuffer (buffer b) c (spaces b) (items b).
Definition set_spaces (c : Z) (b : Buffer) : Buffer :=
  mkBuffer (buffer b) (buffer_mutex b) c (items b).
Definition set_items (c : Z) (b : Buffer) : Buffer :=
  mkBuffer (buffer b) (buffer_mutex b) (spaces b) c.

(** Number of elements of the queue. *)
Definition queued_items (b : Buffer) : Z := Z.of_nat (length (buffer b)).

Inductive Sem := SemMutex | SemSpaces | SemItems.

(** What one step of a thread does. *)
Inductive Action :=
| ATryAcquireFor (s : Sem) (ms : Z) (ok : bool)
| AAcquire (s : Sem)
| ARelease (s : Sem)
| APush (item : Z)
| AFront (item : Z)
| APop
| APrint (m : Message)
| ASleep (ms : Z)
| ACallProduce (id item : Z)     (* a worker enters produce(id, item) *)
| ACallConsume (id : Z)          (* a worker enters consume(id) *)
| ALocal.

(** Program points inside the methods of [Buffer]; each names the statement
    the thread executes next. *)
Inductive pc :=
| ProduceTry (id item : Z)       (* line 60 *)
| ProduceNotify (id item : Z)    (* line 61 *)
| ProduceLock (id item : Z)      (* line 63 *)
| ProducePush (id item : Z)      (* line 64 *)
| ProducePrint (id item : Z)     (* lines 65-68 *)
| ProduceUnlock (id item : Z)    (* line 69 *)
| ProduceSignal (id item : Z)    (* lines 70-71 *)
| ConsumeTry (id : Z)            (* line 79 *)
| ConsumeTimeout (id : Z)        (* lines 80-81 *)
| ConsumeLock (id : Z)           (* line 84 *)
| ConsumeFront (id : Z)          (* line 85 *)
| ConsumePop (id item : Z)       (* line 86 *)
| ConsumePrint (id item : Z)     (* lines 87-89 *)
| ConsumeUnlock (id item : Z)    (* line 90 *)
| ConsumeSignal (id item : Z)    (* lines 91-92 *)
| ShowLock                       (* line 97 *)
| ShowPrint                      (* lines 98-110 *)
| ShowUnlock                     (* line 111 *)
| Returned (v : option Z).       (* the call is over; [None] for void *)

(** The loop of lines 104-107: [ss] receives the front of [temp], which is
    then popped, until [temp] is empty. *)
Fixpoint show_loop (temp : list Z) (ss : list Z) : list Z :=
  match temp with
  | [] => ss
  | front :: temp' => show_loop temp' (ss ++ [front])
  end.

(** Lines 99-109: the text [showRemainingItems] prints. *)
Definition remaining_message (q : list Z) : Message :=
  match q with
  | [] => MsgRemainingEmpty
  | _ :: _ => MsgRemaining (show_loop q [])
  end.

(** One step of a call.  [None]: the thread cannot move now (it waits on a
    semaphore), or the statement has no defined behaviour ([front] and [pop]
    on an empty queue). *)
Definition step_call (expired : bool) (b : Buffer) (p : pc)
  : option (Action * Buffer * pc) :=
  match p with
  | ProduceTry id item =>
      match sem_try_acquire_for expired (spaces b) with
      | Some (true, c) =>
          Some (ATryAcquireFor SemSpaces PRODUCER_RETRY_DELAY_MS true,
                set_spaces c b, ProduceLock id item)
      | Some (false, _) =>
          Some (ATryAcquireFor SemSpaces PRODUCER_RETRY_DELAY_MS false,
                b, ProduceNotify id item)
      | None => None
      end
  | ProduceNotify id item =>
      Some (APrint (MsgProducerWait id item), b, ProduceTry id item)
  | ProduceLock id item =>
      match sem_acquire (buffer_mutex b) with
      | Some c => Some (AAcquire SemMutex, set_buffer_mutex c b, ProducePush id item)
      | None => None
      end
  | ProducePush id item =>
      Some (APush item, set_buffer (buffer b ++ [item]) b, ProducePrint id item)
  | ProducePrint id item =>
      Some (APrint (MsgProduced id item), b, ProduceUnlock id item)
  | ProduceUnlock id item =>
      Some (ARelease SemMutex,
            set_buffer_mutex (sem_release (buffer_mutex b)) b, ProduceSignal id item)
  | ProduceSignal id item =>
      Some (ARelease SemItems, set_items (sem_release (items b)) b, Returned None)
  | ConsumeTry id =>
      match sem_try_acquire_for expired (items b) with
      | Some (true, c) =>
          Some (ATryAcquireFor SemItems MAX_WAIT_TIME_MS true,
                set_items c b, ConsumeLock id)
      | Some (false, _) =>
          Some (ATryAcquireFor SemItems MAX_WAIT_TIME_MS false,
                b, ConsumeTimeout id)
      | None => None
      end
  | ConsumeTimeout id =>
      Some (APrint (MsgConsumerTimeout id), b, Returned (Some TIMEOUT_SENTINEL))
  | ConsumeLock id =>
      match sem_acquire (buffer_mutex b) with
      | Some c => Some (AAcquire SemMutex, set_buffer_mutex c b, ConsumeFront id)
      | None => None
      end
  | ConsumeFront id =>
      match buffer b with
      | item :: _ => Some (AFront item, b, ConsumePop id item)
      | [] => None
      end
  | ConsumePop id item =>
      match buffer b with
      | _ :: rest => Some (APop, set_buffer rest b, ConsumePrint id item)
      | [] => None
      end
  | ConsumePrint id item =>
      Some (APrint (MsgConsumed id item), b, ConsumeUnlock id item)
  | ConsumeUnlock id item =>
      Some (ARelease SemMutex,
            set_buffer_mutex (sem_release (buffer_mutex b)) b, ConsumeSignal id item)
  | ConsumeSignal id item =>
      Some (ARelease SemSpaces, set_spaces (sem_release (spaces b)) b,
            Returned (Some item))
  | ShowLock =>
      match sem_acquire (buffer_mutex b) with
      | Some c => Some (AAcquire SemMutex, set_buffer_mutex c b, ShowPrint)
      | None => None
      end
  | ShowPrint =>
      Some (APrint (remaining_message (buffer b)), b, ShowUnlock)
  | ShowUnlock =>
      Some (ARelease SemMutex,
            set_buffer_mutex (sem_release (buffer_mutex b)) b, Returned None)
  | Returned _ => None
  end.

(** Entry points of the three methods. *)
Definition produce (id item : Z) : pc := ProduceTry id item.
Definition consume (id : Z) : pc := ConsumeTry id.
Definition showRemainingItems : pc := ShowLock.

(** ** Workers (lines 116-180) *)

(** The globals [N], [NP], [NC] and the capacity handed to [Principal]. *)
Record Config := mkConfig { capacity : Z; N : Z; NP : Z; NC : Z }.

(** Line 135: [int item = id * 100 + i]. *)
Definition item_of (id i : Z) : Z := int_add (int_mul id 100) i.

(** Where a worker thread stands in [operator()]. *)
Inductive wstate :=
| WStart                     (* about to print its creation message *)
| WLoop (i : Z)              (* at the loop test [i < N] *)
| WCall (i : Z) (p : pc)     (* inside the call of iteration [i] *)
| WFinish                    (* about to print its completion message *)
| WDone.                     (* the thread has ended *)

Record Worker := mkWorker { wid : Z; wst : wstate }.

(** Producer::operator() (lines 126-145).  The counter [i] stays below [N],
    so [++i] does not overflow. *)
Definition Producer_step (cfg : Config) (expired : bool) (b : Buffer) (w : Worker)
  : option (Action * Buffer * Worker) :=
  let id := wid w in
  match wst w with
  | WStart => Some (APrint (MsgProducerCreated id), b, mkWorker id (WLoop 0))
  | WLoop i =>
      if i <? N cfg
      then let item := item_of id i in
           Some (ACallProduce id item, b, mkWorker id (WCall i (produce id item)))
      else Some (ALocal, b, mkWorker id WFinish)
  | WCall i (Returned _) =>
      Some (ASleep PRODUCER_PACING_MS, b, mkWorker id (WLoop (i + 1)))
  | WCall i p =>
      match step_call expired b p with
      | Some (a, b', p') => Some (a, b', mkWorker id (WCall i p'))
      | None => None
      end
  | WFinish => Some (APrint (MsgProducerDone id), b, mkWorker id WDone)
  | WDone => None
  end.

(** Consumer::operator() (lines 159-179).  [consume] always returns a
    value, so there is no step after a call that returned none. *)
Definition Consumer_step (cfg : Config) (expired : bool) (b : Buffer) (w : Worker)
  : option (Action * Buffer * Worker) :=
  let id := wid w in
  match wst w with
  | WStart => Some (APrint (MsgConsumerCreated id), b, mkWorker id (WLoop 0))
  | WLoop i =>
      if i <? N cfg
      then Some (ACallConsume id, b, mkWorker id (WCall i (consume id)))
      else Some (ALocal, b, mkWorker id WFinish)
  | WCall i (Returned (Some item)) =>
      if negb (item =? -1)
      then Some (ASleep CONSUMER_PACING_MS, b, mkWorker id (WLoop (i + 1)))
      else Some (ALocal, b, mkWorker id (WLoop (i + 1)))
  | WCall i (Returned None) => None
  | WCall i p =>
      match step_call expired b p with
      | Some (a, b', p') => Some (a, b', mkWorker id (WCall i p'))
      | None => None
      end
  | WFinish => Some (APrint (MsgConsumerDone id), b, mkWorker id WDone)
  | WDone => None
  end.

(** ** Principal (lines 183-217) *)

(** Where the main thread stands in [Principal::run]. *)
Inductive mstate :=
| RunSpawnProducers (i : Z)      (* loop of line 196 *)
| RunSpawnConsumers (i : Z)      (* loop of line 201 *)
| RunJoinProducers (k : nat)     (* loop of line 206 *)
| RunJoinConsumers (k : nat)     (* loop of line 211 *)
| RunShow (p : pc)               (* line 215 *)
| RunDone.

Record System := mkSystem {
  sys_buffer : Buffer;
  producers : list Worker;
  consumers : list Worker;
  sys_main : mstate;
  sys_sink : Sink
}.

Definition Principal_new (cfg : Config) : System :=
  mkSystem (Buffer_new (capacity cfg)) [] [] (RunSpawnProducers 0) (mkSink [] []).

Definition is_done (w : Worker) : bool :=
  match wst w with WDone => true | _ => false end.

(** A printing step reaches the sink; no other step does. *)
Definition emit (a : Action) (k : Sink) : Sink :=
  match a with
  | APrint m => printMessage m k
  | _ => k
  end.

(** Principal::run, one statement at a time.  [join] waits ([None]) until
    the joined thread has ended. *)
Definition Principal_step (cfg : Config) (expired : bool) (s : System)
  : option (Action * System) :=
  let b := sys_buffer s in
  let ps := producers s in
  let cs := consumers s in
  let k := sys_sink s in
  match sys_main s with
  | RunSpawnProducers i =>
      if i <? NP cfg
      then Some (ALocal, mkSystem b (ps ++ [mkWorker (i + 1) WStart]) cs
                                  (RunSpawnProducers (i + 1)) k)
      else Some (ALocal, mkSystem b ps cs (RunSpawnConsumers 0) k)
  | RunSpawnConsumers i =>
      if i <? NC cfg
      then Some (ALocal, mkSystem b ps (cs ++ [mkWorker (i + 1) WStart])
                                  (RunSpawnConsumers (i + 1)) k)
      else Some (ALocal, mkSystem b ps cs (RunJoinProducers 0) k)
  | RunJoinProducers n =>
      match ps !! n with
      | Some w =>
          if is_done w
          then Some (ALocal, mkSystem b ps cs (RunJoinProducers (S n)) k)
          else None
      | None => Some (ALocal, mkSystem b ps cs (RunJoinConsumers 0) k)
      end
  | RunJoinConsumers n =>
      match cs !! n with
      | Some w =>
          if is_done w
          then Some (ALocal, mkSystem b ps cs (RunJoinConsumers (S n)) k)
          else None
      | None => Some (ALocal, mkSystem b ps cs (RunShow showRemainingItems) k)
      end
  | RunShow (Returned _) => Some (ALocal, mkSystem b ps cs RunDone k)
  | RunShow p =>
      match step_call expired b p with
      | Some (a, b', p') => Some (a, mkSystem b' ps cs (RunShow p') (emit a k))
      | None => None
      end
  | RunDone => None
  end.

(** ** Interleaving *)

Inductive Tid := TMain | TProducer (n : nat) | TConsumer (n : nat).

(** One step of the thread [t]. *)
Definition sys_step (cfg : Config) (t : Tid) (expired : bool) (s : System)
  : option (Action * System) :=
  match t with
  | TMain => Principal_step cfg expired s
  | TProducer n =>
      match producers s !! n with
      | Some w =>
          match Producer_step cfg expired (sys_buffer s) w with
          | Some (a, b', w') =>
              Some (a, mkSystem b' (<[n := w']> (producers s)) (consumers s)
                                (sys_main s) (emit a (sys_sink s)))
          | None => None
          end
      | None => None
      end
  | TConsumer n =>
      match consumers s !! n with
      | Some w =>
          match Consumer_step cfg expired (sys_buffer s) w with
          | Some (a, b', w') =>
              Some (a, mkSystem b' (producers s) (<[n := w']> (consumers s))
                                (sys_main s) (emit a (sys_sink s)))
          | None => None
          end
      | None => None
      end
  end.

(** A schedule is run from left to right; it fails when it asks a thread
    that cannot move to move. *)
Fixpoint exec (cfg : Config) (sched : list (Tid * bool)) (s : System)
  : option System :=
  match sched with
  | [] => Some s
  | (t, expired) :: sched' =>
      match sys_step cfg t expired s with
      | Some (_, s') => exec cfg sched' s'
      | None => None
      end
  end.

Definition Reachable (cfg : Config) (s : System) : Prop :=
  exists sched, exec cfg sched (Principal_new cfg) = Some s.

(** ** main (lines 220-244) *)

(** What the process leaves behind: its exit status, what it wrote to
    [cout], [cerr] and [logFile], and the [Principal] object at the end of
    [run] ([None] when none was constructed). *)
Record Outcome := mkOutcome {
  exit_code : Z;
  out_cout : list Message;
  out_cerr : list Message;
  out_log : list Message;
  out_principal : option System
}.

Definition argc (argv : list string) : Z := Z.of_nat (length argv).
Definition arg (argv : list string) (n : nat) : string := default EmptyString (argv !! n).

Section Main.
(** The C library's [atoi]. *)
Variable atoi : string -> Z.

Definition config_of (argv : list string) : Config :=
  mkConfig (atoi (arg argv 1)) (atoi (arg argv 2))
           (atoi (arg argv 3)) (atoi (arg argv 4)).

Definition non_positive (cfg : Config) : bool :=
  (capacity cfg <=? 0) || (N cfg <=? 0) || (NP cfg <=? 0) || (NC cfg <=? 0).

(** [main] under the schedule [sched] of its threads; [None] when [run]
    does not return under that schedule. *)
Definition main (argv : list string) (sched : list (Tid * bool)) : option Outcome :=
  if negb (argc argv =? 5)
  then Some (mkOutcome 1 [MsgUsage (arg argv 0)] [] [] None)
  else
    let cfg := config_of argv in
    if non_positive cfg
    then Some (mkOutcome 1 [] [MsgNotPositive] [] None)
    else
      match exec cfg sched (Principal_new cfg) with
      | Some s =>
          match sys_main s with
          | RunDone =>
              Some (mkOutcome 0 (cout (sys_sink s)) [] (logFile (sys_sink s)) (Some s))
          | _ => None
          end
      | None => None
      end.
End Main.

(** A decimal reading of [atoi] for the examples: optional sign, then
    digits up to the first other character. *)
Definition digit_of (c : Ascii.ascii) : option Z :=
  let n := Z.of_nat (Ascii.nat_of_ascii c) in
  if (48 <=? n) && (n <=? 57) then Some (n - 48) else None.

Fixpoint atoi_digits (s : string) (acc : Z) : Z :=
  match s with
  | EmptyString => acc
  | String c s' =>
      match digit_of c with
      | Some d => atoi_digits s' (10 * acc + d)
      | None => acc
      end
  end.

Definition atoi_dec (s : string) : Z :=
  match s with
  | String "-"%char s' => wrap32 (- atoi_digits s' 0)
  | String "+"%char s' => wrap32 (atoi_digits s' 0)
  | _ => wrap32 (atoi_digits s 0)
  end.


(** ** Vocabulary of the properties *)

(** A call followed on its own: the buffer each step meets is arbitrary,
    so the run stands for the call under any interleaving with others. *)
Inductive call_run : pc -> list Action -> pc -> Prop :=
| call_run_nil p : call_run p [] p
| call_run_step expired b p a b' p' acts p'' :
    step_call expired b p = Some (a, b', p') ->
    call_run p' acts p'' ->
    call_run p (a :: acts) p''.

(** A call run with no other thread moving; [es] tells for each step
    whether a timed wait runs out there. *)
Fixpoint call_exec (es : list bool) (b : Buffer) (p : pc)
  : option (list Action * Buffer * pc) :=
  match es with
  | [] => Some ([], b, p)
  | e :: es' =>
      match step_call e b p with
      | Some (a, b', p') =>
          match call_exec es' b' p' with
          | Some (acts, b'', p'') => Some (a :: acts, b'', p'')
          | None => None
          end
      | None => None
      end
  end.

(** The same for a worker thread. *)
Inductive worker_run
  (step : bool -> Buffer -> Worker -> option (Action * Buffer * Worker))
  : Worker -> list Action -> Worker -> Prop :=
| worker_run_nil w : worker_run step w [] w
| worker_run_step expired b w a b' w' acts w'' :
    step expired b w = Some (a, b', w') ->
    worker_run step w' acts w'' ->
    worker_run step w (a :: acts) w''.


(** The change an action makes to the buffer. *)
Definition sem_add (s : Sem) (d : Z) (b : Buffer) : Buffer :=
  match s with
  | SemMutex => set_buffer_mutex (buffer_mutex b + d) b
  | SemSpaces => set_spaces (spaces b + d) b
  | SemItems => set_items (items b + d) b
  end.

Definition effect (a : Action) (b : Buffer) : Buffer :=
  match a with
  | ATryAcquireFor s _ true => sem_add s (-1) b
  | AAcquire s => sem_add s (-1) b
  | ARelease s => sem_add s 1 b
  | APush item => set_buffer (buffer b ++ [item]) b
  | APop => set_buffer (tail (buffer b)) b
  | _ => b
  end.

Definition effects (acts : list Action) (b : Buffer) : Buffer :=
  foldl (fun b a => effect a b) b acts.


(** The actions of one failed wait of [produce] (lines 60-61), of [n] of
    them in a row, and of the branch taken once a slot is acquired
    (lines 60, 63-71). *)
Definition produce_wait (id item : Z) : list Action :=
  [ATryAcquireFor SemSpaces 500 false; APrint (MsgProducerWait id item)].

Fixpoint produce_waits (n : nat) (id item : Z) : list Action :=
  match n with
  | O => []
  | S n' => produce_wait id item ++ produce_waits n' id item
  end.

Definition produce_success (id item : Z) : list Action :=
  [ATryAcquireFor SemSpaces 500 true; AAcquire SemMutex; APush item;
   APrint (MsgProduced id item); ARelease SemMutex; ARelease SemItems].

(** The two ways through [consume]: lines 79-81 and lines 79, 84-92. *)
Definition consume_timeout (id : Z) : list Action :=
  [ATryAcquireFor SemItems 5000 false; APrint (MsgConsumerTimeout id)].

Definition consume_success (id item : Z) : list Action :=
  [ATryAcquireFor SemItems 5000 true; AAcquire SemMutex; AFront item; APop;
   APrint (MsgConsumed id item); ARelease SemMutex; ARelease SemSpaces].


(** The items a [showRemainingItems] message lists. *)
Definition snapshot_of (m : Message) : option (list Z) :=
  match m with
  | MsgRemainingEmpty => Some []
  | MsgRemaining shown => Some shown
  | _ => None
  end.

(** Actions on the counters [spaces] and [items], and on the queue. *)
Definition counts_action (a : Action) : bool :=
  match a with
  | ATryAcquireFor SemSpaces _ _ | ATryAcquireFor SemItems _ _
  | AAcquire SemSpaces | AAcquire SemItems
  | ARelease SemSpaces | ARelease SemItems => true
  | _ => false
  end.

Definition queue_action (a : Action) : bool :=
  match a with
  | APush _ | AFront _ | APop => true
  | _ => false
  end.

(** A trace keeps the lock discipline when the mutex is taken and released
    in turn, the counters are touched only while the thread does not hold
    it, the queue only while it does, and the trace ends without it. *)
Fixpoint disciplined (held : bool) (acts : list Action) : bool :=
  match acts with
  | [] => negb held
  | AAcquire SemMutex :: rest => negb held && disciplined true rest
  | ARelease SemMutex :: rest => held && disciplined false rest
  | a :: rest =>
      (if counts_action a then negb held else true)
      && (if queue_action a then held else true)
      && disciplined held rest
  end.

(** What a thread at [p] holds: a slot taken from [spaces] and not yet
    filled (or emptied and not yet given back), an item counted in the queue
    but not in [items], the mutex. *)
Definition slots_held (p : pc) : Z :=
  match p with
  | ProduceLock _ _ | ProducePush _ _
  | ConsumePrint _ _ | ConsumeUnlock _ _ | ConsumeSignal _ _ => 1
  | _ => 0
  end.

Definition items_held (p : pc) : Z :=
  match p with
  | ProducePrint _ _ | ProduceUnlock _ _ | ProduceSignal _ _
  | ConsumeLock _ | ConsumeFront _ | ConsumePop _ _ => 1
  | _ => 0
  end.

Definition mutex_held (p : pc) : Z :=
  match p with
  | ProducePush _ _ | ProducePrint _ _ | ProduceUnlock _ _
  | ConsumeFront _ | ConsumePop _ _ | ConsumePrint _ _ | ConsumeUnlock _ _
  | ShowPrint | ShowUnlock => 1
  | _ => 0
  end.

Definition worker_pc (w : Worker) : option pc :=
  match wst w with WCall _ p => Some p | _ => None end.

Definition main_pc (m : mstate) : option pc :=
  match m with RunShow p => Some p | _ => None end.

Definition held (f : pc -> Z) (o : option pc) : Z := from_option f 0 o.

(** The program points of all threads: producers, consumers, main. *)
Definition pcs (s : System) : list (option pc) :=
  (worker_pc <$> producers s) ++ (worker_pc <$> consumers s) ++ [main_pc (sys_main s)].

Definition held_sum (f : pc -> Z) (l : list (option pc)) : Z :=
  foldr (fun o acc => held f o + acc) 0 l.

(** What all threads of the system hold together. *)
Definition total (f : pc -> Z) (s : System) : Z := held_sum f (pcs s).

(** A thread that has the mutex for [consume] finds the queue non-empty,
    and once it has read the front it still sees that front until its pop. *)
Definition front_kept (q : list Z) (o : option pc) : Prop :=
  match o with
  | Some (ConsumePop _ item) => head q = Some item
  | Some (ConsumeFront _) => q <> []
  | _ => True
  end.

(** The invariant of the running system, on a buffer [b] used by threads
    at the program points [l]. *)
Record Inv_on (cap : Z) (b : Buffer) (l : list (option pc)) : Prop := mkInv {
  inv_spaces : 0 <= spaces b;
  inv_items : 0 <= items b;
  inv_mutex : 0 <= buffer_mutex b;
  inv_slots : spaces b + queued_items b + held_sum slots_held l = cap;
  inv_queue : items b + held_sum items_held l = queued_items b;
  inv_lock : buffer_mutex b + held_sum mutex_held l = 1;
  inv_front : Forall (front_kept (buffer b)) l
}.

Definition Inv (cfg : Config) (s : System) : Prop :=
  Inv_on (capacity cfg) (sys_buffer s) (pcs s).

(** A thread that holds nothing. *)
Definition quiet (o : option pc) : Prop :=
  held slots_held o = 0 /\ held items_held o = 0 /\ held mutex_held o = 0.

(** Actions that do not concern the buffer. *)
Definition own_action (a : Action) : bool :=
  match a with
  | APrint _ | ASleep _ | ACallProduce _ _ | ACallConsume _ | ALocal => true
  | _ => false
  end.

(** One step of a thread seen from the buffer: a step inside a call, or a
    step of its own that leaves the buffer alone. *)
Inductive thread_move (e : bool) (b : Buffer) (o : option pc)
  : Action -> Buffer -> option pc -> Prop :=
| move_call p a b' p' :
    o = Some p -> step_call e b p = Some (a, b', p') ->
    thread_move e b o a b' (Some p')
| move_own a o' :
    own_action a = true -> quiet o -> quiet o' -> thread_move e b o a b o'.



(** The buffer after one item was appended and announced. *)
Definition after_produce (item : Z) (b : Buffer) : Buffer :=
  mkBuffer (buffer b ++ [item]) (buffer_mutex b) (spaces b - 1) (items b + 1).

(** The buffer after its front was removed and the slot given back. *)
Definition after_consume (b : Buffer) : Buffer :=
  mkBuffer (tail (buffer b)) (buffer_mutex b) (spaces b + 1) (items b - 1).




(** The bounds of the channel: the free slots together with the queue, and
    together with the available items, fit in the capacity; the available
    items are no more than the queue holds; the queue fits in the capacity. *)
Definition within_capacity (cfg : Config) (s : System) : Prop :=
  let b := sys_buffer s in
  spaces b + Z.of_nat (length (buffer b)) <= capacity cfg
  /\ spaces b + items b <= capacity cfg
  /\ 0 <= items b <= Z.of_nat (length (buffer b))
  /\ Z.of_nat (length (buffer b)) <= capacity cfg.

(** The run with capacity, N, NP and NC all 1 in which the producer has
    acquired its slot and not yet pushed. *)
Definition cfg_unit : Config := mkConfig 1 1 1 1.

Definition sched_slot_acquired : list (Tid * bool) :=
  [(TMain, false); (TProducer 0, false); (TProducer 0, false); (TProducer 0, false)].

Definition state_slot_acquired : System :=
  mkSystem (mkBuffer [] 1 0 0)
           [mkWorker 1 (WCall 0 (ProduceLock 1 100))] []
           (RunSpawnProducers 1)
           (mkSink [MsgProducerCreated 1] [MsgProducerCreated 1]).

(** A complete run of that configuration: the producer runs to its end,
    then the consumer, then [main] joins both and shows the queue. *)
Definition sched_unit : list (Tid * bool) :=
  repeat (TMain, false) 4 ++ repeat (TProducer 0, false) 11
  ++ repeat (TConsumer 0, false) 12 ++ repeat (TMain, false) 8.

(** A command line with capacity, N, NP and NC all 1. *)
Definition argv_unit : list string :=
  ["Proyecto1"; "1"; "1"; "1"; "1"]%string.

(** The item a call of [produce] has not pushed yet. *)
Definition pushing (o : option pc) : option Z :=
  match o with
  | Some (ProduceTry _ item) | Some (ProduceNotify _ item)
  | Some (ProduceLock _ item) | Some (ProducePush _ item) => Some item
  | _ => None
  end.

(** Configurations in which no item overflows [int]: the largest one is
    NP*100 + N - 1. *)
Definition no_overflow (cfg : Config) : Prop := NP cfg * 100 + N cfg - 1 <= INT_MAX.

Definition item_ok (x : Z) : Prop := 100 <= x.

Definition pushing_ok (o : option pc) : Prop :=
  match pushing o with Some item => item_ok item | None => True end.

Definition producer_ok (cfg : Config) (w : Worker) : Prop :=
  1 <= wid w <= NP cfg
  /\ pushing_ok (worker_pc w)
  /\ match wst w with
     | WLoop i => 0 <= i
     | WCall i _ => 0 <= i < N cfg
     | _ => True
     end.

(** Every item in the queue or on its way into it is at least 100. *)
Record Items_inv (cfg : Config) (s : System) : Prop := mkItemsInv {
  ii_queue : Forall item_ok (buffer (sys_buffer s));
  ii_producers : Forall (producer_ok cfg) (producers s);
  ii_consumers : Forall (fun w => pushing_ok (worker_pc w)) (consumers s);
  ii_main : pushing_ok (main_pc (sys_main s))
            /\ match sys_main s with RunSpawnProducers i => 0 <= i | _ => True end
}.

(** ** Vocabulary of the further properties *)

(** The calls of [consume] found in a trace, by consumer id. *)
Definition consume_calls (acts : list Action) : list Z :=
  omap (fun a => match a with ACallConsume id => Some id | _ => None end) acts.

(** The calls of [consume] a consumer still has to make at a given point of
    its loop. *)
Definition attempts_from (cfg : Config) (id : Z) (st : wstate) : list Z :=
  match st with
  | WStart => replicate (Z.to_nat (N cfg)) id
  | WLoop i => replicate (Z.to_nat (N cfg - i)) id
  | WCall i _ => replicate (Z.to_nat (N cfg - (i + 1))) id
  | WFinish | WDone => []
  end.

(** One iteration of the consumer loop in which the wait runs out, and the
    whole run of a consumer all of whose [n] waits run out. *)
Definition starved_attempt (id : Z) : list Action :=
  ACallConsume id :: consume_timeout id ++ [ALocal].

Fixpoint starved_attempts (n : nat) (id : Z) : list Action :=
  match n with
  | O => []
  | S n' => starved_attempt id ++ starved_attempts n' id
  end.

Definition starved_run (n : nat) (id : Z) : list Action :=
  APrint (MsgConsumerCreated id) :: starved_attempts n id
  ++ [ALocal; APrint (MsgConsumerDone id)].

(** Calls made one after the other with no other thread and no wait
    running out: [produce] for each of [xs], and [n] times [consume],
    collecting what it returns. *)
Fixpoint produce_all (id : Z) (xs : list Z) (b : Buffer) : option Buffer :=
  match xs with
  | [] => Some b
  | x :: xs' =>
      match call_exec (repeat false 6) b (produce id x) with
      | Some (_, b', Returned _) => produce_all id xs' b'
      | _ => None
      end
  end.

Fixpoint consume_all (id : Z) (n : nat) (b : Buffer) : option (list Z * Buffer) :=
  match n with
  | O => Some ([], b)
  | S n' =>
      match call_exec (repeat false 7) b (consume id) with
      | Some (_, b', Returned (Some x)) =>
          match consume_all id n' b' with
          | Some (xs, b'') => Some (x :: xs, b'')
          | None => None
          end
      | _ => None
      end
  end.

(** Program points of a call produce(id, _), of a call consume(id), and of
    [showRemainingItems], each with the return of the call. *)
Definition produce_pc (id : Z) (p : pc) : Prop :=
  match p with
  | ProduceTry i _ | ProduceNotify i _ | ProduceLock i _ | ProducePush i _
  | ProducePrint i _ | ProduceUnlock i _ | ProduceSignal i _ => i = id
  | Returned None => True
  | _ => False
  end.

Definition consume_pc (id : Z) (p : pc) : Prop :=
  match p with
  | ConsumeTry i | ConsumeTimeout i | ConsumeLock i | ConsumeFront i
  | ConsumePop i _ | ConsumePrint i _ | ConsumeUnlock i _ | ConsumeSignal i _ => i = id
  | Returned (Some _) => True
  | _ => False
  end.

Definition show_call (p : pc) : Prop :=
  match p with
  | ShowLock | ShowPrint | ShowUnlock | Returned None => True
  | _ => False
  end.

(** [showRemainingItems] has printed its message. *)
Definition shown (p : pc) : Prop :=
  match p with
  | ShowUnlock | Returned _ => True
  | _ => False
  end.

(** A worker inside a call is inside a call of its own role and id. *)
Definition worker_role (role : Z -> pc -> Prop) (w : Worker) : Prop :=
  match wst w with
  | WCall _ p => role (wid w) p
  | _ => True
  end.

(** The thread at position [n] of a vector has id [n + 1]. *)
Definition numbered (ws : list Worker) : Prop :=
  forall n w, ws !! n = Some w -> wid w = Z.of_nat n + 1.

Definition all_done (ws : list Worker) : Prop :=
  forall n w, ws !! n = Some w -> is_done w = true.

Definition done_upto (k : nat) (ws : list Worker) : Prop :=
  forall n w, (n < k)%nat -> ws !! n = Some w -> is_done w = true.

(** The vector holds all [n] threads of its kind. *)
Definition spawned (n : Z) (ws : list Worker) : Prop :=
  Z.of_nat (length ws) = Z.max 0 n.

(** What each phase of [Principal::run] has achieved. *)
Definition phase_ok (cfg : Config) (m : mstate) (ps cs : list Worker)
  (q : list Z) (log : list Message) : Prop :=
  match m with
  | RunSpawnProducers i =>
      i = Z.of_nat (length ps) /\ i <= Z.max 0 (NP cfg) /\ cs = []
  | RunSpawnConsumers i =>
      spawned (NP cfg) ps /\ i = Z.of_nat (length cs) /\ i <= Z.max 0 (NC cfg)
  | RunJoinProducers k =>
      spawned (NP cfg) ps /\ spawned (NC cfg) cs /\ done_upto k ps
  | RunJoinConsumers k =>
      spawned (NP cfg) ps /\ spawned (NC cfg) cs /\ all_done ps /\ done_upto k cs
  | RunShow p =>
      spawned (NP cfg) ps /\ spawned (NC cfg) cs /\ all_done ps /\ all_done cs
      /\ show_call p /\ (shown p -> last log = Some (remaining_message q))
  | RunDone =>
      spawned (NP cfg) ps /\ spawned (NC cfg) cs /\ all_done ps /\ all_done cs
      /\ last log = Some (remaining_message q)
  end.

(** The invariant of [Principal::run] on its threads. *)
Record Run_inv (cfg : Config) (s : System) : Prop := mkRunInv {
  ri_producer_ids : numbered (producers s);
  ri_consumer_ids : numbered (consumers s);
  ri_producer_roles : Forall (worker_role produce_pc) (producers s);
  ri_consumer_roles : Forall (worker_role consume_pc) (consumers s);
  ri_phase : phase_ok cfg (sys_main s) (producers s) (consumers s)
                      (buffer (sys_buffer s)) (logFile (sys_sink s))
}.

(** Steps of the worker loops and of [run] outside the calls. *)
Definition driver_action (a : Action) : bool :=
  match a with
  | ALocal | ASleep _ | ACallProduce _ _ | ACallConsume _ => true
  | APrint (MsgProducerCreated _) | APrint (MsgProducerDone _)
  | APrint (MsgConsumerCreated _) | APrint (MsgConsumerDone _) => true
  | _ => false
  end.

(** The message a step writes, if any. *)
Definition message_of (a : Action) : list Message :=
  match a with
  | APrint m => [m]
  | _ => []
  end.

(** The items a log announces as produced, as consumed, and its timeout
    diagnostics. *)
Definition produced_items (log : list Message) : list Z :=
  omap (fun m => match m with MsgProduced _ item => Some item | _ => None end) log.

Definition consumed_items (log : list Message) : list Z :=
  omap (fun m => match m with MsgConsumed _ item => Some item | _ => None end) log.

Definition timeouts (log : list Message) : list Z :=
  omap (fun m => match m with MsgConsumerTimeout id => Some id | _ => None end) log.

(** An item a thread has pushed, or popped, and not yet announced. *)
Definition unannounced_push (o : option pc) : list Z :=
  match o with
  | Some (ProducePrint _ item) => [item]
  | _ => []
  end.

Definition unannounced_pop (o : option pc) : list Z :=
  match o with
  | Some (ConsumePrint _ item) => [item]
  | _ => []
  end.

Definition pending (f : option pc -> list Z) (l : list (option pc)) : list Z :=
  concat (f <$> l).

(** What the log says was produced is what it says was consumed followed
    by the queue, up to the one item being announced. *)
Definition Log_inv (s : System) : Prop :=
  produced_items (logFile (sys_sink s)) ++ pending unannounced_push (pcs s)
  = consumed_items (logFile (sys_sink s)) ++ pending unannounced_pop (pcs s)
    ++ buffer (sys_buffer s).

(** How many of its items a producer has announced, and how many of its
    attempts a consumer has brought to an end (an item announced, or a
    timeout diagnostic). *)
Definition announced (cfg : Config) (w : Worker) : Z :=
  match wst w with
  | WStart => 0
  | WLoop i => i
  | WCall i (ProduceUnlock _ _) | WCall i (ProduceSignal _ _)
  | WCall i (Returned _) => i + 1
  | WCall i _ => i
  | WFinish | WDone => Z.max 0 (N cfg)
  end.

Definition attempted (cfg : Config) (w : Worker) : Z :=
  match wst w with
  | WStart => 0
  | WLoop i => i
  | WCall i (ConsumeUnlock _ _) | WCall i (ConsumeSignal _ _)
  | WCall i (Returned _) => i + 1
  | WCall i _ => i
  | WFinish | WDone => Z.max 0 (N cfg)
  end.

Definition worker_sum (f : Worker -> Z) (ws : list Worker) : Z :=
  foldr (fun w acc => f w + acc) 0 ws.

(** The loop counter of a worker is within its bounds. *)
Definition loop_ok (cfg : Config) (w : Worker) : Prop :=
  match wst w with
  | WLoop i => 0 <= i <= Z.max 0 (N cfg)
  | WCall i _ => 0 <= i < N cfg
  | _ => True
  end.

(** The log counts what the workers have done. *)
Record Count_inv (cfg : Config) (s : System) : Prop := mkCountInv {
  ci_producers : Forall (loop_ok cfg) (producers s);
  ci_consumers : Forall (loop_ok cfg) (consumers s);
  ci_produced : Z.of_nat (length (produced_items (logFile (sys_sink s))))
                = worker_sum (announced cfg) (producers s);
  ci_consumed : Z.of_nat (length (consumed_items (logFile (sys_sink s))))
                + Z.of_nat (length (timeouts (logFile (sys_sink s))))
                = worker_sum (attempted cfg) (consumers s)
}.

(** The same counts for a worker inside the call of iteration [i]. *)
Definition announced_at (i : Z) (p : pc) : Z :=
  match p with
  | ProduceUnlock _ _ | ProduceSignal _ _ | Returned _ => i + 1
  | _ => i
  end.

Definition attempted_at (i : Z) (p : pc) : Z :=
  match p with
  | ConsumeUnlock _ _ | ConsumeSignal _ _ | Returned _ => i + 1
  | _ => i
  end.

(** A command line with capacity 1, N = 1, three producers and one
    consumer: three items for one consumer and one slot. *)
Definition argv_crowded : list string :=
  ["Proyecto1"; "1"; "1"; "3"; "1"]%string.

(** A run of [cfg_unit] in which the producer has pushed and announced
    its item and the consumer has read the front of the queue and is about to
    pop it. *)
Definition sched_before_pop : list (Tid * bool) :=
  repeat (TMain, false) 4 ++ repeat (TProducer 0, false) 8
  ++ repeat (TConsumer 0, false) 5.

(** The items a log announces as produced by the producer [id]. *)
Definition produced_by (id : Z) (log : list Message) : list Z :=
  omap (fun m => match m with
                 | MsgProduced i item => if i =? id then Some item else None
                 | _ => None
                 end) log.

(** The item of a call of [produce]. *)
Definition produce_item (p : pc) : option Z :=
  match p with
  | ProduceTry _ x | ProduceNotify _ x | ProduceLock _ x | ProducePush _ x
  | ProducePrint _ x | ProduceUnlock _ x | ProduceSignal _ x => Some x
  | _ => None
  end.

(** How many items a producer has pushed. *)
Definition pushed_at (i : Z) (p : pc) : Z :=
  match p with
  | ProducePrint _ _ | ProduceUnlock _ _ | ProduceSignal _ _ | Returned _ => i + 1
  | _ => i
  end.

Definition pushed (cfg : Config) (w : Worker) : Z :=
  match wst w with
  | WStart => 0
  | WLoop i => i
  | WCall i p => pushed_at i p
  | WFinish | WDone => Z.max 0 (N cfg)
  end.

(** The call of iteration [i] of a producer carries the item of line 135. *)
Definition call_item (w : Worker) : Prop :=
  match wst w with
  | WCall i p =>
      match produce_item p with
      | Some x => x = item_of (wid w) i
      | None => True
      end
  | _ => True
  end.

Definition produced_id_ok (n : nat) (m : Message) : Prop :=
  match m with
  | MsgProduced id _ => 1 <= id <= Z.of_nat n
  | _ => True
  end.

(** For every producer, the items the log announces for it and the one it
    has pushed and not yet announced are its first items, in the order of
    its loop. *)
Record Order_inv (cfg : Config) (s : System) : Prop := mkOrderInv {
  oi_items : Forall call_item (producers s);
  oi_order : forall n w,
      producers s !! n = Some w ->
      produced_by (wid w) (logFile (sys_sink s)) ++ unannounced_push (worker_pc w)
      = item_of (wid w) <$> seqZ 0 (pushed cfg w);
  oi_ids : Forall (produced_id_ok (length (producers s))) (logFile (sys_sink s))
}.

(** Two more runs of [cfg_unit]: the producer has pushed its item and not
    yet released [items] (line 64 done, line 70 not yet); and the producer
    has returned from [produce] and the consumer has acquired the item and
    not yet popped it (line 79 done, line 86 not yet). *)
Definition sched_item_pushed : list (Tid * bool) :=
  (TMain, false) :: repeat (TProducer 0, false) 5.

Definition state_item_pushed : System :=
  mkSystem (mkBuffer [100] 0 0 0)
           [mkWorker 1 (WCall 0 (ProducePrint 1 100))] []
           (RunSpawnProducers 1)
           (mkSink [MsgProducerCreated 1] [MsgProducerCreated 1]).

Definition sched_item_acquired : list (Tid * bool) :=
  repeat (TMain, false) 4 ++ repeat (TProducer 0, false) 8
  ++ repeat (TConsumer 0, false) 3.

Definition state_item_acquired : System :=
  mkSystem (mkBuffer [100] 1 0 0)
           [mkWorker 1 (WCall 0 (Returned None))]
           [mkWorker 1 (WCall 0 (ConsumeLock 1))]
           (RunJoinProducers 0)
           (mkSink [MsgProducerCreated 1; MsgProduced 1 100; MsgConsumerCreated 1]
                   [MsgProducerCreated 1; MsgProduced 1 100; MsgConsumerCreated 1]).

(** No thread holds what [f] counts. *)
Definition none_held (f : pc -> Z) (s : System) : Prop :=
  Forall (fun o => held f o = 0) (pcs s).

(** The state in which [sched_unit] ends. *)
Definition state_unit_done : System :=
  let log := [MsgProducerCreated 1; MsgProduced 1 100; MsgProducerDone 1;
              MsgConsumerCreated 1; MsgConsumed 1 100; MsgConsumerDone 1;
              MsgRemainingEmpty] in
  mkSystem (mkBuffer [] 1 1 0) [mkWorker 1 WDone] [mkWorker 1 WDone] RunDone
           (mkSink log log).









(** The program point of the thread [t], when it is inside a call to the
    buffer. *)
Definition thread_pc (s : System) (t : Tid) : option pc :=
  match t with
  | TMain => main_pc (sys_main s)
  | TProducer n => producers s !! n ≫= worker_pc
  | TConsumer n => consumers s !! n ≫= worker_pc
  end.

(** The place of the thread [t] in [pcs]. *)
Definition thread_index (s : System) (t : Tid) : nat :=
  match t with
  | TProducer n => n
  | TConsumer n => length (producers s) + n
  | TMain => length (producers s) + length (consumers s)
  end.

(** Steps that wait on a semaphore of the buffer. *)
Definition sem_wait (a : Action) : bool :=
  match a with
  | AAcquire _ | ATryAcquireFor _ _ _ => true
  | _ => false
  end.

(** * Properties *)

(** ** Item values *)

Lemma wrap32_id z : in_int z -> wrap32 z = z.
Proof.
  unfold in_int, INT_MIN, INT_MAX, wrap32. intros Hz.
  rewrite Z.mod_small by lia. lia.
Qed.

Lemma item_of_exact id i :
  1 <= id -> 0 <= i -> id * 100 + i <= INT_MAX -> item_of id i = id * 100 + i.
Proof.
  unfold item_of, int_add, int_mul, INT_MAX. intros Hid Hi Hmax.
  rewrite (wrap32_id (id * 100)) by (unfold in_int, INT_MIN, INT_MAX; lia).
  apply wrap32_id. unfold in_int, INT_MIN, INT_MAX. lia.
Qed.




(** ** The producer loop *)




















(** ** Calls of the Buffer methods *)

Ltac step_inv H :=
  simpl in H;
  repeat match type of H with
         | context [match ?x with _ => _ end] => destruct x eqn:?; try discriminate
         end;
  inversion H; subst; clear H.

Ltac run_inv H :=
  let Hstep := fresh "Hstep" in
  let Hrun := fresh "Hrun" in
  inversion H as [|? ? ? ? ? ? ? ? Hstep Hrun]; subst; clear H;
  step_inv Hstep.

Lemma sem_try_acquire_for_true e c z :
  sem_try_acquire_for e c = Some (true, z) -> e = false /\ 0 < c /\ z = c - 1.
Proof.
  unfold sem_try_acquire_for. destruct e; [discriminate|].
  destruct (0 <? c) eqn:E; [|discriminate].
  apply Z.ltb_lt in E. intros H. inversion H. auto.
Qed.

Lemma sem_try_acquire_for_false e c z :
  sem_try_acquire_for e c = Some (false, z) -> e = true /\ z = c.
Proof.
  unfold sem_try_acquire_for. destruct e.
  - intros H. inversion H. auto.
  - destruct (0 <? c); discriminate.
Qed.

Lemma sem_acquire_Some c z : sem_acquire c = Some z -> 0 < c /\ z = c - 1.
Proof.
  unfold sem_acquire. destruct (0 <? c) eqn:E; [|discriminate].
  apply Z.ltb_lt in E. intros H. inversion H. auto.
Qed.

Ltac sem_inv :=
  repeat match goal with
         | H : sem_try_acquire_for _ _ = Some (true, _) |- _ =>
             apply sem_try_acquire_for_true in H; destruct H as (? & ? & ?)
         | H : sem_try_acquire_for _ _ = Some (false, _) |- _ =>
             apply sem_try_acquire_for_false in H; destruct H as (? & ?)
         | H : sem_acquire _ = Some _ |- _ =>
             apply sem_acquire_Some in H; destruct H as (? & ?)
         end; subst.

Lemma step_call_effect e b p a b' p' :
  step_call e b p = Some (a, b', p') -> b' = effect a b.
Proof.
  destruct b as [q m sp it]. intros H.
  destruct p; step_inv H; sem_inv;
    unfold effect, sem_add, sem_release, set_spaces, set_items, set_buffer_mutex, set_buffer;
    simpl; try reflexivity; f_equal; lia.
Qed.

Lemma call_run_app p1 a1 p2 a2 p3 :
  call_run p1 a1 p2 -> call_run p2 a2 p3 -> call_run p1 (a1 ++ a2) p3.
Proof.
  induction 1; intros H2; simpl; [exact H2|].
  eapply call_run_step; eauto.
Qed.

Lemma produce_waits_run n id item :
  call_run (produce id item) (produce_waits n id item) (produce id item).
Proof.
  induction n as [|n IH]; simpl; [apply call_run_nil|].
  eapply (call_run_step true (Buffer_new 0)); [reflexivity|].
  eapply (call_run_step true (Buffer_new 0)); [reflexivity|exact IH].
Qed.

Lemma produce_run_shape_aux (m : nat) id item acts v :
  (length acts <= m)%nat ->
  call_run (ProduceTry id item) acts (Returned v) ->
  exists n, acts = produce_waits n id item ++ produce_success id item /\ v = None.
Proof.
  revert acts. induction m as [|m IH]; intros acts Hlen H.
  - inversion H; subst; simpl in Hlen; lia.
  - run_inv H.
    + (* the slot was acquired *)
      run_inv Hrun. run_inv Hrun0. run_inv Hrun. run_inv Hrun0. run_inv Hrun.
      inversion Hrun0; subst; [|discriminate].
      exists O. split; reflexivity.
    + (* the wait ran out *)
      run_inv Hrun.
      destruct (IH acts) as (n & -> & ->); [simpl in Hlen; lia|exact Hrun0|].
      exists (S n). split; reflexivity.
Qed.

Lemma produce_run_shape id item acts v :
  call_run (produce id item) acts (Returned v) ->
  exists n, acts = produce_waits n id item ++ produce_success id item /\ v = None.
Proof. apply (produce_run_shape_aux (length acts)). lia. Qed.








Lemma sem_acquire_pos c : 0 < c -> sem_acquire c = Some (c - 1).
Proof.
  intros H. unfold sem_acquire. destruct (0 <? c) eqn:E; [reflexivity|].
  apply Z.ltb_ge in E. lia.
Qed.

Lemma sem_try_acquire_for_pos c :
  0 < c -> sem_try_acquire_for false c = Some (true, c - 1).
Proof.
  intros H. unfold sem_try_acquire_for. destruct (0 <? c) eqn:E; [reflexivity|].
  apply Z.ltb_ge in E. lia.
Qed.

Lemma call_exec_produce_success id item b :
  0 < spaces b -> 0 < buffer_mutex b ->
  call_exec (repeat false 6) b (produce id item)
  = Some (produce_success id item, after_produce item b, Returned None).
Proof.
  destruct b as [q m sp it]. cbn [spaces buffer_mutex]. intros Hsp Hm.
  cbn [repeat call_exec produce step_call spaces].
  rewrite (sem_try_acquire_for_pos sp Hsp). simpl.
  rewrite (sem_acquire_pos m Hm).
  unfold produce_success, after_produce, sem_release. simpl.
  do 3 f_equal. unfold set_items, set_buffer_mutex, sem_release. simpl. f_equal; lia.
Qed.




Lemma consume_run_shape id acts v :
  call_run (consume id) acts (Returned v) ->
  (acts = consume_timeout id /\ v = Some TIMEOUT_SENTINEL)
  \/ (exists item, acts = consume_success id item /\ v = Some item).
Proof.
  intros H. run_inv H.
  - right. run_inv Hrun. run_inv Hrun0. run_inv Hrun. run_inv Hrun0.
    run_inv Hrun. run_inv Hrun0.
    inversion Hrun; subst; [|discriminate].
    eexists. split; reflexivity.
  - left. run_inv Hrun. inversion Hrun0; subst; [|discriminate].
    split; reflexivity.
Qed.

Lemma effects_consume_success id item b :
  effects (consume_success id item) b = after_consume b.
Proof.
  destruct b as [q m sp it]. unfold effects, after_consume. simpl.
  unfold set_buffer, set_buffer_mutex, set_spaces, set_items. simpl. f_equal; lia.
Qed.

Lemma call_exec_consume_success id item rest m sp it :
  0 < it -> 0 < m ->
  call_exec (repeat false 7) (mkBuffer (item :: rest) m sp it) (consume id)
  = Some (consume_success id item, mkBuffer rest m (sp + 1) (it - 1),
          Returned (Some item)).
Proof.
  intros Hit Hm.
  cbn [repeat call_exec consume step_call items].
  rewrite (sem_try_acquire_for_pos it Hit). simpl.
  rewrite (sem_acquire_pos m Hm).
  unfold consume_success, sem_release. simpl.
  do 3 f_equal. unfold set_spaces, set_buffer_mutex, sem_release. simpl. f_equal; lia.
Qed.

Lemma show_loop_app temp ss : show_loop temp ss = ss ++ temp.
Proof.
  revert ss. induction temp as [|x temp IH]; intros ss; simpl.
  - rewrite app_nil_r. reflexivity.
  - rewrite IH, <- app_assoc. reflexivity.
Qed.

Lemma snapshot_remaining q : snapshot_of (remaining_message q) = Some q.
Proof.
  destruct q as [|x q]; [reflexivity|].
  unfold remaining_message, snapshot_of. rewrite show_loop_app. reflexivity.
Qed.





(** ** The invariant *)

Lemma held_sum_app f l1 l2 : held_sum f (l1 ++ l2) = held_sum f l1 + held_sum f l2.
Proof.
  induction l1 as [|o l1 IH]; simpl; [reflexivity|]. rewrite IH. lia.
Qed.

Lemma held_nonneg f o : (forall p, 0 <= f p) -> 0 <= held f o.
Proof. intros Hf. destruct o; simpl; [apply Hf|lia]. Qed.

Lemma held_sum_nonneg f l : (forall p, 0 <= f p) -> 0 <= held_sum f l.
Proof.
  intros Hf. induction l as [|o l IH]; simpl; [lia|].
  pose proof (held_nonneg f o Hf). lia.
Qed.

Lemma held_sum_elem f l o :
  (forall p, 0 <= f p) -> o ∈ l -> held f o <= held_sum f l.
Proof.
  intros Hf Hin. induction Hin as [o l|o o' l Hin IH]; simpl.
  - pose proof (held_sum_nonneg f l Hf). lia.
  - pose proof (held_nonneg f o' Hf). lia.
Qed.

Lemma slots_held_nonneg p : 0 <= slots_held p.
Proof. destruct p; simpl; lia. Qed.

Lemma items_held_nonneg p : 0 <= items_held p.
Proof. destruct p; simpl; lia. Qed.

Lemma mutex_held_nonneg p : 0 <= mutex_held p.
Proof. destruct p; simpl; lia. Qed.

Lemma queued_items_push q m sp it item :
  queued_items (mkBuffer (q ++ [item]) m sp it) = queued_items (mkBuffer q m sp it) + 1.
Proof. unfold queued_items. simpl. rewrite length_app. simpl. lia. Qed.

(** What a step of a call takes from the buffer it holds afterwards, and
    what it gives up it held before. *)
Lemma step_call_balance e b p a b' p' :
  step_call e b p = Some (a, b', p') ->
  spaces b' + queued_items b' + slots_held p' = spaces b + queued_items b + slots_held p
  /\ items b' + items_held p' - queued_items b' = items b + items_held p - queued_items b
  /\ buffer_mutex b' + mutex_held p' = buffer_mutex b + mutex_held p
  /\ (0 <= spaces b -> 0 <= spaces b')
  /\ (0 <= items b -> 0 <= items b')
  /\ (0 <= buffer_mutex b -> 0 <= buffer_mutex b').
Proof.
  destruct b as [q m sp it]. intros H.
  destruct p; step_inv H; sem_inv;
    unfold set_spaces, set_items, set_buffer_mutex, set_buffer, sem_release;
    cbn [buffer buffer_mutex spaces items slots_held items_held mutex_held];
    rewrite ?queued_items_push;
    unfold queued_items; cbn [buffer length]; repeat split; lia.
Qed.

Lemma thread_move_balance e b o a b' o' :
  thread_move e b o a b' o' ->
  spaces b' + queued_items b' + held slots_held o'
  = spaces b + queued_items b + held slots_held o
  /\ items b' + held items_held o' - queued_items b'
     = items b + held items_held o - queued_items b
  /\ buffer_mutex b' + held mutex_held o' = buffer_mutex b + held mutex_held o
  /\ (0 <= spaces b -> 0 <= spaces b')
  /\ (0 <= items b -> 0 <= items b')
  /\ (0 <= buffer_mutex b -> 0 <= buffer_mutex b').
Proof.
  intros [p a0 b0 p' -> Hstep|a0 o0 _ (H1 & H2 & H3) (H4 & H5 & H6)].
  - simpl. apply (step_call_balance _ _ _ _ _ _ Hstep).
  - repeat split; auto; lia.
Qed.

Lemma front_kept_free q o : held mutex_held o = 0 -> front_kept q o.
Proof. destruct o as [[]|]; simpl; intros H; try exact I; discriminate. Qed.

(** A step of one thread keeps what the others rely on: a push leaves the
    front in place, and a pop is made by the one thread that has the mutex. *)
Lemma front_kept_other e b p a b' p' o :
  step_call e b p = Some (a, b', p') ->
  (mutex_held p = 1 -> held mutex_held o = 0) ->
  front_kept (buffer b) o -> front_kept (buffer b') o.
Proof.
  destruct b as [q m sp it]. intros H Hex Hf.
  destruct p; step_inv H; sem_inv; cbn [buffer set_buffer set_spaces set_items set_buffer_mutex] in *;
    try exact Hf.
  - (* push *)
    destruct o as [[]|]; simpl in *; try exact I.
    + destruct q; [congruence|discriminate].
    + destruct q; simpl in *; [discriminate|exact Hf].
  - (* pop *)
    apply front_kept_free. apply Hex. reflexivity.
Qed.

(** The stepping thread itself: it is at [front] only with a non-empty
    queue, and at [pop] with the front it has read. *)
Lemma front_kept_self e b p a b' p' :
  step_call e b p = Some (a, b', p') ->
  items_held p <= queued_items b ->
  front_kept (buffer b') (Some p').
Proof.
  destruct b as [q m sp it]. intros H Hq.
  destruct p; step_inv H; sem_inv; simpl; try exact I.
  - (* lock of consume *)
    unfold queued_items in Hq. simpl in Hq. destruct q; simpl in *; [lia|discriminate].
  - (* front *)
    reflexivity.
Qed.

Lemma held_sum_middle f l1 o l2 :
  held_sum f (l1 ++ o :: l2) = held_sum f l1 + held f o + held_sum f l2.
Proof. rewrite held_sum_app. simpl. lia. Qed.

(** The invariant is kept by a step of any one thread. *)
Lemma Inv_on_move cap e b o a b' o' l1 l2 :
  Inv_on cap b (l1 ++ o :: l2) ->
  thread_move e b o a b' o' ->
  Inv_on cap b' (l1 ++ o' :: l2).
Proof.
  intros [Hsp Hit Hmx Hslots Hqueue Hlock Hfront] Hmove.
  destruct (thread_move_balance _ _ _ _ _ _ Hmove) as (B1 & B2 & B3 & B4 & B5 & B6).
  rewrite held_sum_middle in Hslots, Hqueue, Hlock.
  pose proof (held_sum_nonneg items_held l1 items_held_nonneg) as Hi1.
  pose proof (held_sum_nonneg items_held l2 items_held_nonneg) as Hi2.
  pose proof (held_sum_nonneg mutex_held l1 mutex_held_nonneg) as Hm1.
  pose proof (held_sum_nonneg mutex_held l2 mutex_held_nonneg) as Hm2.
  constructor; rewrite ?held_sum_middle; auto; try lia.
  apply Forall_app in Hfront. destruct Hfront as [Hf1 Hf2].
  apply Forall_cons in Hf2. destruct Hf2 as [Hfo Hf2].
  assert (Hothers : forall l, held_sum mutex_held l <= held_sum mutex_held l1
                                                       + held_sum mutex_held l2 ->
                              Forall (front_kept (buffer b)) l ->
                              Forall (front_kept (buffer b')) l).
  { intros l Hle Hl. apply Forall_forall. intros o2 Hin.
    rewrite Forall_forall in Hl. specialize (Hl o2 Hin).
    destruct Hmove as [p a0 b0 p' -> Hstep|]; [|exact Hl].
    eapply front_kept_other; [exact Hstep| |exact Hl].
    intros Hp. simpl in Hlock.
    pose proof (held_sum_elem mutex_held l o2 mutex_held_nonneg Hin).
    pose proof (held_nonneg mutex_held o2 mutex_held_nonneg). lia. }
  apply Forall_app. split; [apply Hothers; [lia|exact Hf1]|].
  apply Forall_cons. split; [|apply Hothers; [lia|exact Hf2]].
  destruct Hmove as [p a0 b0 p' -> Hstep|a0 o0 _ _ (_ & _ & Hq)].
  - eapply front_kept_self; [exact Hstep|]. simpl in Hqueue. lia.
  - apply front_kept_free. exact Hq.
Qed.

(** A thread that starts holds nothing. *)
Lemma Inv_on_spawn cap b l1 l2 :
  Inv_on cap b (l1 ++ l2) -> Inv_on cap b (l1 ++ None :: l2).
Proof.
  intros [Hsp Hit Hmx Hslots Hqueue Hlock Hfront].
  rewrite held_sum_app in Hslots, Hqueue, Hlock.
  constructor; rewrite ?held_sum_middle; simpl; auto; try lia.
  apply Forall_app in Hfront. destruct Hfront as [Hf1 Hf2].
  apply Forall_app. split; [exact Hf1|]. apply Forall_cons. split; [exact I|exact Hf2].
Qed.

Lemma quiet_None : quiet None.
Proof. repeat split. Qed.

Lemma Producer_step_move cfg e b w a b' w' :
  Producer_step cfg e b w = Some (a, b', w') ->
  thread_move e b (worker_pc w) a b' (worker_pc w').
Proof.
  unfold Producer_step, worker_pc. destruct (wst w) as [|i|i p| |]; intros H.
  - inversion H; subst. apply move_own; solve [reflexivity|apply quiet_None].
  - destruct (i <? N cfg); inversion H; subst; apply move_own; solve [reflexivity|repeat split].
  - assert (Hcall : match step_call e b p with
                    | Some (a, b', p') => Some (a, b', mkWorker (wid w) (WCall i p'))
                    | None => None
                    end = Some (a, b', w') ->
                    thread_move e b (Some p) a b'
                                match wst w' with WCall _ p0 => Some p0 | _ => None end).
    { destruct (step_call e b p) as [[[a0 b0] p0]|] eqn:Hs; [|discriminate].
      intros H'. inversion H'; subst. simpl. eapply move_call; [reflexivity|exact Hs]. }
    destruct p; try (apply Hcall; exact H).
    inversion H; subst. apply move_own; solve [reflexivity|repeat split].
  - inversion H; subst. apply move_own; solve [reflexivity|apply quiet_None].
  - discriminate.
Qed.

Lemma Consumer_step_move cfg e b w a b' w' :
  Consumer_step cfg e b w = Some (a, b', w') ->
  thread_move e b (worker_pc w) a b' (worker_pc w').
Proof.
  unfold Consumer_step, worker_pc. destruct (wst w) as [|i|i p| |]; intros H.
  - inversion H; subst. apply move_own; solve [reflexivity|apply quiet_None].
  - destruct (i <? N cfg); inversion H; subst; apply move_own; solve [reflexivity|repeat split].
  - assert (Hcall : match step_call e b p with
                    | Some (a, b', p') => Some (a, b', mkWorker (wid w) (WCall i p'))
                    | None => None
                    end = Some (a, b', w') ->
                    thread_move e b (Some p) a b'
                                match wst w' with WCall _ p0 => Some p0 | _ => None end).
    { destruct (step_call e b p) as [[[a0 b0] p0]|] eqn:Hs; [|discriminate].
      intros H'. inversion H'; subst. simpl. eapply move_call; [reflexivity|exact Hs]. }
    destruct p; try (apply Hcall; exact H).
    destruct v as [item|]; [|discriminate].
    destruct (negb (item =? -1)); inversion H; subst; apply move_own; solve [reflexivity|repeat split].
  - inversion H; subst. apply move_own; solve [reflexivity|apply quiet_None].
  - discriminate.
Qed.

Lemma fmap_lookup_middle (l : list Worker) n w :
  l !! n = Some w ->
  worker_pc <$> l
  = (worker_pc <$> take n l) ++ worker_pc w :: (worker_pc <$> drop (S n) l).
Proof.
  intros H. rewrite <- (take_drop_middle l n w H) at 1.
  rewrite fmap_app. reflexivity.
Qed.

Lemma fmap_insert_middle (l : list Worker) n w w' :
  l !! n = Some w ->
  worker_pc <$> <[n := w']> l
  = (worker_pc <$> take n l) ++ worker_pc w' :: (worker_pc <$> drop (S n) l).
Proof.
  intros H. rewrite insert_take_drop by (eapply lookup_lt_Some; exact H).
  rewrite fmap_app. reflexivity.
Qed.

(** Every step of the system is a step of one thread at its program point,
    or the start of a new thread. *)
Lemma sys_step_move cfg t e s a s' :
  sys_step cfg t e s = Some (a, s') ->
  (exists l1 o l2 o',
      pcs s = l1 ++ o :: l2 /\ pcs s' = l1 ++ o' :: l2
      /\ thread_move e (sys_buffer s) o a (sys_buffer s') o')
  \/ (exists l1 l2,
         pcs s = l1 ++ l2 /\ pcs s' = l1 ++ None :: l2
         /\ sys_buffer s' = sys_buffer s /\ a = ALocal).
Proof.
  destruct s as [b ps cs m k]. destruct t as [|n|n]; simpl.
  - (* main *)
    unfold Principal_step, pcs. simpl.
    assert (Hown : forall o o', own_action a = true -> quiet o -> quiet o' ->
              exists l1 o1 l2 o1',
                (worker_pc <$> ps) ++ (worker_pc <$> cs) ++ [o] = l1 ++ o1 :: l2
                /\ (worker_pc <$> ps) ++ (worker_pc <$> cs) ++ [o'] = l1 ++ o1' :: l2
                /\ thread_move e b o1 a b o1').
    { intros o o' Ha Ho Ho'.
      exists ((worker_pc <$> ps) ++ (worker_pc <$> cs)), o, [], o'.
      rewrite <- !app_assoc. repeat split. apply move_own; assumption. }
    destruct m as [i|i|j|j|p|].
    + destruct (i <? NP cfg); intros H; inversion H; subst; simpl.
      * right. exists (worker_pc <$> ps), ((worker_pc <$> cs) ++ [None]).
        repeat split. rewrite fmap_app, <- app_assoc. reflexivity.
      * left. apply Hown; solve [reflexivity|apply quiet_None].
    + destruct (i <? NC cfg); intros H; inversion H; subst; simpl.
      * right. exists ((worker_pc <$> ps) ++ (worker_pc <$> cs)), [None].
        rewrite fmap_app, <- !app_assoc. repeat split.
      * left. apply Hown; solve [reflexivity|apply quiet_None].
    + destruct (ps !! j) as [w|]; [destruct (is_done w)|];
        intros H; inversion H; subst; simpl; left; apply Hown;
        solve [reflexivity|apply quiet_None].
    + destruct (cs !! j) as [w|]; [destruct (is_done w)|];
        intros H; inversion H; subst; simpl; left; apply Hown;
        solve [reflexivity|repeat split].
    + assert (Hcall : match step_call e b p with
                      | Some (a, b', p') =>
                          Some (a, mkSystem b' ps cs (RunShow p') (emit a k))
                      | None => None
                      end = Some (a, s') ->
                      exists l1 o l2 o',
                        (worker_pc <$> ps) ++ (worker_pc <$> cs) ++ [Some p] = l1 ++ o :: l2
                        /\ pcs s' = l1 ++ o' :: l2
                        /\ thread_move e b o a (sys_buffer s') o').
      { destruct (step_call e b p) as [[[a0 b0] p0]|] eqn:Hs; [|discriminate].
        intros H. inversion H; subst. unfold pcs. simpl.
        exists ((worker_pc <$> ps) ++ (worker_pc <$> cs)), (Some p), [], (Some p0).
        rewrite <- !app_assoc. repeat split. eapply move_call; [reflexivity|exact Hs]. }
      destruct p; try (intros H; left; apply Hcall; exact H).
      intros H; inversion H; subst; simpl. left. apply Hown; solve [reflexivity|repeat split].
    + discriminate.
  - (* a producer *)
    destruct (ps !! n) as [w|] eqn:Hw; [|discriminate].
    destruct (Producer_step cfg e b w) as [[[a0 b0] w0]|] eqn:Hs; [|discriminate].
    intros H. inversion H; subst. left. unfold pcs. simpl.
    exists (worker_pc <$> take n ps), (worker_pc w),
      ((worker_pc <$> drop (S n) ps) ++ (worker_pc <$> cs) ++ [main_pc m]), (worker_pc w0).
    rewrite (fmap_lookup_middle ps n w Hw), (fmap_insert_middle ps n w w0 Hw).
    rewrite <- !app_assoc. repeat split.
    eapply Producer_step_move. exact Hs.
  - (* a consumer *)
    destruct (cs !! n) as [w|] eqn:Hw; [|discriminate].
    destruct (Consumer_step cfg e b w) as [[[a0 b0] w0]|] eqn:Hs; [|discriminate].
    intros H. inversion H; subst. left. unfold pcs. simpl.
    exists ((worker_pc <$> ps) ++ (worker_pc <$> take n cs)), (worker_pc w),
      ((worker_pc <$> drop (S n) cs) ++ [main_pc m]), (worker_pc w0).
    rewrite (fmap_lookup_middle cs n w Hw), (fmap_insert_middle cs n w w0 Hw).
    rewrite <- !app_assoc. repeat split.
    eapply Consumer_step_move. exact Hs.
Qed.

Lemma Inv_step cfg t e s a s' :
  Inv cfg s -> sys_step cfg t e s = Some (a, s') -> Inv cfg s'.
Proof.
  unfold Inv. intros HI Hstep.
  destruct (sys_step_move _ _ _ _ _ _ Hstep)
    as [(l1 & o & l2 & o' & Hl & Hl' & Hmove)|(l1 & l2 & Hl & Hl' & Hb & _)].
  - rewrite Hl in HI. rewrite Hl'. eapply Inv_on_move; eauto.
  - rewrite Hl in HI. rewrite Hl', Hb. apply Inv_on_spawn. exact HI.
Qed.

Lemma Inv_init cfg : 0 <= capacity cfg -> Inv cfg (Principal_new cfg).
Proof.
  intros Hc. unfold Inv, Principal_new, Buffer_new, pcs. simpl.
  constructor; simpl; try lia.
  - unfold queued_items. simpl. lia.
  - unfold queued_items. simpl. lia.
  - repeat constructor.
Qed.

Lemma Inv_exec cfg sched s s' :
  Inv cfg s -> exec cfg sched s = Some s' -> Inv cfg s'.
Proof.
  revert s. induction sched as [|[t e] sched IH]; intros s HI H; simpl in H.
  - inversion H; subst. exact HI.
  - destruct (sys_step cfg t e s) as [[a s1]|] eqn:Hs; [|discriminate].
    eapply IH; [|exact H]. eapply Inv_step; eauto.
Qed.

Lemma Reachable_Inv cfg s : 0 <= capacity cfg -> Reachable cfg s -> Inv cfg s.
Proof.
  intros Hc [sched H]. eapply Inv_exec; [apply Inv_init; exact Hc|exact H].
Qed.

Lemma Reachable_step cfg t e s a s' :
  Reachable cfg s -> sys_step cfg t e s = Some (a, s') -> Reachable cfg s'.
Proof.
  intros [sched H] Hs. exists (sched ++ [(t, e)]).
  revert H. generalize (Principal_new cfg). induction sched as [|[t0 e0] sched IH]; intros s0 H.
  - simpl in *. inversion H; subst. rewrite Hs. reflexivity.
  - simpl in *. destruct (sys_step cfg t0 e0 s0) as [[a1 s1]|]; [|discriminate].
    apply IH. exact H.
Qed.

(** ** Conservation of capacity *)

Lemma held_sum_lookup f l i o :
  (forall p, 0 <= f p) -> l !! i = Some o -> held f o <= held_sum f l.
Proof.
  intros Hf H. apply held_sum_elem; [exact Hf|].
  apply list_elem_of_lookup. eauto.
Qed.

Lemma thread_pc_lookup s t p :
  thread_pc s t = Some p -> pcs s !! thread_index s t = Some (Some p).
Proof.
  unfold pcs. destruct t as [|n|n]; simpl; intros H.
  - rewrite app_assoc, lookup_app_r by (rewrite length_app, !length_fmap; lia).
    rewrite length_app, !length_fmap, Nat.sub_diag. simpl. congruence.
  - destruct (producers s !! n) as [w|] eqn:Hw; [|discriminate]. simpl in H.
    rewrite lookup_app_l by (rewrite length_fmap; eapply lookup_lt_Some; eauto).
    rewrite list_lookup_fmap, Hw. simpl. congruence.
  - destruct (consumers s !! n) as [w|] eqn:Hw; [|discriminate]. simpl in H.
    rewrite lookup_app_r by (rewrite length_fmap; lia).
    rewrite length_fmap.
    replace (length (producers s) + n - length (producers s))%nat with n by lia.
    rewrite lookup_app_l by (rewrite length_fmap; eapply lookup_lt_Some; eauto).
    rewrite list_lookup_fmap, Hw. simpl. congruence.
Qed.

(** What one thread holds, all threads hold. *)
Lemma thread_held_total f s t p :
  (forall q, 0 <= f q) -> thread_pc s t = Some p -> f p <= total f s.
Proof.
  intros Hf H. apply thread_pc_lookup in H.
  apply (held_sum_lookup f (pcs s) _ (Some p) Hf H).
Qed.

(** C1, as stated, fails: with capacity 1, once the first producer has
    acquired its slot and has not yet pushed, there is no free slot and no
    queued item. *)
Lemma slots_plus_queue_not_capacity :
  ~ (forall cfg s,
        non_positive cfg = false -> Reachable cfg s ->
        spaces (sys_buffer s) + queued_items (sys_buffer s) = capacity cfg).
Proof.
  intros H.
  assert (Hr : Reachable cfg_unit state_slot_acquired)
    by (exists sched_slot_acquired; reflexivity).
  specialize (H cfg_unit state_slot_acquired eq_refl Hr). discriminate H.
Qed.

Lemma held_sum_zero f l :
  (forall p, 0 <= f p) ->
  held_sum f l = 0 <-> Forall (fun o => held f o = 0) l.
Proof.
  intros Hf. induction l as [|o l IH]; simpl.
  - split; [intros _; apply Forall_nil_2|reflexivity].
  - pose proof (held_nonneg f o Hf). pose proof (held_sum_nonneg f l Hf).
    rewrite Forall_cons, <- IH. lia.
Qed.

(** C1, amended: in every reachable state, the free slots, the queued
    items and the slots in flight add up to the capacity.  A slot is in
    flight while a producer has acquired it and not yet pushed (lines 60-64),
    or a consumer has popped and not yet released it (lines 86-91).  So the
    free slots plus the queued items equal the capacity exactly in the states
    in which no thread has a slot in flight: not between a producer's acquire
    of [spaces] and its push, not between a consumer's pop and its release of
    [spaces], but also between a consumer's acquire of [items] and its pop. *)
Theorem slots_conservation cfg s :
  0 <= capacity cfg -> Reachable cfg s ->
  spaces (sys_buffer s) + queued_items (sys_buffer s) + total slots_held s
  = capacity cfg
  /\ 0 <= total slots_held s
  /\ (total slots_held s = 0 ->
      spaces (sys_buffer s) + queued_items (sys_buffer s) = capacity cfg)
  /\ (spaces (sys_buffer s) + queued_items (sys_buffer s) = capacity cfg
      <-> none_held slots_held s)
  /\ (forall id item,
         slots_held (ProduceLock id item) = 1 /\ slots_held (ProducePush id item) = 1
         /\ slots_held (ConsumePrint id item) = 1
         /\ slots_held (ConsumeUnlock id item) = 1
         /\ slots_held (ConsumeSignal id item) = 1
         /\ slots_held (ConsumeLock id) = 0 /\ slots_held (ConsumeFront id) = 0
         /\ slots_held (ConsumePop id item) = 0)
  /\ (forall t p,
         thread_pc s t = Some p -> slots_held p = 1 ->
         spaces (sys_buffer s) + queued_items (sys_buffer s) < capacity cfg).
Proof.
  intros Hc Hr. destruct (Reachable_Inv cfg s Hc Hr) as [_ _ _ Hslots _ _ _].
  fold (total slots_held s) in Hslots.
  pose proof (held_sum_nonneg slots_held (pcs s) slots_held_nonneg) as Hn.
  fold (total slots_held s) in Hn.
  pose proof (held_sum_zero slots_held (pcs s) slots_held_nonneg) as Hz.
  fold (total slots_held s) in Hz. fold (none_held slots_held s) in Hz.
  split; [exact Hslots|]. split; [exact Hn|]. split; [lia|].
  split; [rewrite <- Hz; lia|].
  split; [intros id item; repeat split|].
  intros t p Ht Hp.
  pose proof (thread_held_total slots_held s t p slots_held_nonneg Ht). lia.
Qed.

Lemma slots_conservation_witness :
  spaces (sys_buffer state_slot_acquired) + queued_items (sys_buffer state_slot_acquired)
  + total slots_held state_slot_acquired = 1
  /\ spaces (sys_buffer state_item_acquired) + queued_items (sys_buffer state_item_acquired)
     = capacity cfg_unit.
Proof.
  split.
  - apply (slots_conservation cfg_unit state_slot_acquired); [simpl; lia|].
    exists sched_slot_acquired. reflexivity.
  - destruct (slots_conservation cfg_unit state_item_acquired) as (_ & _ & _ & H & _);
      [simpl; lia|exists sched_item_acquired; reflexivity|].
    apply H. repeat (apply Forall_cons; split; [reflexivity|]). apply Forall_nil_2.
Defined.

Lemma Inv_within_capacity cfg s : Inv cfg s -> within_capacity cfg s.
Proof.
  intros [Hsp Hit Hmx Hslots Hqueue Hlock _].
  pose proof (held_sum_nonneg slots_held (pcs s) slots_held_nonneg).
  pose proof (held_sum_nonneg items_held (pcs s) items_held_nonneg).
  unfold within_capacity, queued_items in *. repeat split; lia.
Qed.

(** C2, as stated, fails in its second clause when the number of queued
    items is the count of available items, the semaphore [items]: once the
    producer has pushed its item and not yet released [items], the queue has
    one element and [items] is 0. *)
Lemma items_not_queue_length :
  ~ (forall cfg s,
        non_positive cfg = false -> Reachable cfg s ->
        spaces (sys_buffer s) + items (sys_buffer s) <= capacity cfg
        /\ items (sys_buffer s) = Z.of_nat (length (buffer (sys_buffer s)))
        /\ Z.of_nat (length (buffer (sys_buffer s))) <= capacity cfg).
Proof.
  intros H.
  assert (Hr : Reachable cfg_unit state_item_pushed)
    by (exists sched_item_pushed; reflexivity).
  destruct (H cfg_unit state_item_pushed eq_refl Hr) as (_ & Hit & _).
  discriminate Hit.
Qed.

(** C2, amended: in every reachable state the free slots plus the length
    of the queue, and the free slots plus the available items, are at most
    the capacity; the queue is no longer than the capacity; and the available
    items and the items in flight add up to the length of the queue.  An item
    is in flight while a producer has pushed it and not yet released [items]
    (lines 64-70), or a consumer has acquired it and not yet popped it
    (lines 79-86).  So [items] is at most the length of the queue, and equal
    to it exactly when no thread has an item in flight.  Every step of every
    thread, in [produce], [consume] or [showRemainingItems], leads to a state
    with the same bounds. *)
Theorem capacity_bounds cfg s :
  0 <= capacity cfg -> Reachable cfg s ->
  within_capacity cfg s
  /\ 0 <= spaces (sys_buffer s)
  /\ items (sys_buffer s) + total items_held s
     = Z.of_nat (length (buffer (sys_buffer s)))
  /\ (items (sys_buffer s) = Z.of_nat (length (buffer (sys_buffer s)))
      <-> none_held items_held s)
  /\ (forall id item,
         items_held (ProducePrint id item) = 1 /\ items_held (ProduceUnlock id item) = 1
         /\ items_held (ProduceSignal id item) = 1
         /\ items_held (ConsumeLock id) = 1 /\ items_held (ConsumeFront id) = 1
         /\ items_held (ConsumePop id item) = 1
         /\ items_held (ProduceLock id item) = 0 /\ items_held (ProducePush id item) = 0
         /\ items_held (ConsumePrint id item) = 0)
  /\ (forall t e a s', sys_step cfg t e s = Some (a, s') -> within_capacity cfg s')
  /\ (forall t p,
         thread_pc s t = Some p -> items_held p = 1 ->
         items (sys_buffer s) < Z.of_nat (length (buffer (sys_buffer s)))).
Proof.
  intros Hc Hr. pose proof (Reachable_Inv cfg s Hc Hr) as HI.
  split; [apply Inv_within_capacity; exact HI|].
  destruct HI as [Hsp Hit Hmx Hslots Hqueue Hlock _].
  pose proof (held_sum_zero items_held (pcs s) items_held_nonneg) as Hz.
  fold (total items_held s) in Hz, Hqueue. fold (none_held items_held s) in Hz.
  unfold queued_items in Hqueue.
  split; [exact Hsp|]. split; [exact Hqueue|].
  split; [rewrite <- Hz; lia|].
  split; [intros id item; repeat split|].
  split.
  { intros t e a s' Hstep. apply Inv_within_capacity.
    eapply Reachable_Inv; [exact Hc|]. eapply Reachable_step; eauto. }
  intros t p Ht Hp.
  pose proof (thread_held_total items_held s t p items_held_nonneg Ht). lia.
Qed.

Lemma capacity_bounds_witness :
  within_capacity cfg_unit state_item_pushed
  /\ items (sys_buffer state_item_pushed) + total items_held state_item_pushed = 1.
Proof.
  destruct (capacity_bounds cfg_unit state_item_pushed) as (H1 & _ & H2 & _);
    [simpl; lia|exists sched_item_pushed; reflexivity|].
  split; [exact H1|exact H2].
Defined.

(** ** Steps of the system and the buffer *)

Lemma effect_own a b : own_action a = true -> effect a b = b.
Proof. destruct a; simpl; intros H; try discriminate; reflexivity. Qed.

(** The action of a step tells what the step does to the buffer. *)
Lemma sys_step_effect cfg t e s a s' :
  sys_step cfg t e s = Some (a, s') -> sys_buffer s' = effect a (sys_buffer s).
Proof.
  intros H.
  destruct (sys_step_move _ _ _ _ _ _ H)
    as [(l1 & o & l2 & o' & _ & _ & Hmove)|(l1 & l2 & _ & _ & Hb & ->)].
  - destruct Hmove as [p a0 b0 p' _ Hstep|a0 o0 Ha _ _].
    + apply (step_call_effect _ _ _ _ _ _ Hstep).
    + symmetry. apply effect_own. exact Ha.
  - exact Hb.
Qed.


(** No thread ever calls [front] or [pop] on an empty queue. *)
Lemma sys_front_defined cfg s l1 p l2 e :
  0 <= capacity cfg -> Reachable cfg s ->
  pcs s = l1 ++ Some p :: l2 ->
  (exists id, p = ConsumeFront id) \/ (exists id item, p = ConsumePop id item) ->
  exists a b' p', step_call e (sys_buffer s) p = Some (a, b', p').
Proof.
  intros Hc Hr Hl Hp. destruct (Reachable_Inv cfg s Hc Hr) as [_ _ _ _ _ _ Hfront].
  rewrite Hl in Hfront.
  apply Forall_app in Hfront. destruct Hfront as [_ Hfront].
  apply Forall_cons in Hfront. destruct Hfront as [Hfront _].
  destruct (sys_buffer s) as [q m sp it].
  destruct Hp as [[id ->]|(id & item & ->)]; simpl in *;
    destruct q; try congruence; try discriminate; eauto.
Qed.

(** The thread that is between its lock and its unlock has the mutex, and
    no other thread is. *)
Lemma sys_mutual_exclusion cfg s l1 p l2 :
  0 <= capacity cfg -> Reachable cfg s ->
  pcs s = l1 ++ Some p :: l2 -> mutex_held p = 1 ->
  buffer_mutex (sys_buffer s) = 0
  /\ held_sum mutex_held l1 = 0 /\ held_sum mutex_held l2 = 0.
Proof.
  intros Hc Hr Hl Hp. destruct (Reachable_Inv cfg s Hc Hr) as [_ _ Hmx _ _ Hlock _].
  rewrite Hl, held_sum_middle in Hlock. simpl in Hlock.
  pose proof (held_sum_nonneg mutex_held l1 mutex_held_nonneg).
  pose proof (held_sum_nonneg mutex_held l2 mutex_held_nonneg).
  repeat split; lia.
Qed.

(** ** Items in the queue *)

Lemma step_call_items e b p a b' p' :
  step_call e b p = Some (a, b', p') ->
  pushing_ok (Some p) -> Forall item_ok (buffer b) ->
  pushing_ok (Some p') /\ Forall item_ok (buffer b').
Proof.
  destruct b as [q m sp it]. intros H Hp Hq.
  destruct p; step_inv H; sem_inv; simpl in *; try (split; [assumption || exact I|assumption]).
  - (* push *)
    split; [exact I|]. apply Forall_app. split; [exact Hq|].
    apply Forall_cons. split; [exact Hp|apply Forall_nil_2].
  - (* pop *)
    split; [exact I|]. apply Forall_cons in Hq. apply Hq.
Qed.

Lemma Producer_step_items cfg e b w a b' w' :
  no_overflow cfg ->
  Producer_step cfg e b w = Some (a, b', w') ->
  producer_ok cfg w -> Forall item_ok (buffer b) ->
  producer_ok cfg w' /\ Forall item_ok (buffer b').
Proof.
  unfold no_overflow, producer_ok, Producer_step, worker_pc.
  intros Hcfg H (Hid & Hp & Hst) Hq.
  destruct (wst w) as [|i|i p| |].
  - inversion H; subst; simpl. repeat split; auto; lia.
  - destruct (i <? N cfg) eqn:E; inversion H; subst; simpl.
    + apply Z.ltb_lt in E. repeat split; try lia; try assumption.
      unfold pushing_ok, item_ok, INT_MAX in *. simpl. rewrite item_of_exact; unfold INT_MAX; nia.
    + repeat split; auto; lia.
  - assert (Hcall : match step_call e b p with
                    | Some (a, b', p') => Some (a, b', mkWorker (wid w) (WCall i p'))
                    | None => None
                    end = Some (a, b', w') ->
                    (1 <= wid w' <= NP cfg
                     /\ pushing_ok match wst w' with WCall _ p0 => Some p0 | _ => None end
                     /\ match wst w' with
                        | WLoop i0 => 0 <= i0
                        | WCall i0 _ => 0 <= i0 < N cfg
                        | _ => True
                        end)
                    /\ Forall item_ok (buffer b')).
    { destruct (step_call e b p) as [[[a0 b0] p0]|] eqn:Hs; [|discriminate].
      intros H'. inversion H'; subst. simpl.
      destruct (step_call_items _ _ _ _ _ _ Hs Hp Hq). repeat split; auto; lia. }
    destruct p; try (apply Hcall; exact H).
    inversion H; subst; simpl. repeat split; auto; lia.
  - inversion H; subst; simpl. repeat split; auto; lia.
  - discriminate.
Qed.

Lemma Consumer_step_items cfg e b w a b' w' :
  Consumer_step cfg e b w = Some (a, b', w') ->
  pushing_ok (worker_pc w) -> Forall item_ok (buffer b) ->
  pushing_ok (worker_pc w') /\ Forall item_ok (buffer b').
Proof.
  unfold Consumer_step, worker_pc. intros H Hp Hq.
  destruct (wst w) as [|i|i p| |].
  - inversion H; subst; simpl. split; [exact I|exact Hq].
  - destruct (i <? N cfg); inversion H; subst; simpl; (split; [exact I|exact Hq]).
  - assert (Hcall : match step_call e b p with
                    | Some (a, b', p') => Some (a, b', mkWorker (wid w) (WCall i p'))
                    | None => None
                    end = Some (a, b', w') ->
                    pushing_ok match wst w' with WCall _ p0 => Some p0 | _ => None end
                    /\ Forall item_ok (buffer b')).
    { destruct (step_call e b p) as [[[a0 b0] p0]|] eqn:Hs; [|discriminate].
      intros H'. inversion H'; subst. simpl.
      apply (step_call_items _ _ _ _ _ _ Hs Hp Hq). }
    destruct p; try (apply Hcall; exact H).
    destruct v as [item|]; [|discriminate].
    destruct (negb (item =? -1)); inversion H; subst; simpl; (split; [exact I|exact Hq]).
  - inversion H; subst; simpl. split; [exact I|exact Hq].
  - discriminate.
Qed.

Lemma Items_inv_step cfg t e s a s' :
  no_overflow cfg ->
  Items_inv cfg s -> sys_step cfg t e s = Some (a, s') -> Items_inv cfg s'.
Proof.
  intros Hcfg [Hq Hps Hcs [Hm Hi]]. destruct s as [b ps cs m k]. simpl in *.
  destruct t as [|n|n]; simpl.
  - unfold Principal_step. simpl. destruct m as [i|i|j|j|p|].
    + destruct (i <? NP cfg) eqn:E; intros H; inversion H; subst;
        constructor; simpl; auto; try (split; [exact I|lia]).
      apply Z.ltb_lt in E. apply Forall_app. split; [exact Hps|].
      apply Forall_cons. split; [|apply Forall_nil_2].
      unfold producer_ok. simpl. repeat split; lia.
    + destruct (i <? NC cfg); intros H; inversion H; subst;
        constructor; simpl; auto.
      apply Forall_app. split; [exact Hcs|].
      apply Forall_cons. split; [exact I|apply Forall_nil_2].
    + destruct (ps !! j) as [w|]; [destruct (is_done w)|];
        intros H; inversion H; subst; constructor; simpl; auto.
    + destruct (cs !! j) as [w|]; [destruct (is_done w)|];
        intros H; inversion H; subst; constructor; simpl; auto.
    + assert (Hcall : match step_call e b p with
                      | Some (a, b', p') =>
                          Some (a, mkSystem b' ps cs (RunShow p') (emit a k))
                      | None => None
                      end = Some (a, s') -> Items_inv cfg s').
      { destruct (step_call e b p) as [[[a0 b0] p0]|] eqn:Hs; [|discriminate].
        intros H. inversion H; subst.
        destruct (step_call_items _ _ _ _ _ _ Hs Hm Hq).
        constructor; simpl; auto. }
      destruct p; try exact Hcall.
      intros H; inversion H; subst. constructor; simpl; auto.
    + discriminate.
  - destruct (ps !! n) as [w|] eqn:Hw; [|discriminate].
    destruct (Producer_step cfg e b w) as [[[a0 b0] w0]|] eqn:Hs; [|discriminate].
    intros H. inversion H; subst.
    assert (Hwok : producer_ok cfg w).
    { rewrite Forall_lookup in Hps. exact (Hps n w Hw). }
    destruct (Producer_step_items _ _ _ _ _ _ _ Hcfg Hs Hwok Hq).
    constructor; simpl; auto. apply Forall_insert; assumption.
  - destruct (cs !! n) as [w|] eqn:Hw; [|discriminate].
    destruct (Consumer_step cfg e b w) as [[[a0 b0] w0]|] eqn:Hs; [|discriminate].
    intros H. inversion H; subst.
    assert (Hwok : pushing_ok (worker_pc w)).
    { rewrite Forall_lookup in Hcs. exact (Hcs n w Hw). }
    destruct (Consumer_step_items _ _ _ _ _ _ _ Hs Hwok Hq).
    constructor; simpl; auto. apply Forall_insert; assumption.
Qed.

Lemma Reachable_Items_inv cfg s :
  no_overflow cfg -> Reachable cfg s -> Items_inv cfg s.
Proof.
  intros Hcfg [sched H].
  assert (Hinit : Items_inv cfg (Principal_new cfg)).
  { constructor; simpl; auto using Forall_nil_2. split; [exact I|lia]. }
  revert H Hinit. generalize (Principal_new cfg).
  induction sched as [|[t e] sched IH]; intros s0 H HI; simpl in H.
  - inversion H; subst. exact HI.
  - destruct (sys_step cfg t e s0) as [[a s1]|] eqn:Hs; [|discriminate].
    eapply IH; [exact H|]. eapply Items_inv_step; eauto.
Qed.

(** Without overflow, no thread ever reads -1 at the front of the queue. *)
Lemma sys_front_item cfg t e s x s' :
  no_overflow cfg -> Reachable cfg s ->
  sys_step cfg t e s = Some (AFront x, s') ->
  100 <= x /\ x <> TIMEOUT_SENTINEL.
Proof.
  intros Hcfg Hr H. destruct (Reachable_Items_inv cfg s Hcfg Hr) as [Hq _ _ _].
  assert (Hx : item_ok x).
  { destruct (sys_step_move _ _ _ _ _ _ H)
      as [(l1 & o & l2 & o' & _ & _ & Hmove)|(l1 & l2 & _ & _ & _ & Ha)];
      [|discriminate].
    inversion Hmove as [p a0 b0 p' Ho Hstep|a0 o0 Ha _ _]; subst; [|discriminate].
    destruct (sys_buffer s) as [q m sp it]. simpl in Hq.
    destruct p; step_inv Hstep. simpl in Hq.
    apply Forall_cons in Hq. apply Hq. }
  unfold item_ok, TIMEOUT_SENTINEL in *. lia.
Qed.

(** ** consume *)



(** C10, as stated, fails: [consume] also returns -1 when -1 is the item
    at the front of the queue, which is the item the producer 42949672 makes
    at index 95; that call has popped the queue, taken an item and released
    a slot. *)
Lemma consume_returns_sentinel_after_pop :
  ~ (forall id es b acts b',
        call_exec es b (consume id) = Some (acts, b', Returned (Some TIMEOUT_SENTINEL)) ->
        b' = b).
Proof.
  intros H.
  specialize (H 1 (repeat false 7) (mkBuffer [item_of 42949672 95] 1 0 1)
                (consume_success 1 (-1)) (mkBuffer [] 1 1 0) eq_refl).
  discriminate H.
Qed.

(** C10, amended: when the wait of consume(id) fails, the failed
    [try_acquire_for] leaves [items] as it was, the diagnostic step changes
    nothing, and the call returns -1: no step of such a call pops the queue,
    takes an item or releases a slot, and the buffer after the call is the
    buffer before it.  A call that returns -1 is such a call or has read -1
    at the front of the queue; and where no item overflows [int] no thread of
    the program ever reads -1 there. *)
Theorem consume_timeout_atomic id :
  (forall e b a b' p',
      step_call e b (consume id) = Some (a, b', p') ->
      p' = ConsumeTimeout id ->
      a = ATryAcquireFor SemItems MAX_WAIT_TIME_MS false /\ b' = b)
  /\ (forall e b a b' p',
         step_call e b (ConsumeTimeout id) = Some (a, b', p') ->
         a = APrint (MsgConsumerTimeout id) /\ b' = b
         /\ p' = Returned (Some TIMEOUT_SENTINEL))
  /\ (forall b,
         call_exec [true; false] b (consume id)
         = Some (consume_timeout id, b, Returned (Some TIMEOUT_SENTINEL)))
  /\ (forall acts,
         call_run (consume id) acts (Returned (Some TIMEOUT_SENTINEL)) ->
         AFront TIMEOUT_SENTINEL ∉ acts ->
         acts = consume_timeout id /\ forall b, effects acts b = b)
  /\ (forall cfg t e s a s',
         sys_step cfg t e s = Some (a, s') ->
         a ∈ consume_timeout id ->
         sys_buffer s' = sys_buffer s)
  /\ (forall cfg t e s x s',
         no_overflow cfg -> Reachable cfg s ->
         sys_step cfg t e s = Some (AFront x, s') ->
         x <> TIMEOUT_SENTINEL)
  /\ (forall acts,
         call_run (consume id) acts (Returned (Some TIMEOUT_SENTINEL)) ->
         (acts = consume_timeout id /\ forall b, effects acts b = b)
         \/ (acts = consume_success id TIMEOUT_SENTINEL
             /\ forall b, effects acts b = after_consume b)).
Proof.
  split.
  { intros e b a b' p' H ->. step_inv H. sem_inv. split; reflexivity. }
  split.
  { intros e b a b' p' H. step_inv H. repeat split. }
  split; [reflexivity|].
  split.
  { intros acts H Hnot.
    destruct (consume_run_shape _ _ _ H) as [[-> _]|(item & -> & Hv)].
    - split; reflexivity.
    - inversion Hv; subst. exfalso. apply Hnot.
      unfold consume_success. do 2 apply list_elem_of_further. apply list_elem_of_here. }
  split.
  { intros cfg t e s a s' H Ha.
    rewrite (sys_step_effect _ _ _ _ _ _ H).
    unfold consume_timeout in Ha.
    apply elem_of_cons in Ha. destruct Ha as [->|Ha]; [reflexivity|].
    apply list_elem_of_singleton in Ha. subst. reflexivity. }
  split.
  { intros cfg t e s x s' Hcfg Hr H.
    apply (sys_front_item _ _ _ _ _ _ Hcfg Hr H). }
  intros acts H.
  destruct (consume_run_shape _ _ _ H) as [[-> _]|(item & -> & Hv)].
  - left. split; reflexivity.
  - inversion Hv; subst. right. split; [reflexivity|].
    intros b. apply effects_consume_success.
Qed.

Lemma consume_timeout_atomic_witness :
  call_exec [true; false] (mkBuffer [] 1 2 0) (consume 1)
  = Some ([ATryAcquireFor SemItems 5000 false; APrint (MsgConsumerTimeout 1)],
          mkBuffer [] 1 2 0, Returned (Some (-1))).
Proof.
  destruct (consume_timeout_atomic 1) as (_ & _ & H & _).
  apply (H (mkBuffer [] 1 2 0)).
Defined.

(** ** Order of the semaphore operations *)

Lemma disciplined_produce_waits n id item rest :
  disciplined false (produce_waits n id item ++ rest) = disciplined false rest.
Proof. induction n as [|n IH]; simpl; [reflexivity|exact IH]. Qed.

Lemma step_call_counts_outside e b p a b' p' :
  step_call e b p = Some (a, b', p') -> counts_action a = true ->
  mutex_held p = 0 /\ mutex_held p' = 0.
Proof.
  intros H Ha. destruct p; step_inv H; simpl in Ha; try discriminate;
    split; reflexivity.
Qed.

Lemma step_call_queue_inside e b p a b' p' :
  step_call e b p = Some (a, b', p') -> queue_action a = true ->
  mutex_held p = 1 /\ mutex_held p' = 1.
Proof.
  intros H Ha. destruct p; step_inv H; simpl in Ha; try discriminate;
    split; reflexivity.
Qed.

(** C6: every run of produce(id, item) that returns is the waits and the
    acquired slot, then the lock of the mutex, then the push and its
    message, then the unlock, then the release of [items]; every run of
    consume(id) that returns is the failed wait and its message, with no lock
    at all, or the acquired item, then the lock, then front, pop and message,
    then the unlock, then the release of [spaces].  A step on [spaces] or
    [items] is made by a thread that does not have the mutex before or after
    it, a step on the queue by a thread that has it; and in the running
    program the thread between its lock and its unlock is the only one. *)
Theorem semaphores_outside_lock id item :
  (forall acts v,
      call_run (produce id item) acts (Returned v) ->
      exists n,
        acts = (produce_waits n id item ++ [ATryAcquireFor SemSpaces 500 true])
               ++ AAcquire SemMutex
               :: [APush item; APrint (MsgProduced id item)]
               ++ ARelease SemMutex
               :: [ARelease SemItems])
  /\ (forall acts v,
         call_run (consume id) acts (Returned v) ->
         acts = [ATryAcquireFor SemItems 5000 false; APrint (MsgConsumerTimeout id)]
         \/ exists x,
             acts = [ATryAcquireFor SemItems 5000 true]
                    ++ AAcquire SemMutex
                    :: [AFront x; APop; APrint (MsgConsumed id x)]
                    ++ ARelease SemMutex
                    :: [ARelease SemSpaces])
  /\ (forall p acts v,
         p = produce id item \/ p = consume id ->
         call_run p acts (Returned v) -> disciplined false acts = true)
  /\ (forall e b p a b' p',
         step_call e b p = Some (a, b', p') -> counts_action a = true ->
         mutex_held p = 0 /\ mutex_held p' = 0)
  /\ (forall e b p a b' p',
         step_call e b p = Some (a, b', p') -> queue_action a = true ->
         mutex_held p = 1 /\ mutex_held p' = 1)
  /\ (forall cfg s l1 p l2,
         0 <= capacity cfg -> Reachable cfg s ->
         pcs s = l1 ++ Some p :: l2 -> mutex_held p = 1 ->
         buffer_mutex (sys_buffer s) = 0
         /\ held_sum mutex_held l1 = 0 /\ held_sum mutex_held l2 = 0).
Proof.
  split.
  { intros acts v H. destruct (produce_run_shape _ _ _ _ H) as (n & -> & _).
    exists n. rewrite <- app_assoc. reflexivity. }
  split.
  { intros acts v H. destruct (consume_run_shape _ _ _ H) as [[-> _]|(x & -> & _)].
    - left. reflexivity.
    - right. exists x. reflexivity. }
  split.
  { intros p acts v [->| ->] H.
    - destruct (produce_run_shape _ _ _ _ H) as (n & -> & _).
      rewrite disciplined_produce_waits. reflexivity.
    - destruct (consume_run_shape _ _ _ H) as [[-> _]|(x & -> & _)]; reflexivity. }
  split; [apply step_call_counts_outside|].
  split; [apply step_call_queue_inside|].
  apply sys_mutual_exclusion.
Qed.

Lemma semaphores_outside_lock_witness :
  disciplined false (produce_waits 1 1 100 ++ produce_success 1 100) = true.
Proof.
  destruct (semaphores_outside_lock 1 100) as (_ & _ & H & _).
  apply (H (produce 1 100) (produce_waits 1 1 100 ++ produce_success 1 100) None).
  - left. reflexivity.
  - eapply call_run_app; [apply produce_waits_run|].
    unfold produce_success.
    repeat (eapply (call_run_step false (mkBuffer [] 1 1 0)); [reflexivity|]).
    apply call_run_nil.
Defined.

(** ** main *)

Lemma non_positive_true cfg :
  non_positive cfg = true
  <-> capacity cfg <= 0 \/ N cfg <= 0 \/ NP cfg <= 0 \/ NC cfg <= 0.
Proof.
  unfold non_positive. rewrite !orb_true_iff, !Z.leb_le. tauto.
Qed.

(** C8: with an argument count other than the program name and four
    values, [main] prints the usage message and exits with 1; with four
    values of which one is not positive it prints the error message and
    exits with 1, and in both cases no [Principal] is constructed and nothing
    else is written; when all four are positive and [run] returns, [main]
    exits with 0, and it exits in no other way. *)
Theorem main_exit_status atoi argv sched :
  (argc argv <> 5 ->
   main atoi argv sched = Some (mkOutcome 1 [MsgUsage (arg argv 0)] [] [] None))
  /\ (argc argv = 5 ->
      (capacity (config_of atoi argv) <= 0 \/ N (config_of atoi argv) <= 0
       \/ NP (config_of atoi argv) <= 0 \/ NC (config_of atoi argv) <= 0) ->
      main atoi argv sched = Some (mkOutcome 1 [] [MsgNotPositive] [] None))
  /\ (forall o,
         argc argv = 5 ->
         0 < capacity (config_of atoi argv) -> 0 < N (config_of atoi argv) ->
         0 < NP (config_of atoi argv) -> 0 < NC (config_of atoi argv) ->
         main atoi argv sched = Some o ->
         exit_code o = 0 /\ out_cerr o = []
         /\ exists s,
             out_principal o = Some s
             /\ exec (config_of atoi argv) sched (Principal_new (config_of atoi argv)) = Some s
             /\ sys_main s = RunDone
             /\ out_cout o = cout (sys_sink s) /\ out_log o = logFile (sys_sink s))
  /\ (forall s,
         argc argv = 5 ->
         0 < capacity (config_of atoi argv) -> 0 < N (config_of atoi argv) ->
         0 < NP (config_of atoi argv) -> 0 < NC (config_of atoi argv) ->
         exec (config_of atoi argv) sched (Principal_new (config_of atoi argv)) = Some s ->
         sys_main s = RunDone ->
         main atoi argv sched
         = Some (mkOutcome 0 (cout (sys_sink s)) [] (logFile (sys_sink s)) (Some s))).
Proof.
  unfold main. split; [|split; [|split]].
  - intros Hargc. destruct (argc argv =? 5) eqn:E; [apply Z.eqb_eq in E; contradiction|].
    reflexivity.
  - intros Hargc Hbad. rewrite Hargc. simpl.
    apply non_positive_true in Hbad. rewrite Hbad. reflexivity.
  - intros o Hargc H1 H2 H3 H4. rewrite Hargc. simpl.
    destruct (non_positive (config_of atoi argv)) eqn:E.
    { apply non_positive_true in E. lia. }
    destruct (exec _ sched _) as [s|] eqn:Hexec; [|discriminate].
    destruct (sys_main s) eqn:Hm; try discriminate.
    intros H. inversion H; subst. simpl.
    repeat split. exists s. repeat split. exact Hm.
  - intros s Hargc H1 H2 H3 H4 Hexec Hm. rewrite Hargc. simpl.
    destruct (non_positive (config_of atoi argv)) eqn:E.
    { apply non_positive_true in E. lia. }
    rewrite Hexec, Hm. reflexivity.
Qed.

Lemma main_exit_status_witness :
  main atoi_dec argv_unit sched_unit
  = Some (mkOutcome 0
            [MsgProducerCreated 1; MsgProduced 1 100; MsgProducerDone 1;
             MsgConsumerCreated 1; MsgConsumed 1 100; MsgConsumerDone 1;
             MsgRemainingEmpty]
            []
            [MsgProducerCreated 1; MsgProduced 1 100; MsgProducerDone 1;
             MsgConsumerCreated 1; MsgConsumed 1 100; MsgConsumerDone 1;
             MsgRemainingEmpty]
            (Some (mkSystem (mkBuffer [] 1 1 0)
                            [mkWorker 1 WDone] [mkWorker 1 WDone] RunDone
                            (mkSink
                               [MsgProducerCreated 1; MsgProduced 1 100; MsgProducerDone 1;
                                MsgConsumerCreated 1; MsgConsumed 1 100; MsgConsumerDone 1;
                                MsgRemainingEmpty]
                               [MsgProducerCreated 1; MsgProduced 1 100; MsgProducerDone 1;
                                MsgConsumerCreated 1; MsgConsumed 1 100; MsgConsumerDone 1;
                                MsgRemainingEmpty]))))
  /\ exit_code <$> main atoi_dec argv_unit sched_unit = Some 0
  /\ main atoi_dec [("Proyecto1")%string] sched_unit
     = Some (mkOutcome 1 [MsgUsage "Proyecto1"] [] [] None)
  /\ main atoi_dec ["Proyecto1"; "2"; "3"; "1"; "0"]%string sched_unit
     = Some (mkOutcome 1 [] [MsgNotPositive] [] None).
Proof.
  split.
  { destruct (main_exit_status atoi_dec argv_unit sched_unit) as (_ & _ & _ & H).
    apply (H state_unit_done); reflexivity. }
  split; [|split].
  - destruct (main atoi_dec argv_unit sched_unit) as [o|] eqn:E;
      [|vm_compute in E; discriminate].
    simpl. f_equal.
    destruct (main_exit_status atoi_dec argv_unit sched_unit) as (_ & _ & H & _).
    apply (H o); solve [reflexivity|exact E].
  - destruct (main_exit_status atoi_dec [("Proyecto1")%string] sched_unit) as (H & _).
    apply H. vm_compute. discriminate.
  - destruct (main_exit_status atoi_dec ["Proyecto1"; "2"; "3"; "1"; "0"]%string sched_unit)
      as (_ & H & _).
    apply H; [reflexivity|]. right. right. right. vm_compute. discriminate.
Defined.

(** * Further properties *)

(** ** The consumer loop *)

Lemma consume_calls_cons a acts :
  consume_calls (a :: acts) = consume_calls [a] ++ consume_calls acts.
Proof. unfold consume_calls. simpl. destruct a; reflexivity. Qed.

Lemma step_call_no_consume_call e b p a b' p' :
  step_call e b p = Some (a, b', p') -> consume_calls [a] = [].
Proof. intros H. destruct p; step_inv H; reflexivity. Qed.

Lemma Consumer_step_attempts cfg e b w a b' w' :
  Consumer_step cfg e b w = Some (a, b', w') ->
  wid w' = wid w
  /\ consume_calls [a] ++ attempts_from cfg (wid w) (wst w')
     = attempts_from cfg (wid w) (wst w).
Proof.
  unfold Consumer_step. destruct (wst w) as [|i|i p| |] eqn:Hst; intros H.
  - inversion H; subst; simpl. split; [reflexivity|]. do 2 f_equal. lia.
  - destruct (i <? N cfg) eqn:Hlt; inversion H; subst; simpl.
    + apply Z.ltb_lt in Hlt. split; [reflexivity|].
      replace (Z.to_nat (N cfg - i)) with (S (Z.to_nat (N cfg - (i + 1)))) by lia.
      reflexivity.
    + apply Z.ltb_ge in Hlt. split; [reflexivity|].
      replace (Z.to_nat (N cfg - i)) with O by lia. reflexivity.
  - assert (Hcall : match step_call e b p with
                    | Some (a, b', p') => Some (a, b', mkWorker (wid w) (WCall i p'))
                    | None => None
                    end = Some (a, b', w') ->
                    wid w' = wid w
                    /\ consume_calls [a] ++ attempts_from cfg (wid w) (wst w')
                       = attempts_from cfg (wid w) (WCall i p)).
    { destruct (step_call e b p) as [[[a0 b0] p0]|] eqn:Hs; [|discriminate].
      intros H'. inversion H'; subst.
      rewrite (step_call_no_consume_call _ _ _ _ _ _ Hs). simpl. auto. }
    destruct p; try (apply Hcall; exact H).
    destruct v as [item|]; [|discriminate].
    destruct (negb (item =? -1)); inversion H; subst; simpl; auto.
  - inversion H; subst; simpl. auto.
  - discriminate.
Qed.

Lemma Consumer_run_attempts cfg w acts w' :
  worker_run (Consumer_step cfg) w acts w' ->
  wid w' = wid w
  /\ consume_calls acts ++ attempts_from cfg (wid w) (wst w')
     = attempts_from cfg (wid w) (wst w).
Proof.
  induction 1 as [w|e b w a b' w' acts w'' Hstep Hrun IH]; [auto|].
  destruct (Consumer_step_attempts _ _ _ _ _ _ _ Hstep) as [Hid Hc].
  destruct IH as [Hid' IH]. rewrite Hid in *. split; [congruence|].
  rewrite consume_calls_cons, <- app_assoc, IH. exact Hc.
Qed.

Lemma starved_loop_runs cfg id (n : nat) i :
  N cfg - i = Z.of_nat n ->
  worker_run (Consumer_step cfg) (mkWorker id (WLoop i))
             (starved_attempts n id ++ [ALocal; APrint (MsgConsumerDone id)])
             (mkWorker id WDone).
Proof.
  revert i. induction n as [|n IH]; intros i Hn; simpl.
  - eapply (worker_run_step _ true (Buffer_new 0)).
    { unfold Consumer_step. simpl.
      destruct (i <? N cfg) eqn:E; [apply Z.ltb_lt in E; lia|reflexivity]. }
    eapply (worker_run_step _ true (Buffer_new 0)); [reflexivity|]. apply worker_run_nil.
  - eapply (worker_run_step _ true (Buffer_new 0)).
    { unfold Consumer_step. simpl.
      destruct (i <? N cfg) eqn:E; [reflexivity|apply Z.ltb_ge in E; lia]. }
    eapply (worker_run_step _ true (Buffer_new 0)); [reflexivity|].
    eapply (worker_run_step _ true (Buffer_new 0)); [reflexivity|].
    eapply (worker_run_step _ true (Buffer_new 0)); [reflexivity|].
    apply IH. lia.
Qed.

Lemma starved_attempts_no_queue n id :
  Forall (fun a => queue_action a = false /\ counts_action a = negb (own_action a))
         (starved_attempts n id).
Proof.
  induction n as [|n IH]; simpl; [apply Forall_nil_2|].
  repeat (apply Forall_cons; split; [split; reflexivity|]). exact IH.
Qed.

(** X1: every run of Consumer::operator() to its end calls [consume]
    exactly N times, whatever the calls return; and a consumer all of whose
    waits run out does run to its end, after N timeout diagnostics and
    without a step on the queue. *)
Theorem Consumer_attempts cfg id :
  0 <= N cfg ->
  (forall acts,
      worker_run (Consumer_step cfg) (mkWorker id WStart) acts (mkWorker id WDone) ->
      consume_calls acts = replicate (Z.to_nat (N cfg)) id)
  /\ worker_run (Consumer_step cfg) (mkWorker id WStart)
                (starved_run (Z.to_nat (N cfg)) id) (mkWorker id WDone)
  /\ Forall (fun a => queue_action a = false) (starved_run (Z.to_nat (N cfg)) id).
Proof.
  intros HN. split; [|split].
  - intros acts H. apply Consumer_run_attempts in H. destruct H as [_ H].
    simpl in H. rewrite app_nil_r in H. exact H.
  - unfold starved_run.
    eapply (worker_run_step _ true (Buffer_new 0)); [reflexivity|].
    apply starved_loop_runs. lia.
  - unfold starved_run. apply Forall_cons. split; [reflexivity|].
    apply Forall_app. split.
    + eapply Forall_impl; [apply starved_attempts_no_queue|]. intros a [H _]. exact H.
    + repeat (apply Forall_cons; split; [reflexivity|]). apply Forall_nil_2.
Qed.

Lemma Consumer_attempts_witness :
  worker_run (Consumer_step (mkConfig 2 2 1 1)) (mkWorker 1 WStart)
             (starved_run 2 1) (mkWorker 1 WDone)
  /\ consume_calls (starved_run 2 1) = [1; 1].
Proof.
  destruct (Consumer_attempts (mkConfig 2 2 1 1) 1) as (Hc & Hr & _); [simpl; lia|].
  split; [exact Hr|]. apply (Hc _ Hr).
Defined.

(** ** Calls run one after the other *)

Lemma produce_all_spec id xs b :
  Z.of_nat (length xs) <= spaces b -> 0 < buffer_mutex b ->
  produce_all id xs b
  = Some (mkBuffer (buffer b ++ xs) (buffer_mutex b)
                   (spaces b - Z.of_nat (length xs)) (items b + Z.of_nat (length xs))).
Proof.
  revert b. induction xs as [|x xs IH]; intros b Hsp Hm.
  - destruct b as [q m sp it]. simpl. rewrite app_nil_r. do 2 f_equal; lia.
  - cbn [produce_all]. simpl length in Hsp.
    rewrite call_exec_produce_success by lia.
    rewrite IH by (unfold after_produce; simpl; lia).
    unfold after_produce. simpl. rewrite <- app_assoc. simpl. do 2 f_equal; lia.
Qed.

Lemma consume_all_spec id xs rest m sp it :
  Z.of_nat (length xs) <= it -> 0 < m ->
  consume_all id (length xs) (mkBuffer (xs ++ rest) m sp it)
  = Some (xs, mkBuffer rest m (sp + Z.of_nat (length xs)) (it - Z.of_nat (length xs))).
Proof.
  revert sp it. induction xs as [|x xs IH]; intros sp it Hit Hm.
  - simpl. do 3 f_equal; lia.
  - cbn [length consume_all app]. simpl length in Hit.
    rewrite call_exec_consume_success by lia.
    rewrite IH by lia. do 3 f_equal; lia.
Qed.

(** X2: on a new buffer with room for them, producing the items [xs] one
    call after the other and then consuming as many returns exactly [xs], in
    the order produced, and leaves the buffer as new. *)
Theorem produce_consume_round_trip cap pid cid xs :
  Z.of_nat (length xs) <= cap ->
  exists b,
    produce_all pid xs (Buffer_new cap) = Some b
    /\ buffer b = xs
    /\ spaces b + queued_items b = cap
    /\ consume_all cid (length xs) b = Some (xs, Buffer_new cap).
Proof.
  intros Hcap. eexists. split.
  { apply produce_all_spec; simpl; lia. }
  simpl. split; [reflexivity|]. split; [unfold queued_items; simpl; lia|].
  rewrite <- (app_nil_r xs) at 2.
  rewrite consume_all_spec by lia.
  unfold Buffer_new. do 3 f_equal; lia.
Qed.

Lemma produce_consume_round_trip_witness :
  exists b,
    produce_all 1 [100; 101; 102] (Buffer_new 3) = Some b
    /\ consume_all 1 3 b = Some ([100; 101; 102], Buffer_new 3).
Proof.
  destruct (produce_consume_round_trip 3 1 1 [100; 101; 102]) as (b & H1 & _ & _ & H2);
    [simpl; lia|].
  exists b. split; [exact H1|exact H2].
Defined.

(** X3: while the buffer is full ([spaces] is 0) and no other thread
    moves, a call of [produce] never returns and never changes the buffer:
    it is at its wait or at the diagnostic of a failed wait, every action so
    far is a failed wait or its diagnostic, and unless the wait runs out the
    call cannot move at all. *)
Theorem produce_on_full_buffer id item b :
  spaces b = 0 ->
  step_call false b (produce id item) = None
  /\ (forall es acts b' p',
         call_exec es b (produce id item) = Some (acts, b', p') ->
         b' = b
         /\ (p' = ProduceTry id item \/ p' = ProduceNotify id item)
         /\ Forall (fun a => a = ATryAcquireFor SemSpaces PRODUCER_RETRY_DELAY_MS false
                             \/ a = APrint (MsgProducerWait id item)) acts).
Proof.
  intros Hsp. split.
  { simpl. unfold sem_try_acquire_for. rewrite Hsp. reflexivity. }
  assert (Hgen : forall es p acts b' p',
             p = ProduceTry id item \/ p = ProduceNotify id item ->
             call_exec es b p = Some (acts, b', p') ->
             b' = b
             /\ (p' = ProduceTry id item \/ p' = ProduceNotify id item)
             /\ Forall (fun a => a = ATryAcquireFor SemSpaces PRODUCER_RETRY_DELAY_MS false
                                 \/ a = APrint (MsgProducerWait id item)) acts).
  { induction es as [|e es IH]; intros p acts b' p' Hp H.
    - simpl in H. inversion H; subst. repeat split; auto using Forall_nil_2.
    - cbn [call_exec] in H.
      destruct (step_call e b p) as [[[a0 b0] p0]|] eqn:Hs; [|discriminate].
      destruct (call_exec es b0 p0) as [[[acts0 b1] p1]|] eqn:Hrec; [|discriminate].
      inversion H; subst.
      destruct Hp as [-> | ->].
      + simpl in Hs. unfold sem_try_acquire_for in Hs. rewrite Hsp in Hs.
        destruct e; [|discriminate]. inversion Hs; subst.
        destruct (IH _ _ _ _ (or_intror eq_refl) Hrec) as (-> & Hp' & Hall).
        split; [reflexivity|]. split; [exact Hp'|].
        apply Forall_cons. split; [left; reflexivity|exact Hall].
      + simpl in Hs. inversion Hs; subst.
        destruct (IH _ _ _ _ (or_introl eq_refl) Hrec) as (-> & Hp' & Hall).
        split; [reflexivity|]. split; [exact Hp'|].
        apply Forall_cons. split; [right; reflexivity|exact Hall]. }
  intros es acts b' p'. apply Hgen. left. reflexivity.
Qed.

Lemma produce_on_full_buffer_witness :
  step_call false (mkBuffer [100] 1 0 1) (produce 2 200) = None.
Proof.
  destruct (produce_on_full_buffer 2 200 (mkBuffer [100] 1 0 1)) as [H _];
    [reflexivity|exact H].
Defined.

(** X4: while no item is available ([items] is 0) and no other thread
    moves, a call of [consume] cannot move unless its wait runs out, and then
    it returns -1; whatever it does, the buffer stays as it is and nothing but
    the failed wait and the timeout diagnostic happens. *)
Theorem consume_on_empty_buffer id b :
  items b = 0 ->
  step_call false b (consume id) = None
  /\ (forall es acts b' p',
         call_exec es b (consume id) = Some (acts, b', p') ->
         b' = b
         /\ (forall v, p' = Returned v -> v = Some TIMEOUT_SENTINEL)
         /\ exists n, acts = take n (consume_timeout id)).
Proof.
  intros Hit. split.
  { simpl. unfold sem_try_acquire_for. rewrite Hit. reflexivity. }
  intros es acts b' p' H.
  destruct es as [|e es]; simpl in H.
  { inversion H; subst. repeat split; [discriminate|exists O; reflexivity]. }
  unfold sem_try_acquire_for in H. rewrite Hit in H.
  destruct e; [|discriminate]. simpl in H.
  destruct es as [|e es]; simpl in H.
  { inversion H; subst. repeat split; [discriminate|exists 1%nat; reflexivity]. }
  destruct es as [|e' es]; simpl in H; [|discriminate].
  inversion H; subst. repeat split.
  - intros v Hv. inversion Hv. reflexivity.
  - exists 2%nat. reflexivity.
Qed.

Lemma consume_on_empty_buffer_witness :
  step_call false (Buffer_new 2) (consume 1) = None.
Proof.
  destruct (consume_on_empty_buffer 1 (Buffer_new 2)) as [H _]; [reflexivity|exact H].
Defined.

(** ** The threads of Principal::run *)

Lemma step_call_produce_pc id e b p a b' p' :
  step_call e b p = Some (a, b', p') -> produce_pc id p -> produce_pc id p'.
Proof.
  intros H Hp. destruct p; simpl in Hp; try contradiction;
    step_inv H; simpl; auto.
Qed.

Lemma step_call_consume_pc id e b p a b' p' :
  step_call e b p = Some (a, b', p') -> consume_pc id p -> consume_pc id p'.
Proof.
  intros H Hp. destruct p; simpl in Hp; try contradiction;
    step_inv H; simpl; auto.
Qed.

Lemma Producer_step_role cfg e b w a b' w' :
  Producer_step cfg e b w = Some (a, b', w') ->
  worker_role produce_pc w ->
  wid w' = wid w /\ is_done w = false /\ worker_role produce_pc w'.
Proof.
  unfold Producer_step, worker_role, is_done. intros H Hr.
  destruct (wst w) as [|i|i p| |].
  - inversion H; subst; simpl; auto.
  - destruct (i <? N cfg); inversion H; subst; simpl; auto.
  - assert (Hcall : match step_call e b p with
                    | Some (a, b', p') => Some (a, b', mkWorker (wid w) (WCall i p'))
                    | None => None
                    end = Some (a, b', w') ->
                    wid w' = wid w /\ false = false
                    /\ match wst w' with WCall _ p0 => produce_pc (wid w') p0 | _ => True end).
    { destruct (step_call e b p) as [[[a0 b0] p0]|] eqn:Hs; [|discriminate].
      intros H'. inversion H'; subst. simpl.
      repeat split. eapply step_call_produce_pc; eauto. }
    destruct p; try (apply Hcall; exact H).
    inversion H; subst; simpl; auto.
  - inversion H; subst; simpl; auto.
  - discriminate.
Qed.

Lemma Consumer_step_role cfg e b w a b' w' :
  Consumer_step cfg e b w = Some (a, b', w') ->
  worker_role consume_pc w ->
  wid w' = wid w /\ is_done w = false /\ worker_role consume_pc w'.
Proof.
  unfold Consumer_step, worker_role, is_done. intros H Hr.
  destruct (wst w) as [|i|i p| |].
  - inversion H; subst; simpl; auto.
  - destruct (i <? N cfg); inversion H; subst; simpl; auto.
  - assert (Hcall : match step_call e b p with
                    | Some (a, b', p') => Some (a, b', mkWorker (wid w) (WCall i p'))
                    | None => None
                    end = Some (a, b', w') ->
                    wid w' = wid w /\ false = false
                    /\ match wst w' with WCall _ p0 => consume_pc (wid w') p0 | _ => True end).
    { destruct (step_call e b p) as [[[a0 b0] p0]|] eqn:Hs; [|discriminate].
      intros H'. inversion H'; subst. simpl.
      repeat split. eapply step_call_consume_pc; eauto. }
    destruct p; try (apply Hcall; exact H).
    destruct v as [item|]; [|discriminate].
    destruct (negb (item =? -1)); inversion H; subst; simpl; auto.
  - inversion H; subst; simpl; auto.
  - discriminate.
Qed.

Lemma numbered_insert ws n w w' :
  ws !! n = Some w -> wid w' = wid w -> numbered ws -> numbered (<[n := w']> ws).
Proof.
  intros Hw Hid Hnum m x Hx.
  destruct (decide (m = n)) as [->|Hne].
  - rewrite list_lookup_insert_eq in Hx by (eapply lookup_lt_Some; exact Hw).
    inversion Hx; subst. rewrite Hid. apply (Hnum n w Hw).
  - rewrite list_lookup_insert_ne in Hx by congruence. apply (Hnum m x Hx).
Qed.

Lemma numbered_snoc ws id :
  id = Z.of_nat (length ws) + 1 -> numbered ws -> numbered (ws ++ [mkWorker id WStart]).
Proof.
  intros Hid Hnum m x Hx.
  apply lookup_app_Some in Hx. destruct Hx as [Hx|[Hlen Hx]].
  - apply (Hnum m x Hx).
  - destruct (m - length ws)%nat as [|k] eqn:Hk; simpl in Hx; [|discriminate].
    inversion Hx; subst. simpl. lia.
Qed.

Lemma done_upto_insert k ws n w w' :
  ws !! n = Some w -> is_done w = false -> done_upto k ws -> done_upto k (<[n := w']> ws).
Proof.
  intros Hw Hnd Hd m x Hm Hx.
  destruct (decide (m = n)) as [->|Hne].
  - rewrite (Hd n w Hm Hw) in Hnd. discriminate.
  - rewrite list_lookup_insert_ne in Hx by congruence. apply (Hd m x Hm Hx).
Qed.

Lemma all_done_stuck ws n w : ws !! n = Some w -> is_done w = false -> ~ all_done ws.
Proof. intros Hw Hnd Hd. rewrite (Hd n w Hw) in Hnd. discriminate. Qed.

Lemma spawned_insert k ws n (w' : Worker) : spawned k ws -> spawned k (<[n := w']> ws).
Proof. unfold spawned. rewrite length_insert. auto. Qed.

Lemma done_upto_all ws k : done_upto k ws -> ws !! k = None -> all_done ws.
Proof.
  intros Hd Hk n w Hw. apply (Hd n w); [|exact Hw].
  apply lookup_ge_None in Hk. apply lookup_lt_Some in Hw. lia.
Qed.

Lemma done_upto_S ws k w :
  done_upto k ws -> ws !! k = Some w -> is_done w = true -> done_upto (S k) ws.
Proof.
  intros Hd Hk Hw n x Hn Hx.
  destruct (decide (n = k)) as [->|Hne].
  - rewrite Hk in Hx. inversion Hx; subst. exact Hw.
  - apply (Hd n x); [lia|exact Hx].
Qed.

Lemma phase_ok_worker cfg m ps cs ps' cs' q q' log log' :
  phase_ok cfg m ps cs q log ->
  length ps' = length ps -> length cs' = length cs ->
  (cs = [] -> cs' = []) ->
  (forall k, done_upto k ps -> done_upto k ps') ->
  (forall k, done_upto k cs -> done_upto k cs') ->
  ~ (all_done ps /\ all_done cs) ->
  (all_done ps -> all_done ps') ->
  phase_ok cfg m ps' cs' q' log'.
Proof.
  unfold spawned. intros Hph Hlp Hlc Hnil Hdp Hdc Hnot Hap.
  destruct m as [i|i|j|j|p|]; simpl in *; unfold spawned in *; rewrite ?Hlp, ?Hlc.
  - destruct Hph as (? & ? & ?). auto.
  - tauto.
  - destruct Hph as (? & ? & ?). auto.
  - destruct Hph as (? & ? & ? & ?). auto.
  - exfalso. tauto.
  - exfalso. tauto.
Qed.

Lemma Run_inv_step cfg t e s a s' :
  Run_inv cfg s -> sys_step cfg t e s = Some (a, s') -> Run_inv cfg s'.
Proof.
  intros [Hpi Hci Hpr Hcr Hph]. destruct s as [b ps cs m k]. simpl in *.
  destruct t as [|n|n]; simpl.
  - (* main *)
    unfold Principal_step. simpl. destruct m as [i|i|j|j|p|]; simpl in Hph.
    + destruct Hph as (Hi & Hle & Hcs).
      destruct (i <? NP cfg) eqn:E; intros H; inversion H; subst; constructor; simpl; auto.
      * apply numbered_snoc; [lia|exact Hpi].
      * apply Forall_app. split; [exact Hpr|].
        apply Forall_cons. split; [exact I|apply Forall_nil_2].
      * apply Z.ltb_lt in E. rewrite length_app. simpl. repeat split; lia.
      * apply Z.ltb_ge in E. unfold spawned. simpl. repeat split; lia.
    + destruct Hph as (Hsp & Hi & Hle).
      destruct (i <? NC cfg) eqn:E; intros H; inversion H; subst; constructor; simpl; auto.
      * apply numbered_snoc; [lia|exact Hci].
      * apply Forall_app. split; [exact Hcr|].
        apply Forall_cons. split; [exact I|apply Forall_nil_2].
      * apply Z.ltb_lt in E. rewrite length_app. simpl. repeat split; auto; lia.
      * apply Z.ltb_ge in E. unfold spawned. repeat split; auto; try lia.
        intros x w Hx. lia.
    + destruct Hph as (Hsp & Hsc & Hd).
      destruct (ps !! j) as [w|] eqn:Hw; [destruct (is_done w) eqn:Hdone|];
        intros H; inversion H; subst; constructor; simpl; auto.
      * repeat split; auto. eapply done_upto_S; eauto.
      * repeat split; auto; [eapply done_upto_all; eauto|].
        intros x w Hx. lia.
    + destruct Hph as (Hsp & Hsc & Hap & Hd).
      destruct (cs !! j) as [w|] eqn:Hw; [destruct (is_done w) eqn:Hdone|];
        intros H; inversion H; subst; constructor; simpl; auto.
      * repeat split; auto. eapply done_upto_S; eauto.
      * repeat split; auto; [eapply done_upto_all; eauto|contradiction].
    + destruct Hph as (Hsp & Hsc & Hap & Hac & Hshow & Hlog).
      destruct p; simpl in Hshow; try contradiction.
      * (* lock *)
        simpl. destruct (sem_acquire (buffer_mutex b)) as [c|]; [|discriminate].
        intros H; inversion H; subst; constructor; simpl; auto.
        repeat split; auto; contradiction.
      * (* print *)
        simpl. intros H; inversion H; subst; constructor; simpl; auto.
        repeat split; auto; intros _; apply last_snoc.
      * (* unlock *)
        simpl. intros H; inversion H; subst; constructor; simpl; auto.
        repeat split; auto.
      * (* returned *)
        destruct v; [contradiction|].
        intros H; inversion H; subst; constructor; simpl; auto.
        repeat split; auto.
    + discriminate.
  - (* a producer *)
    destruct (ps !! n) as [w|] eqn:Hw; [|discriminate].
    destruct (Producer_step cfg e b w) as [[[a0 b0] w0]|] eqn:Hs; [|discriminate].
    intros H. inversion H; subst.
    assert (Hrole : worker_role produce_pc w).
    { rewrite Forall_lookup in Hpr. exact (Hpr n w Hw). }
    destruct (Producer_step_role _ _ _ _ _ _ _ Hs Hrole) as (Hid & Hnd & Hrole').
    constructor; simpl; auto.
    + eapply numbered_insert; eauto.
    + apply Forall_insert; assumption.
    + eapply phase_ok_worker; [exact Hph|..]; auto.
      * apply length_insert.
      * intros j. eapply done_upto_insert; eauto.
      * intros [Hap _]. eapply all_done_stuck; eauto.
      * intros Hap. exfalso. eapply all_done_stuck; eauto.
  - (* a consumer *)
    destruct (cs !! n) as [w|] eqn:Hw; [|discriminate].
    destruct (Consumer_step cfg e b w) as [[[a0 b0] w0]|] eqn:Hs; [|discriminate].
    intros H. inversion H; subst.
    assert (Hrole : worker_role consume_pc w).
    { rewrite Forall_lookup in Hcr. exact (Hcr n w Hw). }
    destruct (Consumer_step_role _ _ _ _ _ _ _ Hs Hrole) as (Hid & Hnd & Hrole').
    constructor; simpl; auto.
    + eapply numbered_insert; eauto.
    + apply Forall_insert; assumption.
    + eapply phase_ok_worker; [exact Hph|..]; auto.
      * apply length_insert.
      * intros ->. rewrite lookup_nil in Hw. discriminate.
      * intros j. eapply done_upto_insert; eauto.
      * intros [_ Hac]. eapply all_done_stuck; eauto.
Qed.

Lemma Run_inv_init cfg : Run_inv cfg (Principal_new cfg).
Proof.
  constructor; simpl; auto using Forall_nil_2.
  - intros n w H. rewrite lookup_nil in H. discriminate.
  - intros n w H. rewrite lookup_nil in H. discriminate.
  - repeat split; lia.
Qed.

Lemma Reachable_Run_inv cfg s : Reachable cfg s -> Run_inv cfg s.
Proof.
  intros [sched H]. pose proof (Run_inv_init cfg) as HI.
  revert H HI. generalize (Principal_new cfg).
  induction sched as [|[t e] sched IH]; intros s0 H HI; simpl in H.
  - inversion H; subst. exact HI.
  - destruct (sys_step cfg t e s0) as [[a s1]|] eqn:Hs; [|discriminate].
    eapply IH; [exact H|]. eapply Run_inv_step; eauto.
Qed.

(** X5: in every reachable state the producer and the consumer at
    position n of their vectors have id n+1; there are at most NP producers
    and NC consumers; a consumer exists only once all NP producers do; and
    once [run] is at [showRemainingItems] or past it, all NP producers and NC
    consumers exist and every one of them has ended. *)
Theorem run_threads cfg s :
  Reachable cfg s ->
  numbered (producers s) /\ numbered (consumers s)
  /\ Z.of_nat (length (producers s)) <= Z.max 0 (NP cfg)
  /\ Z.of_nat (length (consumers s)) <= Z.max 0 (NC cfg)
  /\ (consumers s <> [] -> spawned (NP cfg) (producers s))
  /\ (main_pc (sys_main s) <> None \/ sys_main s = RunDone ->
      spawned (NP cfg) (producers s) /\ spawned (NC cfg) (consumers s)
      /\ all_done (producers s) /\ all_done (consumers s)).
Proof.
  intros Hr. destruct (Reachable_Run_inv cfg s Hr) as [Hpi Hci _ _ Hph].
  split; [exact Hpi|]. split; [exact Hci|].
  destruct (sys_main s) as [i|i|j|j|p|]; simpl in Hph; unfold spawned in *.
  - destruct Hph as (Hi & Hle & Hcs). rewrite Hcs. simpl.
    split; [lia|]. split; [lia|]. split; [congruence|].
    intros [Hx|Hx]; congruence.
  - destruct Hph as (Hp & Hi & Hle).
    split; [lia|]. split; [lia|]. split; [intros _; exact Hp|].
    intros [Hx|Hx]; simpl in Hx; congruence.
  - destruct Hph as (Hp & Hc & _).
    split; [lia|]. split; [lia|]. split; [intros _; exact Hp|].
    intros [Hx|Hx]; simpl in Hx; congruence.
  - destruct Hph as (Hp & Hc & _).
    split; [lia|]. split; [lia|]. split; [intros _; exact Hp|].
    intros [Hx|Hx]; simpl in Hx; congruence.
  - destruct Hph as (Hp & Hc & Hap & Hac & _).
    split; [lia|]. split; [lia|]. split; [intros _; exact Hp|].
    intros _. auto.
  - destruct Hph as (Hp & Hc & Hap & Hac & _).
    split; [lia|]. split; [lia|]. split; [intros _; exact Hp|].
    intros _. auto.
Qed.

Lemma run_threads_witness :
  numbered (producers state_slot_acquired)
  /\ Z.of_nat (length (producers state_slot_acquired)) <= Z.max 0 (NP cfg_unit).
Proof.
  destruct (run_threads cfg_unit state_slot_acquired) as (H1 & _ & H3 & _).
  - exists sched_slot_acquired. reflexivity.
  - split; [exact H1|exact H3].
Defined.

Lemma all_done_pcs f ws : all_done ws -> held_sum f (worker_pc <$> ws) = 0.
Proof.
  induction ws as [|w ws IH]; intros Hd; [reflexivity|].
  rewrite fmap_cons.
  change (held_sum f (worker_pc w :: (worker_pc <$> ws)))
    with (held f (worker_pc w) + held_sum f (worker_pc <$> ws)).
  rewrite IH by (intros n x Hx; apply (Hd (S n) x Hx)).
  pose proof (Hd O w eq_refl) as Hw. unfold is_done, worker_pc in *.
  destruct (wst w); try discriminate. reflexivity.
Qed.

(** X6: when [run] has returned, every thread has ended, the mutex is
    free, the free slots plus the queued items are exactly the capacity, the
    counter [items] is exactly the number of queued items, and the last
    message written is the one listing the items left in the queue. *)
Theorem run_final_state cfg s :
  0 <= capacity cfg -> Reachable cfg s -> sys_main s = RunDone ->
  all_done (producers s) /\ all_done (consumers s)
  /\ buffer_mutex (sys_buffer s) = 1
  /\ spaces (sys_buffer s) + queued_items (sys_buffer s) = capacity cfg
  /\ items (sys_buffer s) = queued_items (sys_buffer s)
  /\ exists m, last (logFile (sys_sink s)) = Some m
               /\ snapshot_of m = Some (buffer (sys_buffer s)).
Proof.
  intros Hc Hr Hm.
  destruct (Reachable_Run_inv cfg s Hr) as [_ _ _ _ Hph].
  destruct (Reachable_Inv cfg s Hc Hr) as [_ _ _ Hslots Hqueue Hlock _].
  rewrite Hm in Hph. simpl in Hph. destruct Hph as (_ & _ & Hap & Hac & Hlog).
  assert (Hz : forall f, held_sum f (pcs s) = 0).
  { intros f. unfold pcs. rewrite !held_sum_app, !all_done_pcs by assumption.
    rewrite Hm. reflexivity. }
  rewrite Hz in Hslots, Hqueue, Hlock.
  repeat split; auto; try lia.
  eexists. split; [exact Hlog|apply snapshot_remaining].
Qed.

Lemma run_final_state_witness :
  exists s,
    exec cfg_unit sched_unit (Principal_new cfg_unit) = Some s
    /\ spaces (sys_buffer s) + queued_items (sys_buffer s) = 1
    /\ last (logFile (sys_sink s)) = Some MsgRemainingEmpty.
Proof.
  destruct (exec cfg_unit sched_unit (Principal_new cfg_unit)) as [s|] eqn:E;
    [|vm_compute in E; discriminate].
  exists s. split; [reflexivity|].
  assert (Hm : sys_main s = RunDone) by (vm_compute in E; inversion E; reflexivity).
  destruct (run_final_state cfg_unit s) as (_ & _ & _ & H & _);
    [simpl; lia|exists sched_unit; exact E|exact Hm|].
  split; [exact H|].
  vm_compute in E. inversion E. reflexivity.
Defined.

(** ** What the log records *)

Lemma exec_invariant cfg (P : System -> Prop) :
  (forall t e s a s', P s -> sys_step cfg t e s = Some (a, s') -> P s') ->
  forall sched s s', P s -> exec cfg sched s = Some s' -> P s'.
Proof.
  intros Hstep. induction sched as [|[t e] sched IH]; intros s s' HP H; simpl in H.
  - inversion H; subst. exact HP.
  - destruct (sys_step cfg t e s) as [[a s1]|] eqn:Hs; [|discriminate].
    eapply IH; [|exact H]. eapply Hstep; eauto.
Qed.

Lemma logFile_emit a k : logFile (emit a k) = logFile k ++ message_of a.
Proof. destruct a; simpl; rewrite ?app_nil_r; reflexivity. Qed.

Lemma cout_emit a k : cout (emit a k) = cout k ++ message_of a.
Proof. destruct a; simpl; rewrite ?app_nil_r; reflexivity. Qed.

(** Every step writes its message, and nothing else, to the sink. *)
Lemma sys_step_sink cfg t e s a s' :
  sys_step cfg t e s = Some (a, s') -> sys_sink s' = emit a (sys_sink s).
Proof.
  destruct s as [b ps cs m k]. destruct t as [|n|n]; simpl.
  - unfold Principal_step. simpl. destruct m as [i|i|j|j|p|].
    + destruct (i <? NP cfg); intros H; inversion H; reflexivity.
    + destruct (i <? NC cfg); intros H; inversion H; reflexivity.
    + destruct (ps !! j) as [w|]; [destruct (is_done w)|];
        intros H; inversion H; reflexivity.
    + destruct (cs !! j) as [w|]; [destruct (is_done w)|];
        intros H; inversion H; reflexivity.
    + assert (Hcall : match step_call e b p with
                      | Some (a, b', p') =>
                          Some (a, mkSystem b' ps cs (RunShow p') (emit a k))
                      | None => None
                      end = Some (a, s') -> sys_sink s' = emit a k).
      { destruct (step_call e b p) as [[[a0 b0] p0]|]; [|discriminate].
        intros H. inversion H; reflexivity. }
      destruct p; try exact Hcall.
      intros H; inversion H; reflexivity.
    + discriminate.
  - destruct (ps !! n) as [w|]; [|discriminate].
    destruct (Producer_step cfg e b w) as [[[a0 b0] w0]|]; [|discriminate].
    intros H. inversion H; reflexivity.
  - destruct (cs !! n) as [w|]; [|discriminate].
    destruct (Consumer_step cfg e b w) as [[[a0 b0] w0]|]; [|discriminate].
    intros H. inversion H; reflexivity.
Qed.

(** X7: the console and the log file always hold the same messages, in
    the same order. *)
Theorem cout_is_logFile cfg s :
  Reachable cfg s -> cout (sys_sink s) = logFile (sys_sink s).
Proof.
  intros [sched H]. revert H.
  apply (exec_invariant cfg (fun s => cout (sys_sink s) = logFile (sys_sink s)));
    [|reflexivity].
  intros t e s0 a s1 HP Hs. simpl in *.
  rewrite (sys_step_sink _ _ _ _ _ _ Hs), cout_emit, logFile_emit, HP. reflexivity.
Qed.

Lemma cout_is_logFile_witness :
  cout (sys_sink state_slot_acquired) = logFile (sys_sink state_slot_acquired).
Proof.
  apply (cout_is_logFile cfg_unit). exists sched_slot_acquired. reflexivity.
Defined.

Lemma Producer_step_cases cfg e b w a b' w' :
  Producer_step cfg e b w = Some (a, b', w') ->
  (exists p p', worker_pc w = Some p /\ worker_pc w' = Some p'
                /\ step_call e b p = Some (a, b', p'))
  \/ (driver_action a = true /\ b' = b
      /\ quiet (worker_pc w) /\ quiet (worker_pc w')).
Proof.
  unfold Producer_step, worker_pc. destruct (wst w) as [|i|i p| |]; intros H.
  - inversion H; subst. right. repeat split.
  - destruct (i <? N cfg); inversion H; subst; right; repeat split.
  - assert (Hcall : match step_call e b p with
                    | Some (a, b', p') => Some (a, b', mkWorker (wid w) (WCall i p'))
                    | None => None
                    end = Some (a, b', w') ->
                    exists p0 p', Some p = Some p0
                                  /\ match wst w' with WCall _ p1 => Some p1 | _ => None end
                                     = Some p'
                                  /\ step_call e b p0 = Some (a, b', p')).
    { destruct (step_call e b p) as [[[a0 b0] p0]|] eqn:Hs; [|discriminate].
      intros H'. inversion H'; subst. simpl. eauto. }
    destruct p; try (left; apply Hcall; exact H).
    inversion H; subst. right. repeat split.
  - inversion H; subst. right. repeat split.
  - discriminate.
Qed.

Lemma Consumer_step_cases cfg e b w a b' w' :
  Consumer_step cfg e b w = Some (a, b', w') ->
  (exists p p', worker_pc w = Some p /\ worker_pc w' = Some p'
                /\ step_call e b p = Some (a, b', p'))
  \/ (driver_action a = true /\ b' = b
      /\ quiet (worker_pc w) /\ quiet (worker_pc w')).
Proof.
  unfold Consumer_step, worker_pc. destruct (wst w) as [|i|i p| |]; intros H.
  - inversion H; subst. right. repeat split.
  - destruct (i <? N cfg); inversion H; subst; right; repeat split.
  - assert (Hcall : match step_call e b p with
                    | Some (a, b', p') => Some (a, b', mkWorker (wid w) (WCall i p'))
                    | None => None
                    end = Some (a, b', w') ->
                    exists p0 p', Some p = Some p0
                                  /\ match wst w' with WCall _ p1 => Some p1 | _ => None end
                                     = Some p'
                                  /\ step_call e b p0 = Some (a, b', p')).
    { destruct (step_call e b p) as [[[a0 b0] p0]|] eqn:Hs; [|discriminate].
      intros H'. inversion H'; subst. simpl. eauto. }
    destruct p; try (left; apply Hcall; exact H).
    destruct v as [item|]; [|discriminate].
    destruct (negb (item =? -1)); inversion H; subst; right; repeat split.
  - inversion H; subst. right. repeat split.
  - discriminate.
Qed.

(** Every step of the system is a step of a call by the thread at some
    program point, or a step of a loop or of [run] that leaves the buffer
    alone and is made by a thread that holds nothing. *)
Lemma sys_step_cases cfg t e s a s' :
  sys_step cfg t e s = Some (a, s') ->
  (exists l1 p l2 p',
      pcs s = l1 ++ Some p :: l2 /\ pcs s' = l1 ++ Some p' :: l2
      /\ step_call e (sys_buffer s) p = Some (a, sys_buffer s', p'))
  \/ (driver_action a = true /\ sys_buffer s' = sys_buffer s
      /\ exists l1 o l2 o',
          pcs s = l1 ++ o ++ l2 /\ pcs s' = l1 ++ o' ++ l2
          /\ Forall quiet o /\ Forall quiet o').
Proof.
  destruct s as [b ps cs m k]. destruct t as [|n|n]; simpl.
  - unfold Principal_step, pcs. simpl.
    assert (Hown : forall o o',
              quiet o -> quiet o' ->
              exists l1 o1 l2 o1',
                (worker_pc <$> ps) ++ (worker_pc <$> cs) ++ [o] = l1 ++ o1 ++ l2
                /\ (worker_pc <$> ps) ++ (worker_pc <$> cs) ++ [o'] = l1 ++ o1' ++ l2
                /\ Forall quiet o1 /\ Forall quiet o1').
    { intros o o' Ho Ho'.
      exists ((worker_pc <$> ps) ++ (worker_pc <$> cs)), [o], [], [o'].
      rewrite <- !app_assoc. repeat split; apply Forall_cons; auto using Forall_nil_2. }
    destruct m as [i|i|j|j|p|].
    + destruct (i <? NP cfg); intros H; inversion H; subst; simpl; right;
        (split; [reflexivity|]); (split; [reflexivity|]).
      * exists (worker_pc <$> ps), [], ((worker_pc <$> cs) ++ [None]), [None].
        rewrite fmap_app, <- !app_assoc. simpl.
        repeat split; auto using Forall_nil_2.
        apply Forall_cons. split; [apply quiet_None|apply Forall_nil_2].
      * apply (Hown None None); apply quiet_None.
    + destruct (i <? NC cfg); intros H; inversion H; subst; simpl; right;
        (split; [reflexivity|]); (split; [reflexivity|]).
      * exists ((worker_pc <$> ps) ++ (worker_pc <$> cs)), [], [None], [None].
        rewrite fmap_app, <- !app_assoc. simpl.
        repeat split; auto using Forall_nil_2.
        apply Forall_cons. split; [apply quiet_None|apply Forall_nil_2].
      * apply (Hown None None); apply quiet_None.
    + destruct (ps !! j) as [w|]; [destruct (is_done w)|];
        intros H; inversion H; subst; simpl; right;
        (split; [reflexivity|]); (split; [reflexivity|]);
        apply (Hown None None); apply quiet_None.
    + destruct (cs !! j) as [w|]; [destruct (is_done w)|];
        intros H; inversion H; subst; simpl; right;
        (split; [reflexivity|]); (split; [reflexivity|]).
      * apply (Hown None None); apply quiet_None.
      * apply (Hown None (Some ShowLock)); repeat split.
    + assert (Hcall : match step_call e b p with
                      | Some (a, b', p') =>
                          Some (a, mkSystem b' ps cs (RunShow p') (emit a k))
                      | None => None
                      end = Some (a, s') ->
                      exists l1 p0 l2 p',
                        (worker_pc <$> ps) ++ (worker_pc <$> cs) ++ [Some p]
                        = l1 ++ Some p0 :: l2
                        /\ pcs s' = l1 ++ Some p' :: l2
                        /\ step_call e b p0 = Some (a, sys_buffer s', p')).
      { destruct (step_call e b p) as [[[a0 b0] p0]|] eqn:Hs; [|discriminate].
        intros H. inversion H; subst. unfold pcs. simpl.
        exists ((worker_pc <$> ps) ++ (worker_pc <$> cs)), p, [], p0.
        rewrite <- !app_assoc. repeat split. exact Hs. }
      destruct p; try (intros H; left; apply Hcall; exact H).
      intros H; inversion H; subst; simpl. right.
      split; [reflexivity|]. split; [reflexivity|].
      apply (Hown (Some (Returned v)) None); repeat split.
    + discriminate.
  - destruct (ps !! n) as [w|] eqn:Hw; [|discriminate].
    destruct (Producer_step cfg e b w) as [[[a0 b0] w0]|] eqn:Hs; [|discriminate].
    intros H. inversion H; subst. unfold pcs. simpl.
    rewrite (fmap_lookup_middle ps n w Hw), (fmap_insert_middle ps n w w0 Hw).
    rewrite <- !app_assoc. simpl.
    destruct (Producer_step_cases _ _ _ _ _ _ _ Hs)
      as [(p & p' & Hp & Hp' & Hstep)|(Ha & -> & Hq & Hq')].
    + left. rewrite Hp, Hp'. eauto 10.
    + right. split; [exact Ha|]. split; [reflexivity|].
      exists (worker_pc <$> take n ps), [worker_pc w],
        ((worker_pc <$> drop (S n) ps) ++ (worker_pc <$> cs) ++ [main_pc m]),
        [worker_pc w0].
      repeat split; apply Forall_cons; auto using Forall_nil_2.
  - destruct (cs !! n) as [w|] eqn:Hw; [|discriminate].
    destruct (Consumer_step cfg e b w) as [[[a0 b0] w0]|] eqn:Hs; [|discriminate].
    intros H. inversion H; subst. unfold pcs. simpl.
    rewrite (fmap_lookup_middle cs n w Hw), (fmap_insert_middle cs n w w0 Hw).
    destruct (Consumer_step_cases _ _ _ _ _ _ _ Hs)
      as [(p & p' & Hp & Hp' & Hstep)|(Ha & -> & Hq & Hq')].
    + left. rewrite Hp, Hp'.
      exists ((worker_pc <$> ps) ++ (worker_pc <$> take n cs)), p,
        ((worker_pc <$> drop (S n) cs) ++ [main_pc m]), p'.
      rewrite <- !app_assoc. simpl. repeat split. exact Hstep.
    + right. split; [exact Ha|]. split; [reflexivity|].
      exists ((worker_pc <$> ps) ++ (worker_pc <$> take n cs)), [worker_pc w],
        ((worker_pc <$> drop (S n) cs) ++ [main_pc m]), [worker_pc w0].
      rewrite <- !app_assoc. simpl.
      repeat split; apply Forall_cons; auto using Forall_nil_2.
Qed.

Lemma pending_middle f l1 o l2 :
  pending f (l1 ++ o :: l2) = pending f l1 ++ f o ++ pending f l2.
Proof. unfold pending. rewrite fmap_app, concat_app. reflexivity. Qed.

Lemma pending_app f l1 l2 : pending f (l1 ++ l2) = pending f l1 ++ pending f l2.
Proof. unfold pending. rewrite fmap_app, concat_app. reflexivity. Qed.

Lemma pending_free l :
  held_sum mutex_held l = 0 ->
  pending unannounced_push l = [] /\ pending unannounced_pop l = [].
Proof.
  induction l as [|o l IH]; intros H; [split; reflexivity|].
  change (held mutex_held o + held_sum mutex_held l = 0) in H.
  pose proof (held_nonneg mutex_held o mutex_held_nonneg).
  pose proof (held_sum_nonneg mutex_held l mutex_held_nonneg).
  destruct IH as [IH1 IH2]; [lia|].
  change (unannounced_push o ++ pending unannounced_push l = []
          /\ unannounced_pop o ++ pending unannounced_pop l = []).
  rewrite IH1, IH2.
  destruct o as [[]|]; simpl in *; try lia; split; reflexivity.
Qed.

Lemma pending_quiet l :
  Forall quiet l ->
  pending unannounced_push l = [] /\ pending unannounced_pop l = [].
Proof.
  intros H. apply pending_free.
  induction H as [|o l (_ & _ & Ho) _ IH]; [reflexivity|].
  change (held mutex_held o + held_sum mutex_held l = 0). lia.
Qed.

Lemma log_step_call e b p a b' p' l1 l2 log :
  step_call e b p = Some (a, b', p') ->
  (mutex_held p = 1 ->
   pending unannounced_push l1 = [] /\ pending unannounced_push l2 = []
   /\ pending unannounced_pop l1 = [] /\ pending unannounced_pop l2 = []) ->
  front_kept (buffer b) (Some p) ->
  produced_items log ++ pending unannounced_push (l1 ++ Some p :: l2)
  = consumed_items log ++ pending unannounced_pop (l1 ++ Some p :: l2) ++ buffer b ->
  produced_items (log ++ message_of a) ++ pending unannounced_push (l1 ++ Some p' :: l2)
  = consumed_items (log ++ message_of a) ++ pending unannounced_pop (l1 ++ Some p' :: l2)
    ++ buffer b'.
Proof.
  intros Hstep Hex Hfront HL. rewrite !pending_middle in *.
  unfold produced_items, consumed_items in *. rewrite !omap_app.
  destruct b as [q m sp it].
  destruct p; step_inv Hstep; sem_inv; simpl in *; rewrite ?app_nil_r; try exact HL.
  - (* push *)
    destruct Hex as (E1 & E2 & E3 & E4); [reflexivity|].
    rewrite E1, E2, E3, E4 in *. simpl in *. rewrite app_nil_r in HL.
    rewrite HL, <- app_assoc. reflexivity.
  - (* the item is announced as produced *)
    destruct Hex as (E1 & E2 & E3 & E4); [reflexivity|].
    rewrite E1, E2, E3, E4 in *. simpl in *. rewrite app_nil_r. exact HL.
  - (* pop *)
    destruct Hex as (E1 & E2 & E3 & E4); [reflexivity|].
    rewrite E1, E2, E3, E4 in *. simpl in *. rewrite app_nil_r in HL.
    inversion Hfront; subst. rewrite ?app_nil_r. exact HL.
  - (* the item is announced as consumed *)
    destruct Hex as (E1 & E2 & E3 & E4); [reflexivity|].
    rewrite E1, E2, E3, E4 in *. simpl in *. rewrite app_nil_r in HL.
    rewrite app_nil_r, <- app_assoc. exact HL.
  - (* the message of showRemainingItems *)
    destruct q; simpl; rewrite ?app_nil_r in *; exact HL.
Qed.

Lemma driver_action_items a :
  driver_action a = true ->
  produced_items (message_of a) = [] /\ consumed_items (message_of a) = []
  /\ timeouts (message_of a) = [].
Proof.
  destruct a as [| | | | | |m| | | |]; simpl; intros H; try discriminate; auto.
  destruct m; try discriminate; auto.
Qed.

Lemma produced_items_app l1 l2 :
  produced_items (l1 ++ l2) = produced_items l1 ++ produced_items l2.
Proof. apply omap_app. Qed.

Lemma consumed_items_app l1 l2 :
  consumed_items (l1 ++ l2) = consumed_items l1 ++ consumed_items l2.
Proof. apply omap_app. Qed.

Lemma timeouts_app l1 l2 : timeouts (l1 ++ l2) = timeouts l1 ++ timeouts l2.
Proof. apply omap_app. Qed.

Lemma Log_inv_step cfg t e s a s' :
  Inv cfg s -> Log_inv s -> sys_step cfg t e s = Some (a, s') -> Log_inv s'.
Proof.
  intros [_ _ Hmx _ _ Hlock Hfront] HL Hs. unfold Log_inv in *.
  rewrite (sys_step_sink _ _ _ _ _ _ Hs), logFile_emit.
  destruct (sys_step_cases _ _ _ _ _ _ Hs)
    as [(l1 & p & l2 & p' & Hl & Hl' & Hstep)
       |(Ha & Hb & l1 & o & l2 & o' & Hl & Hl' & Hq & Hq')].
  - rewrite Hl in *. rewrite Hl'.
    eapply log_step_call; [exact Hstep| | |exact HL].
    + intros Hp. rewrite held_sum_middle in Hlock. simpl in Hlock.
      pose proof (held_sum_nonneg mutex_held l1 mutex_held_nonneg).
      pose proof (held_sum_nonneg mutex_held l2 mutex_held_nonneg).
      destruct (pending_free l1) as [E1 E3]; [lia|].
      destruct (pending_free l2) as [E2 E4]; [lia|]. auto.
    + apply Forall_app in Hfront. destruct Hfront as [_ Hfront].
      apply Forall_cons in Hfront. apply Hfront.
  - destruct (driver_action_items a Ha) as (Ep & Ec & _).
    destruct (pending_quiet o Hq) as [Eo1 Eo2].
    destruct (pending_quiet o' Hq') as [Eo1' Eo2'].
    rewrite Hl in HL. rewrite Hl', Hb.
    rewrite produced_items_app, consumed_items_app, Ep, Ec, !app_nil_r.
    rewrite !pending_app in *. rewrite Eo1, Eo2 in HL. rewrite Eo1', Eo2'. exact HL.
Qed.

Lemma Reachable_Log_inv cfg s : 0 <= capacity cfg -> Reachable cfg s -> Log_inv s.
Proof.
  intros Hc [sched H].
  assert (HI : Inv cfg s /\ Log_inv s); [|apply HI].
  revert H. apply (exec_invariant cfg (fun s => Inv cfg s /\ Log_inv s)).
  - intros t e s0 a s1 [HI HL] Hs. split.
    + eapply Inv_step; eauto.
    + eapply Log_inv_step; eauto.
  - split; [apply Inv_init; exact Hc|reflexivity].
Qed.

Lemma pending_bound l :
  Z.of_nat (length (pending unannounced_push l) + length (pending unannounced_pop l))
  <= held_sum mutex_held l.
Proof.
  induction l as [|o l IH]; [simpl; lia|].
  change (Z.of_nat (length (unannounced_push o ++ pending unannounced_push l)
                    + length (unannounced_pop o ++ pending unannounced_pop l))
          <= held mutex_held o + held_sum mutex_held l).
  rewrite !length_app.
  destruct o as [[]|]; simpl in *; lia.
Qed.

(** X8: in every reachable state, the items the log announces as
    produced, followed by the item pushed and not yet announced if there is
    one, are the items it announces as consumed, followed by the item popped
    and not yet announced if there is one, followed by the queue; at most one
    item is unannounced; and whenever the mutex is free, the produced items
    are exactly the consumed items followed by the queue.  So items leave the
    queue in the order they entered it, none is lost and none is consumed
    twice. *)
Theorem log_conservation cfg s :
  0 <= capacity cfg -> Reachable cfg s ->
  produced_items (logFile (sys_sink s)) ++ pending unannounced_push (pcs s)
  = consumed_items (logFile (sys_sink s)) ++ pending unannounced_pop (pcs s)
    ++ buffer (sys_buffer s)
  /\ (length (pending unannounced_push (pcs s))
      + length (pending unannounced_pop (pcs s)) <= 1)%nat
  /\ (buffer_mutex (sys_buffer s) = 1 ->
      produced_items (logFile (sys_sink s))
      = consumed_items (logFile (sys_sink s)) ++ buffer (sys_buffer s)).
Proof.
  intros Hc Hr. pose proof (Reachable_Log_inv cfg s Hc Hr) as HL.
  destruct (Reachable_Inv cfg s Hc Hr) as [_ _ Hmx _ _ Hlock _].
  pose proof (pending_bound (pcs s)) as Hb.
  split; [exact HL|]. split; [lia|].
  intros Hfree. destruct (pending_free (pcs s)) as [E1 E2]; [lia|].
  unfold Log_inv in HL. rewrite E1, E2, app_nil_r in HL. exact HL.
Qed.

Lemma log_conservation_witness :
  exists s,
    exec cfg_unit sched_unit (Principal_new cfg_unit) = Some s
    /\ produced_items (logFile (sys_sink s))
       = consumed_items (logFile (sys_sink s)) ++ buffer (sys_buffer s).
Proof.
  destruct (exec cfg_unit sched_unit (Principal_new cfg_unit)) as [s|] eqn:E;
    [|vm_compute in E; discriminate].
  exists s. split; [reflexivity|].
  destruct (log_conservation cfg_unit s) as (_ & _ & H);
    [simpl; lia|exists sched_unit; exact E|].
  apply H. vm_compute in E. inversion E. reflexivity.
Defined.

(** ** What the log counts *)

Lemma worker_sum_snoc f ws w : worker_sum f (ws ++ [w]) = worker_sum f ws + f w.
Proof. induction ws as [|x ws IH]; simpl; [lia|]. rewrite IH. lia. Qed.

Lemma worker_sum_insert f ws n w w' :
  ws !! n = Some w -> worker_sum f (<[n := w']> ws) = worker_sum f ws - f w + f w'.
Proof.
  revert n. induction ws as [|x ws IH]; intros n Hw; [discriminate|].
  destruct n as [|n]; simpl in *.
  - inversion Hw; subst. lia.
  - rewrite (IH n Hw). lia.
Qed.

Lemma worker_sum_const f ws c :
  (forall n w, ws !! n = Some w -> f w = c) ->
  worker_sum f ws = Z.of_nat (length ws) * c.
Proof.
  induction ws as [|x ws IH]; intros H; simpl; [lia|].
  rewrite (H O x eq_refl), IH by (intros n w Hw; apply (H (S n) w Hw)). lia.
Qed.

Lemma show_step_items e b p a b' p' :
  step_call e b p = Some (a, b', p') -> show_call p ->
  produced_items (message_of a) = [] /\ consumed_items (message_of a) = []
  /\ timeouts (message_of a) = [].
Proof.
  intros H Hp. destruct p; simpl in Hp; try contradiction; step_inv H; simpl; auto.
  match goal with |- context [remaining_message ?q] => destruct q end; simpl; auto.
Qed.

Lemma produce_step_items id e b p a b' p' i :
  step_call e b p = Some (a, b', p') -> produce_pc id p ->
  announced_at i p' = announced_at i p + Z.of_nat (length (produced_items (message_of a)))
  /\ consumed_items (message_of a) = [] /\ timeouts (message_of a) = [].
Proof.
  intros H Hp. destruct p; simpl in Hp; try contradiction;
    step_inv H; simpl; repeat split; lia.
Qed.

Lemma consume_step_items id e b p a b' p' i :
  step_call e b p = Some (a, b', p') -> consume_pc id p ->
  attempted_at i p' = attempted_at i p
                      + Z.of_nat (length (consumed_items (message_of a)))
                      + Z.of_nat (length (timeouts (message_of a)))
  /\ produced_items (message_of a) = [].
Proof.
  intros H Hp. destruct p; simpl in Hp; try contradiction;
    step_inv H; simpl; repeat split; lia.
Qed.

Lemma Producer_step_count cfg e b w a b' w' :
  Producer_step cfg e b w = Some (a, b', w') ->
  worker_role produce_pc w -> loop_ok cfg w ->
  loop_ok cfg w'
  /\ announced cfg w' = announced cfg w
                        + Z.of_nat (length (produced_items (message_of a)))
  /\ consumed_items (message_of a) = [] /\ timeouts (message_of a) = [].
Proof.
  unfold Producer_step, worker_role, loop_ok, announced. intros H Hr Hl.
  destruct (wst w) as [|i|i p| |].
  - inversion H; subst; simpl. repeat split; lia.
  - destruct (i <? N cfg) eqn:E; inversion H; subst; simpl.
    + apply Z.ltb_lt in E. repeat split; lia.
    + apply Z.ltb_ge in E. repeat split; lia.
  - assert (Hcall : match step_call e b p with
                    | Some (a, b', p') => Some (a, b', mkWorker (wid w) (WCall i p'))
                    | None => None
                    end = Some (a, b', w') ->
                    match wst w' with
                    | WLoop i0 => 0 <= i0 <= Z.max 0 (N cfg)
                    | WCall i0 _ => 0 <= i0 < N cfg
                    | _ => True
                    end
                    /\ match wst w' with
                       | WStart => 0
                       | WLoop i0 => i0
                       | WCall i0 (ProduceUnlock _ _) | WCall i0 (ProduceSignal _ _)
                       | WCall i0 (Returned _) => i0 + 1
                       | WCall i0 _ => i0
                       | WFinish | WDone => Z.max 0 (N cfg)
                       end
                       = announced_at i p
                         + Z.of_nat (length (produced_items (message_of a)))
                    /\ consumed_items (message_of a) = []
                    /\ timeouts (message_of a) = []).
    { destruct (step_call e b p) as [[[a0 b0] p0]|] eqn:Hs; [|discriminate].
      intros H'. inversion H'; subst. simpl.
      destruct (produce_step_items _ _ _ _ _ _ _ i Hs Hr) as (Ha & Hc & Ht).
      rewrite <- Ha. repeat split; auto; try lia; destruct p0; reflexivity. }
    destruct p; try (apply Hcall; exact H).
    inversion H; subst; simpl. repeat split; lia.
  - inversion H; subst; simpl. repeat split; lia.
  - discriminate.
Qed.

Lemma Consumer_step_count cfg e b w a b' w' :
  Consumer_step cfg e b w = Some (a, b', w') ->
  worker_role consume_pc w -> loop_ok cfg w ->
  loop_ok cfg w'
  /\ attempted cfg w' = attempted cfg w
                        + Z.of_nat (length (consumed_items (message_of a)))
                        + Z.of_nat (length (timeouts (message_of a)))
  /\ produced_items (message_of a) = [].
Proof.
  unfold Consumer_step, worker_role, loop_ok, attempted. intros H Hr Hl.
  destruct (wst w) as [|i|i p| |].
  - inversion H; subst; simpl. repeat split; lia.
  - destruct (i <? N cfg) eqn:E; inversion H; subst; simpl.
    + apply Z.ltb_lt in E. repeat split; lia.
    + apply Z.ltb_ge in E. repeat split; lia.
  - assert (Hcall : match step_call e b p with
                    | Some (a, b', p') => Some (a, b', mkWorker (wid w) (WCall i p'))
                    | None => None
                    end = Some (a, b', w') ->
                    match wst w' with
                    | WLoop i0 => 0 <= i0 <= Z.max 0 (N cfg)
                    | WCall i0 _ => 0 <= i0 < N cfg
                    | _ => True
                    end
                    /\ match wst w' with
                       | WStart => 0
                       | WLoop i0 => i0
                       | WCall i0 (ConsumeUnlock _ _) | WCall i0 (ConsumeSignal _ _)
                       | WCall i0 (Returned _) => i0 + 1
                       | WCall i0 _ => i0
                       | WFinish | WDone => Z.max 0 (N cfg)
                       end
                       = attempted_at i p
                         + Z.of_nat (length (consumed_items (message_of a)))
                         + Z.of_nat (length (timeouts (message_of a)))
                    /\ produced_items (message_of a) = []).
    { destruct (step_call e b p) as [[[a0 b0] p0]|] eqn:Hs; [|discriminate].
      intros H'. inversion H'; subst. simpl.
      destruct (consume_step_items _ _ _ _ _ _ _ i Hs Hr) as (Ha & Hp).
      rewrite <- Ha. repeat split; auto; try lia; destruct p0; reflexivity. }
    destruct p; try (apply Hcall; exact H).
    destruct v as [item|]; [|discriminate].
    destruct (negb (item =? -1)); inversion H; subst; simpl; repeat split; lia.
  - inversion H; subst; simpl. repeat split; lia.
  - discriminate.
Qed.

Lemma count_emit a k :
  Z.of_nat (length (produced_items (logFile (emit a k))))
  = Z.of_nat (length (produced_items (logFile k)))
    + Z.of_nat (length (produced_items (message_of a)))
  /\ Z.of_nat (length (consumed_items (logFile (emit a k))))
     = Z.of_nat (length (consumed_items (logFile k)))
       + Z.of_nat (length (consumed_items (message_of a)))
  /\ Z.of_nat (length (timeouts (logFile (emit a k))))
     = Z.of_nat (length (timeouts (logFile k)))
       + Z.of_nat (length (timeouts (message_of a))).
Proof.
  rewrite logFile_emit, produced_items_app, consumed_items_app, timeouts_app.
  rewrite !length_app. lia.
Qed.

Lemma Count_inv_step cfg t e s a s' :
  Run_inv cfg s -> Count_inv cfg s -> sys_step cfg t e s = Some (a, s') ->
  Count_inv cfg s'.
Proof.
  intros [_ _ Hpr Hcr Hph] [Hlp Hlc Hcp Hcc].
  destruct s as [b ps cs m k]. simpl in *. destruct t as [|n|n]; simpl.
  - unfold Principal_step. simpl. destruct m as [i|i|j|j|p|]; simpl in Hph.
    + destruct (i <? NP cfg); intros H; inversion H; subst; constructor; simpl; auto.
      * apply Forall_app. split; [exact Hlp|].
        apply Forall_cons. split; [exact I|apply Forall_nil_2].
      * rewrite worker_sum_snoc. unfold announced at 2. simpl. lia.
    + destruct (i <? NC cfg); intros H; inversion H; subst; constructor; simpl; auto.
      * apply Forall_app. split; [exact Hlc|].
        apply Forall_cons. split; [exact I|apply Forall_nil_2].
      * rewrite worker_sum_snoc. unfold attempted at 2. simpl. lia.
    + destruct (ps !! j) as [w|]; [destruct (is_done w)|];
        intros H; inversion H; subst; constructor; simpl; auto.
    + destruct (cs !! j) as [w|]; [destruct (is_done w)|];
        intros H; inversion H; subst; constructor; simpl; auto.
    + destruct Hph as (_ & _ & _ & _ & Hshow & _).
      assert (Hcall : match step_call e b p with
                      | Some (a, b', p') =>
                          Some (a, mkSystem b' ps cs (RunShow p') (emit a k))
                      | None => None
                      end = Some (a, s') -> Count_inv cfg s').
      { destruct (step_call e b p) as [[[a0 b0] p0]|] eqn:Hs; [|discriminate].
        intros H. inversion H; subst.
        destruct (show_step_items _ _ _ _ _ _ Hs Hshow) as (Ep & Ec & Et).
        destruct (count_emit a k) as (C1 & C2 & C3).
        rewrite Ep in C1. rewrite Ec in C2. rewrite Et in C3. simpl in C1, C2, C3.
        constructor; simpl; auto; lia. }
      destruct p; try exact Hcall.
      intros H; inversion H; subst. constructor; simpl; auto.
    + discriminate.
  - destruct (ps !! n) as [w|] eqn:Hw; [|discriminate].
    destruct (Producer_step cfg e b w) as [[[a0 b0] w0]|] eqn:Hs; [|discriminate].
    intros H. inversion H; subst.
    assert (Hrole : worker_role produce_pc w).
    { rewrite Forall_lookup in Hpr. exact (Hpr n w Hw). }
    assert (Hloop : loop_ok cfg w).
    { rewrite Forall_lookup in Hlp. exact (Hlp n w Hw). }
    destruct (Producer_step_count _ _ _ _ _ _ _ Hs Hrole Hloop) as (Hl' & Ha & Ec & Et).
    destruct (count_emit a k) as (C1 & C2 & C3).
    rewrite Ec in C2. rewrite Et in C3. simpl in C2, C3.
    constructor; simpl; auto.
    + apply Forall_insert; assumption.
    + rewrite (worker_sum_insert _ _ _ _ _ Hw). lia.
    + lia.
  - destruct (cs !! n) as [w|] eqn:Hw; [|discriminate].
    destruct (Consumer_step cfg e b w) as [[[a0 b0] w0]|] eqn:Hs; [|discriminate].
    intros H. inversion H; subst.
    assert (Hrole : worker_role consume_pc w).
    { rewrite Forall_lookup in Hcr. exact (Hcr n w Hw). }
    assert (Hloop : loop_ok cfg w).
    { rewrite Forall_lookup in Hlc. exact (Hlc n w Hw). }
    destruct (Consumer_step_count _ _ _ _ _ _ _ Hs Hrole Hloop) as (Hl' & Ha & Ep).
    destruct (count_emit a k) as (C1 & C2 & C3).
    rewrite Ep in C1. simpl in C1.
    constructor; simpl; auto.
    + apply Forall_insert; assumption.
    + lia.
    + rewrite (worker_sum_insert _ _ _ _ _ Hw). lia.
Qed.

Lemma Reachable_Count_inv cfg s : Reachable cfg s -> Count_inv cfg s.
Proof.
  intros [sched H].
  assert (HI : Run_inv cfg s /\ Count_inv cfg s); [|apply HI].
  revert H. apply (exec_invariant cfg (fun s => Run_inv cfg s /\ Count_inv cfg s)).
  - intros t e s0 a s1 [HR HC] Hs. split.
    + eapply Run_inv_step; eauto.
    + eapply Count_inv_step; eauto.
  - split; [apply Run_inv_init|].
    constructor; simpl; auto using Forall_nil_2.
Qed.

Lemma worker_sum_le f ws c :
  Forall (fun w => f w <= c) ws -> worker_sum f ws <= Z.of_nat (length ws) * c.
Proof.
  induction 1 as [|w ws Hw _ IH]; simpl; [lia|]. lia.
Qed.

Lemma announced_le cfg w : loop_ok cfg w -> announced cfg w <= Z.max 0 (N cfg).
Proof.
  unfold loop_ok, announced. destruct (wst w) as [|i|i p| |]; intros H; try lia.
  destruct p; lia.
Qed.

Lemma attempted_le cfg w : loop_ok cfg w -> attempted cfg w <= Z.max 0 (N cfg).
Proof.
  unfold loop_ok, attempted. destruct (wst w) as [|i|i p| |]; intros H; try lia.
  destruct p; lia.
Qed.

Lemma Run_inv_lengths cfg s :
  Run_inv cfg s ->
  Z.of_nat (length (producers s)) <= Z.max 0 (NP cfg)
  /\ Z.of_nat (length (consumers s)) <= Z.max 0 (NC cfg).
Proof.
  intros [_ _ _ _ Hph].
  destruct (sys_main s) as [i|i|j|j|p|]; simpl in Hph; unfold spawned in *.
  - destruct Hph as (Hi & Hle & Hcs). rewrite Hcs. simpl. lia.
  - lia.
  - lia.
  - lia.
  - lia.
  - lia.
Qed.

Lemma Run_inv_done cfg s :
  Run_inv cfg s -> sys_main s = RunDone ->
  spawned (NP cfg) (producers s) /\ spawned (NC cfg) (consumers s)
  /\ all_done (producers s) /\ all_done (consumers s)
  /\ forall f, held_sum f (pcs s) = 0.
Proof.
  intros [_ _ _ _ Hph] Hm. rewrite Hm in Hph. simpl in Hph.
  destruct Hph as (Hsp & Hsc & Hap & Hac & _).
  repeat split; auto. intros f. unfold pcs.
  rewrite !held_sum_app, !all_done_pcs by assumption. rewrite Hm. reflexivity.
Qed.

(** X9: in every reachable state the log announces at most NP*N items
    as produced, and its consumed items and timeout diagnostics together are
    at most NC*N. *)
Theorem log_counts_bounded cfg s :
  0 <= N cfg -> 0 <= NP cfg -> 0 <= NC cfg -> Reachable cfg s ->
  Z.of_nat (length (produced_items (logFile (sys_sink s)))) <= NP cfg * N cfg
  /\ Z.of_nat (length (consumed_items (logFile (sys_sink s))))
     + Z.of_nat (length (timeouts (logFile (sys_sink s)))) <= NC cfg * N cfg.
Proof.
  intros HN HNP HNC Hr.
  destruct (Reachable_Count_inv cfg s Hr) as [Hlp Hlc Hcp Hcc].
  destruct (Run_inv_lengths cfg s (Reachable_Run_inv cfg s Hr)) as (Hp & Hc).
  rewrite Hcp, Hcc. split.
  - etransitivity; [apply (worker_sum_le _ _ (Z.max 0 (N cfg)))|nia].
    eapply Forall_impl; [exact Hlp|]. intros w. apply announced_le.
  - etransitivity; [apply (worker_sum_le _ _ (Z.max 0 (N cfg)))|nia].
    eapply Forall_impl; [exact Hlc|]. intros w. apply attempted_le.
Qed.

Lemma log_counts_bounded_witness :
  Z.of_nat (length (produced_items (logFile (sys_sink state_slot_acquired)))) <= 1 * 1.
Proof.
  assert (Hr : Reachable cfg_unit state_slot_acquired)
    by (exists sched_slot_acquired; reflexivity).
  destruct (log_counts_bounded cfg_unit state_slot_acquired) as [H _];
    [simpl; lia|simpl; lia|simpl; lia|exact Hr|exact H].
Defined.

Lemma all_done_sum (f : Worker -> Z) ws c :
  (forall w, is_done w = true -> f w = c) -> all_done ws ->
  worker_sum f ws = Z.of_nat (length ws) * c.
Proof.
  intros Hf Hd. apply worker_sum_const. intros n w Hw. apply Hf. apply (Hd n w Hw).
Qed.

(** X10: when [run] has returned, the log announces exactly NP*N items
    as produced; its consumed items and timeout diagnostics together are
    exactly NC*N; the consumed items and the items left in the queue together
    are NP*N; and therefore NP*N is at most NC*N plus the capacity. *)
Theorem run_returns_counts cfg s :
  0 <= capacity cfg -> 0 <= N cfg -> 0 <= NP cfg -> 0 <= NC cfg ->
  Reachable cfg s -> sys_main s = RunDone ->
  Z.of_nat (length (produced_items (logFile (sys_sink s)))) = NP cfg * N cfg
  /\ Z.of_nat (length (consumed_items (logFile (sys_sink s))))
     + Z.of_nat (length (timeouts (logFile (sys_sink s)))) = NC cfg * N cfg
  /\ Z.of_nat (length (consumed_items (logFile (sys_sink s))))
     + queued_items (sys_buffer s) = NP cfg * N cfg
  /\ NP cfg * N cfg <= NC cfg * N cfg + capacity cfg.
Proof.
  intros Hc HN HNP HNC Hr Hm.
  destruct (Reachable_Count_inv cfg s Hr) as [_ _ Hcp Hcc].
  destruct (Run_inv_done cfg s (Reachable_Run_inv cfg s Hr) Hm)
    as (Hsp & Hsc & Hap & Hac & Hz).
  destruct (Reachable_Inv cfg s Hc Hr) as [Hspaces _ _ Hslots _ _ _].
  pose proof (Reachable_Log_inv cfg s Hc Hr) as Hlog. unfold Log_inv in Hlog.
  destruct (pending_free (pcs s) (Hz mutex_held)) as [E1 E2].
  rewrite E1, E2, app_nil_r in Hlog. simpl in Hlog.
  rewrite Hz in Hslots.
  unfold spawned in *.
  rewrite (all_done_sum (announced cfg) _ (Z.max 0 (N cfg))) in Hcp;
    [|intros w Hw; unfold is_done, announced in *; destruct (wst w); congruence|exact Hap].
  rewrite (all_done_sum (attempted cfg) _ (Z.max 0 (N cfg))) in Hcc;
    [|intros w Hw; unfold is_done, attempted in *; destruct (wst w); congruence|exact Hac].
  assert (Hlen : Z.of_nat (length (produced_items (logFile (sys_sink s))))
                 = Z.of_nat (length (consumed_items (logFile (sys_sink s))))
                   + queued_items (sys_buffer s)).
  { rewrite Hlog, length_app. unfold queued_items. lia. }
  repeat split; try nia.
Qed.

Lemma run_returns_counts_witness :
  exists s,
    exec cfg_unit sched_unit (Principal_new cfg_unit) = Some s
    /\ Z.of_nat (length (produced_items (logFile (sys_sink s)))) = 1 * 1
    /\ Z.of_nat (length (consumed_items (logFile (sys_sink s))))
       + Z.of_nat (length (timeouts (logFile (sys_sink s)))) = 1 * 1.
Proof.
  destruct (exec cfg_unit sched_unit (Principal_new cfg_unit)) as [s|] eqn:E;
    [|vm_compute in E; discriminate].
  exists s. split; [reflexivity|].
  assert (Hm : sys_main s = RunDone) by (vm_compute in E; inversion E; reflexivity).
  destruct (run_returns_counts cfg_unit s) as (H1 & H2 & _);
    [simpl; lia|simpl; lia|simpl; lia|simpl; lia|exists sched_unit; exact E|exact Hm|].
  split; [exact H1|exact H2].
Defined.

(** X11: when the producers make more items than the consumers take and
    the buffer holds, that is NP*N > NC*N + capacity, [run] never returns, so
    [main] never exits, whatever the schedule. *)
Theorem main_cannot_return atoi argv sched :
  argc argv = 5 ->
  0 < capacity (config_of atoi argv) -> 0 < N (config_of atoi argv) ->
  0 < NP (config_of atoi argv) -> 0 < NC (config_of atoi argv) ->
  NC (config_of atoi argv) * N (config_of atoi argv) + capacity (config_of atoi argv)
  < NP (config_of atoi argv) * N (config_of atoi argv) ->
  main atoi argv sched = None.
Proof.
  intros Hargc H1 H2 H3 H4 Hmore. unfold main. rewrite Hargc. simpl.
  destruct (non_positive (config_of atoi argv)) eqn:E.
  { apply non_positive_true in E. lia. }
  destruct (exec _ sched _) as [s|] eqn:Hexec; [|reflexivity].
  destruct (sys_main s) eqn:Hm; try reflexivity.
  exfalso.
  assert (Hr : Reachable (config_of atoi argv) s) by (exists sched; exact Hexec).
  destruct (Run_inv_done _ s (Reachable_Run_inv _ s Hr) Hm)
    as (Hsp & Hsc & Hap & Hac & Hz).
  assert (Hc : 0 <= capacity (config_of atoi argv)) by lia.
  destruct (Reachable_Inv _ s Hc Hr) as [Hspaces _ _ Hslots _ _ _].
  destruct (Reachable_Count_inv _ s Hr) as [_ _ Hcp Hcc].
  pose proof (Reachable_Log_inv _ s Hc Hr) as Hlog. unfold Log_inv in Hlog.
  destruct (pending_free (pcs s) (Hz mutex_held)) as [E1 E2].
  rewrite E1, E2, app_nil_r in Hlog. simpl in Hlog.
  rewrite Hz in Hslots. unfold spawned in *.
  rewrite (all_done_sum (announced _) _ (Z.max 0 (N (config_of atoi argv)))) in Hcp;
    [|intros w Hw; unfold is_done, announced in *; destruct (wst w); congruence|exact Hap].
  rewrite (all_done_sum (attempted _) _ (Z.max 0 (N (config_of atoi argv)))) in Hcc;
    [|intros w Hw; unfold is_done, attempted in *; destruct (wst w); congruence|exact Hac].
  assert (Hlen : Z.of_nat (length (produced_items (logFile (sys_sink s))))
                 = Z.of_nat (length (consumed_items (logFile (sys_sink s))))
                   + queued_items (sys_buffer s)).
  { rewrite Hlog, length_app. unfold queued_items. lia. }
  nia.
Qed.

Lemma main_cannot_return_witness : main atoi_dec argv_crowded sched_unit = None.
Proof.
  apply main_cannot_return; reflexivity.
Defined.

(** ** Progress *)

Lemma held_sum_pos f l : 0 < held_sum f l -> exists o, o ∈ l /\ 0 < held f o.
Proof.
  induction l as [|o l IH]; simpl; [lia|]. intros H.
  destruct (Z_lt_dec 0 (held f o)) as [Ho|Ho].
  - exists o. split; [apply list_elem_of_here|exact Ho].
  - destruct IH as (o' & Hin & Ho'); [lia|].
    exists o'. split; [apply list_elem_of_further; exact Hin|exact Ho'].
Qed.







Lemma worker_holds_not_done f w : 0 < held f (worker_pc w) -> is_done w = false.
Proof.
  unfold worker_pc, is_done. destruct (wst w); simpl; intros H; try lia; reflexivity.
Qed.






(** ** The thread inside the critical section *)

Lemma held_mutex_pos o : 0 < held mutex_held o -> exists p, o = Some p /\ mutex_held p = 1.
Proof.
  destruct o as [p|]; simpl; [|lia]. intros H. exists p. split; [reflexivity|].
  destruct p; simpl in *; lia.
Qed.

(** Two threads hold together no more than all threads do. *)
Lemma held_sum_two f l i j o1 o2 :
  (forall p, 0 <= f p) -> i <> j -> l !! i = Some o1 -> l !! j = Some o2 ->
  held f o1 + held f o2 <= held_sum f l.
Proof.
  intros Hf. revert i j. induction l as [|o l IH]; intros i j Hij H1 H2; [discriminate|].
  pose proof (held_nonneg f o Hf) as Ho.
  destruct i as [|i], j as [|j]; simpl in *.
  - congruence.
  - inversion H1; subst. pose proof (held_sum_lookup f l j o2 Hf H2). lia.
  - inversion H2; subst. pose proof (held_sum_lookup f l i o1 Hf H1). lia.
  - assert (Hij' : i <> j) by congruence.
    pose proof (IH i j Hij' H1 H2). lia.
Qed.

Lemma thread_index_inj s t t' p p' :
  thread_pc s t = Some p -> thread_pc s t' = Some p' ->
  thread_index s t = thread_index s t' -> t = t'.
Proof.
  assert (Hp : forall n q, producers s !! n ≫= worker_pc = Some q ->
                           (n < length (producers s))%nat).
  { intros n q H. destruct (producers s !! n) eqn:E; [|discriminate].
    eapply lookup_lt_Some; eauto. }
  assert (Hc : forall n q, consumers s !! n ≫= worker_pc = Some q ->
                           (n < length (consumers s))%nat).
  { intros n q H. destruct (consumers s !! n) eqn:E; [|discriminate].
    eapply lookup_lt_Some; eauto. }
  destruct t as [|n|n], t' as [|n'|n']; simpl; intros H H' Hi;
    try reflexivity;
    try (apply Hp in H); try (apply Hp in H'); try (apply Hc in H); try (apply Hc in H');
    try lia; f_equal; lia.
Qed.

Lemma Producer_holder_moves cfg e b w p :
  worker_role produce_pc w -> worker_pc w = Some p -> mutex_held p = 1 ->
  exists a b' w', Producer_step cfg e b w = Some (a, b', w') /\ sem_wait a = false.
Proof.
  unfold worker_role, worker_pc, Producer_step. intros Hr Hp Hm.
  destruct (wst w) as [|i|i q| |]; try discriminate.
  inversion Hp; subst q.
  destruct p; simpl in Hr; try contradiction; simpl in Hm; try lia; simpl; eauto 6.
Qed.

Lemma Consumer_holder_moves cfg e b w p :
  worker_role consume_pc w -> front_kept (buffer b) (worker_pc w) ->
  worker_pc w = Some p -> mutex_held p = 1 ->
  exists a b' w', Consumer_step cfg e b w = Some (a, b', w') /\ sem_wait a = false.
Proof.
  unfold worker_role, worker_pc, Consumer_step. intros Hr Hf Hp Hm.
  destruct (wst w) as [|i|i q| |]; try discriminate.
  inversion Hp; subst q.
  destruct p; simpl in Hr; try contradiction; simpl in Hm, Hf; try lia; simpl; eauto 6.
  - destruct (buffer b); [congruence|eauto 6].
  - destruct (buffer b); [discriminate|eauto 6].
Qed.

(** X17: whenever [buffer_mutex] is taken, exactly one thread is between
    its [buffer_mutex.acquire()] and its [buffer_mutex.release()], and the
    next step of that thread is open to it whatever the timers say, and is
    no wait on a semaphore of the buffer: inside the critical section a
    thread pushes, reads the front, pops, prints or releases, and the queue
    is not empty where it reads the front or pops.  (Printing is one step
    here; the wait of [printMessage] for [print_mutex] is not a step of its
    own.) *)
Theorem mutex_holder_moves cfg s :
  0 <= capacity cfg -> Reachable cfg s ->
  buffer_mutex (sys_buffer s) = 0 ->
  exists t p,
    thread_pc s t = Some p /\ mutex_held p = 1
    /\ (forall e, exists a s', sys_step cfg t e s = Some (a, s') /\ sem_wait a = false)
    /\ (forall t' p', thread_pc s t' = Some p' -> mutex_held p' = 1 -> t' = t).
Proof.
  intros Hc Hr Hm.
  pose proof (Reachable_Inv cfg s Hc Hr) as [_ _ _ _ _ Hlock Hfront].
  pose proof (Reachable_Run_inv cfg s Hr) as [_ _ Hpr Hcr Hph].
  assert (Hone : forall t1 p1 t2 p2,
             thread_pc s t1 = Some p1 -> mutex_held p1 = 1 ->
             thread_pc s t2 = Some p2 -> mutex_held p2 = 1 -> t1 = t2).
  { intros t1 p1 t2 p2 H1 Hm1 H2 Hm2.
    destruct (Nat.eq_dec (thread_index s t1) (thread_index s t2)) as [E|E].
    - apply (thread_index_inj s t1 t2 p1 p2 H1 H2 E).
    - pose proof (held_sum_two mutex_held (pcs s) _ _ _ _ mutex_held_nonneg E
                    (thread_pc_lookup _ _ _ H1) (thread_pc_lookup _ _ _ H2)) as Hle.
      simpl in Hle. lia. }
  destruct (held_sum_pos mutex_held (pcs s)) as (o & Hin & Ho); [lia|].
  rewrite Forall_forall in Hfront. specialize (Hfront o Hin).
  destruct (held_mutex_pos o Ho) as (p & -> & Hp).
  assert (Hex : exists t, thread_pc s t = Some p
                  /\ forall e, exists a s', sys_step cfg t e s = Some (a, s')
                                            /\ sem_wait a = false).
  { unfold pcs in Hin. rewrite !elem_of_app in Hin.
    destruct Hin as [Hin|[Hin|Hin]].
    - apply list_elem_of_fmap in Hin. destruct Hin as (w & Hwp & Hw).
      apply list_elem_of_lookup in Hw. destruct Hw as [n Hw].
      exists (TProducer n). split; [simpl; rewrite Hw; simpl; congruence|].
      intros e.
      destruct (Producer_holder_moves cfg e (sys_buffer s) w p) as (a & b' & w' & H & Ha);
        [rewrite Forall_lookup in Hpr; exact (Hpr n w Hw)|congruence|exact Hp|].
      simpl. rewrite Hw, H. eauto.
    - apply list_elem_of_fmap in Hin. destruct Hin as (w & Hwp & Hw).
      apply list_elem_of_lookup in Hw. destruct Hw as [n Hw].
      exists (TConsumer n). split; [simpl; rewrite Hw; simpl; congruence|].
      intros e.
      destruct (Consumer_holder_moves cfg e (sys_buffer s) w p) as (a & b' & w' & H & Ha);
        [rewrite Forall_lookup in Hcr; exact (Hcr n w Hw)
        |rewrite <- Hwp; exact Hfront|congruence|exact Hp|].
      simpl. rewrite Hw, H. eauto.
    - apply list_elem_of_singleton in Hin.
      exists TMain. split; [simpl; congruence|].
      intros e. simpl. unfold Principal_step.
      destruct (sys_main s) as [i|i|j|j|q|] eqn:Em; simpl in Hin; try discriminate.
      inversion Hin; subst q.
      simpl in Hph. destruct Hph as (_ & _ & _ & _ & Hshow & _).
      destruct p; simpl in Hshow; try contradiction; simpl in Hp; try lia; simpl; eauto. }
  destruct Hex as (t & Ht & Hstep).
  exists t, p. split; [exact Ht|]. split; [exact Hp|]. split; [exact Hstep|].
  intros t' p' Ht' Hp'. apply (Hone t' p' t p Ht' Hp' Ht Hp).
Qed.

Lemma mutex_holder_moves_witness :
  exists t p,
    thread_pc state_item_pushed t = Some p /\ mutex_held p = 1
    /\ exists a s', sys_step cfg_unit t true state_item_pushed = Some (a, s').
Proof.
  destruct (mutex_holder_moves cfg_unit state_item_pushed) as (t & p & Ht & Hp & Hs & _);
    [simpl; lia|exists sched_item_pushed; reflexivity|reflexivity|].
  exists t, p. split; [exact Ht|]. split; [exact Hp|].
  destruct (Hs true) as (a & s' & H & _). eauto.
Defined.

(** ** Semaphores and the queue *)

(** X13: in every reachable state [buffer_mutex] is 0 or 1, and
    [spaces] and [items] lie between 0 and the capacity; so a [release] is
    only ever made on a counter below its bound: on [buffer_mutex] when it is
    0, on [spaces] and on [items] when they are below the capacity. *)
Theorem semaphore_bounds cfg s :
  0 <= capacity cfg -> Reachable cfg s ->
  0 <= buffer_mutex (sys_buffer s) <= 1
  /\ 0 <= spaces (sys_buffer s) <= capacity cfg
  /\ 0 <= items (sys_buffer s) <= capacity cfg
  /\ (forall t e sem s',
         sys_step cfg t e s = Some (ARelease sem, s') ->
         match sem with
         | SemMutex => buffer_mutex (sys_buffer s) = 0
         | SemSpaces => spaces (sys_buffer s) < capacity cfg
         | SemItems => items (sys_buffer s) < capacity cfg
         end).
Proof.
  intros Hc Hr.
  assert (Hb : forall s0, Reachable cfg s0 ->
                          0 <= buffer_mutex (sys_buffer s0) <= 1
                          /\ 0 <= spaces (sys_buffer s0) <= capacity cfg
                          /\ 0 <= items (sys_buffer s0) <= capacity cfg).
  { intros s0 Hr0.
    destruct (Reachable_Inv cfg s0 Hc Hr0) as [Hsp Hit Hmx Hslots Hqueue Hlock _].
    pose proof (held_sum_nonneg slots_held (pcs s0) slots_held_nonneg).
    pose proof (held_sum_nonneg items_held (pcs s0) items_held_nonneg).
    pose proof (held_sum_nonneg mutex_held (pcs s0) mutex_held_nonneg).
    unfold queued_items in *. lia. }
  destruct (Hb s Hr) as (Hm & Hs & Hi).
  split; [exact Hm|]. split; [exact Hs|]. split; [exact Hi|].
  intros t e sem s' Hstep.
  destruct (Hb s' (Reachable_step _ _ _ _ _ _ Hr Hstep)) as (Hm' & Hs' & Hi').
  rewrite (sys_step_effect _ _ _ _ _ _ Hstep) in Hm', Hs', Hi'.
  destruct (sys_buffer s) as [q m sp it].
  destruct sem; simpl in *; lia.
Qed.

Lemma semaphore_bounds_witness :
  0 <= spaces (sys_buffer state_slot_acquired) <= 1.
Proof.
  destruct (semaphore_bounds cfg_unit state_slot_acquired) as (_ & H & _);
    [simpl; lia|exists sched_slot_acquired; reflexivity|exact H].
Defined.

(** X14: in every reachable state, a thread that is about to call
    [buffer.front()] finds the queue non-empty, and a thread that is about to
    call [buffer.pop()] finds at the front the very item it has read; neither
    is ever called on an empty queue. *)
Theorem front_and_pop_defined cfg s l1 p l2 :
  0 <= capacity cfg -> Reachable cfg s ->
  pcs s = l1 ++ Some p :: l2 ->
  (forall id, p = ConsumeFront id ->
              exists item rest, buffer (sys_buffer s) = item :: rest)
  /\ (forall id item, p = ConsumePop id item ->
                      exists rest, buffer (sys_buffer s) = item :: rest).
Proof.
  intros Hc Hr Hl. destruct (Reachable_Inv cfg s Hc Hr) as [_ _ _ _ _ _ Hfront].
  rewrite Hl in Hfront.
  apply Forall_app in Hfront. destruct Hfront as [_ Hfront].
  apply Forall_cons in Hfront. destruct Hfront as [Hfront _].
  split.
  - intros id ->. simpl in Hfront.
    destruct (buffer (sys_buffer s)) as [|x q]; [congruence|eauto].
  - intros id item ->. simpl in Hfront.
    destruct (buffer (sys_buffer s)) as [|x q]; [discriminate|].
    inversion Hfront; subst. eauto.
Qed.

Lemma front_and_pop_defined_witness :
  exists s,
    exec cfg_unit sched_before_pop (Principal_new cfg_unit) = Some s
    /\ exists rest, buffer (sys_buffer s) = 100 :: rest.
Proof.
  destruct (exec cfg_unit sched_before_pop (Principal_new cfg_unit)) as [s|] eqn:E;
    [|vm_compute in E; discriminate].
  exists s. split; [reflexivity|].
  destruct (front_and_pop_defined cfg_unit s
              [Some (Returned None)] (ConsumePop 1 100) [None]) as [_ H].
  - simpl. lia.
  - exists sched_before_pop. exact E.
  - vm_compute in E. inversion E. reflexivity.
  - apply (H 1 100). reflexivity.
Defined.

(** ** The order of the items of a producer *)

Lemma produced_by_app id l1 l2 :
  produced_by id (l1 ++ l2) = produced_by id l1 ++ produced_by id l2.
Proof. apply omap_app. Qed.

Lemma produced_by_none id msgs : produced_items msgs = [] -> produced_by id msgs = [].
Proof.
  induction msgs as [|m msgs IH]; [reflexivity|].
  unfold produced_items, produced_by in *. simpl.
  destruct m; simpl; try exact IH. discriminate.
Qed.

Lemma produced_id_ok_none n msgs :
  produced_items msgs = [] -> Forall (produced_id_ok n) msgs.
Proof.
  induction msgs as [|m msgs IH]; [intros; apply Forall_nil_2|].
  unfold produced_items in *. simpl.
  destruct m; simpl; try discriminate;
    intros H; apply Forall_cons; (split; [exact I|apply IH; exact H]).
Qed.

Lemma produced_by_fresh n id log :
  Forall (produced_id_ok n) log -> Z.of_nat n < id -> produced_by id log = [].
Proof.
  intros Hlog Hid. induction Hlog as [|m log Hm _ IH]; [reflexivity|].
  unfold produced_by in *. simpl.
  destruct m; simpl in *; try exact IH.
  destruct (id0 =? id) eqn:E; [apply Z.eqb_eq in E; lia|exact IH].
Qed.

Lemma seqZ_snoc i : 0 <= i -> seqZ 0 (i + 1) = seqZ 0 i ++ [i].
Proof.
  intros Hi. rewrite seqZ_app by lia. f_equal.
Qed.

Lemma produce_step_order id i e b p a b' p' :
  step_call e b p = Some (a, b', p') -> produce_pc id p -> 0 <= i ->
  match produce_item p with Some x => x = item_of id i | None => True end ->
  match produce_item p' with Some x => x = item_of id i | None => True end
  /\ (forall L,
         L ++ unannounced_push (Some p) = item_of id <$> seqZ 0 (pushed_at i p) ->
         (L ++ produced_by id (message_of a)) ++ unannounced_push (Some p')
         = item_of id <$> seqZ 0 (pushed_at i p'))
  /\ (forall id', id' <> id -> produced_by id' (message_of a) = [])
  /\ (forall n, 1 <= id <= Z.of_nat n -> Forall (produced_id_ok n) (message_of a)).
Proof.
  intros H Hp Hi Hx.
  destruct p; simpl in Hp; try contradiction; step_inv H; simpl in *;
    (split; [try exact Hx; exact I|]);
    (split; [intros L HL; rewrite ?app_nil_r in *; try exact HL|]);
    try (split; [intros id' Hne; reflexivity
                |intros n Hn; repeat (apply Forall_cons; split; [exact I|]);
                 apply Forall_nil_2]).
  - (* push *)
    rewrite seqZ_snoc, fmap_app, <- HL by lia. simpl. rewrite Hx. reflexivity.
  - (* the item is announced *)
    unfold produced_by. simpl. rewrite Z.eqb_refl. simpl. exact HL.
  - split.
    + intros id' Hne. unfold produced_by. simpl.
      destruct (id =? id') eqn:E; [apply Z.eqb_eq in E; congruence|reflexivity].
    + intros n Hn. apply Forall_cons. split; [exact Hn|apply Forall_nil_2].
Qed.

Lemma Producer_step_order cfg e b w a b' w' :
  Producer_step cfg e b w = Some (a, b', w') ->
  worker_role produce_pc w -> loop_ok cfg w -> call_item w ->
  call_item w'
  /\ (forall L,
         L ++ unannounced_push (worker_pc w) = item_of (wid w) <$> seqZ 0 (pushed cfg w) ->
         (L ++ produced_by (wid w) (message_of a)) ++ unannounced_push (worker_pc w')
         = item_of (wid w) <$> seqZ 0 (pushed cfg w'))
  /\ (forall id', id' <> wid w -> produced_by id' (message_of a) = [])
  /\ (forall n, 1 <= wid w <= Z.of_nat n -> Forall (produced_id_ok n) (message_of a)).
Proof.
  unfold Producer_step, worker_role, loop_ok, call_item, pushed, worker_pc.
  intros H Hr Hl Hx.
  destruct (wst w) as [|i|i p| |].
  - inversion H; subst; simpl. split; [exact I|].
    split; [intros L HL; rewrite !app_nil_r in *; exact HL|].
    split; [reflexivity|].
    intros n _. apply Forall_cons. split; [exact I|apply Forall_nil_2].
  - destruct (i <? N cfg) eqn:E; inversion H; subst; simpl.
    + split; [reflexivity|].
      split; [intros L HL; rewrite !app_nil_r in *; exact HL|].
      split; [reflexivity|]. intros n _. apply Forall_nil_2.
    + apply Z.ltb_ge in E. split; [exact I|].
      split; [intros L HL; rewrite !app_nil_r in *;
              replace (Z.max 0 (N cfg)) with i by lia; exact HL|].
      split; [reflexivity|]. intros n _. apply Forall_nil_2.
  - assert (Hcall : match step_call e b p with
                    | Some (a, b', p') => Some (a, b', mkWorker (wid w) (WCall i p'))
                    | None => None
                    end = Some (a, b', w') ->
                    match wst w' with
                    | WCall i0 p0 =>
                        match produce_item p0 with
                        | Some x => x = item_of (wid w') i0
                        | None => True
                        end
                    | _ => True
                    end
                    /\ (forall L,
                           L ++ unannounced_push (Some p)
                           = item_of (wid w) <$> seqZ 0 (pushed_at i p) ->
                           (L ++ produced_by (wid w) (message_of a))
                           ++ unannounced_push
                                match wst w' with WCall _ p0 => Some p0 | _ => None end
                           = item_of (wid w)
                             <$> seqZ 0 match wst w' with
                                        | WStart => 0
                                        | WLoop i0 => i0
                                        | WCall i0 p0 => pushed_at i0 p0
                                        | WFinish | WDone => Z.max 0 (N cfg)
                                        end)
                    /\ (forall id', id' <> wid w -> produced_by id' (message_of a) = [])
                    /\ (forall n, 1 <= wid w <= Z.of_nat n ->
                                  Forall (produced_id_ok n) (message_of a))).
    { destruct (step_call e b p) as [[[a0 b0] p0]|] eqn:Hs; [|discriminate].
      intros H'. inversion H'; subst. simpl.
      apply (produce_step_order (wid w) i _ _ _ _ _ _ Hs Hr); [lia|exact Hx]. }
    destruct p; try (apply Hcall; exact H).
    inversion H; subst; simpl. split; [exact I|].
    split; [intros L HL; rewrite !app_nil_r in *; exact HL|].
    split; [reflexivity|]. intros n _. apply Forall_nil_2.
  - inversion H; subst; simpl. split; [exact I|].
    split; [intros L HL; rewrite !app_nil_r in *; exact HL|].
    split; [reflexivity|].
    intros n _. apply Forall_cons. split; [exact I|apply Forall_nil_2].
  - discriminate.
Qed.

Lemma Order_inv_quiet cfg b ps cs m k a :
  produced_items (message_of a) = [] ->
  Order_inv cfg (mkSystem b ps cs m k) ->
  forall b' cs' m', Order_inv cfg (mkSystem b' ps cs' m' (emit a k)).
Proof.
  intros Ha [Hit Hord Hids] b' cs' m'. simpl in *. constructor; simpl.
  - exact Hit.
  - intros n w Hw. rewrite logFile_emit, produced_by_app, (produced_by_none _ _ Ha),
      app_nil_r. apply (Hord n w Hw).
  - rewrite logFile_emit. apply Forall_app. split; [exact Hids|].
    apply produced_id_ok_none. exact Ha.
Qed.

Lemma Order_inv_step cfg t e s a s' :
  Run_inv cfg s -> Count_inv cfg s -> Order_inv cfg s ->
  sys_step cfg t e s = Some (a, s') -> Order_inv cfg s'.
Proof.
  intros [Hpi _ Hpr Hcr Hph] [Hlp Hlc _ _] HO.
  destruct s as [b ps cs m k]. simpl in *. destruct t as [|n|n]; simpl.
  - unfold Principal_step. simpl.
    assert (Hsame : forall cs' m', Order_inv cfg (mkSystem b ps cs' m' k)).
    { intros cs' m'. destruct HO as [Hit Hord Hids]. constructor; assumption. }
    destruct m as [i|i|j|j|p|]; simpl in Hph.
    + destruct Hph as (Hi & _ & _).
      destruct (i <? NP cfg); intros H; inversion H; subst; [|apply Hsame].
      destruct HO as [Hit Hord Hids]. simpl in *. constructor; simpl.
      * apply Forall_app. split; [exact Hit|].
        apply Forall_cons. split; [exact I|apply Forall_nil_2].
      * intros n w Hw. apply lookup_app_Some in Hw. destruct Hw as [Hw|[_ Hw]].
        -- apply (Hord n w Hw).
        -- destruct (n - length ps)%nat; simpl in Hw; [|discriminate].
           inversion Hw; subst. simpl.
           rewrite (produced_by_fresh (length ps)) by (auto; lia). reflexivity.
      * rewrite length_app. simpl. eapply Forall_impl; [exact Hids|].
        intros x Hx. destruct x; simpl in *; auto. lia.
    + destruct (i <? NC cfg); intros H; inversion H; subst; apply Hsame.
    + destruct (ps !! j) as [w|]; [destruct (is_done w)|];
        intros H; inversion H; subst; apply Hsame.
    + destruct (cs !! j) as [w|]; [destruct (is_done w)|];
        intros H; inversion H; subst; apply Hsame.
    + destruct Hph as (_ & _ & _ & _ & Hshow & _).
      assert (Hcall : match step_call e b p with
                      | Some (a, b', p') =>
                          Some (a, mkSystem b' ps cs (RunShow p') (emit a k))
                      | None => None
                      end = Some (a, s') -> Order_inv cfg s').
      { destruct (step_call e b p) as [[[a0 b0] p0]|] eqn:Hs; [|discriminate].
        intros H. inversion H; subst.
        destruct (show_step_items _ _ _ _ _ _ Hs Hshow) as (Ep & _).
        eapply Order_inv_quiet; eauto. }
      destruct p; try exact Hcall.
      intros H; inversion H; subst. apply Hsame.
    + discriminate.
  - destruct (ps !! n) as [w|] eqn:Hw; [|discriminate].
    destruct (Producer_step cfg e b w) as [[[a0 b0] w0]|] eqn:Hs; [|discriminate].
    intros H. inversion H; subst.
    destruct HO as [Hit Hord Hids]. simpl in *.
    assert (Hrole : worker_role produce_pc w).
    { rewrite Forall_lookup in Hpr. exact (Hpr n w Hw). }
    assert (Hloop : loop_ok cfg w).
    { rewrite Forall_lookup in Hlp. exact (Hlp n w Hw). }
    assert (Hitem : call_item w).
    { rewrite Forall_lookup in Hit. exact (Hit n w Hw). }
    destruct (Producer_step_role _ _ _ _ _ _ _ Hs Hrole) as (Hid & _ & _).
    destruct (Producer_step_order _ _ _ _ _ _ _ Hs Hrole Hloop Hitem)
      as (Hitem' & Hstep & Hother & Hmsg).
    pose proof (Hpi n w Hw) as Hwid.
    pose proof (lookup_lt_Some _ _ _ Hw) as Hlen.
    constructor; simpl.
    + apply Forall_insert; assumption.
    + intros j x Hx. rewrite logFile_emit, produced_by_app.
      destruct (decide (j = n)) as [->|Hne].
      * rewrite list_lookup_insert_eq in Hx by exact Hlen.
        inversion Hx; subst. rewrite Hid. apply Hstep. apply (Hord n w Hw).
      * rewrite list_lookup_insert_ne in Hx by congruence.
        rewrite Hother, app_nil_r; [apply (Hord j x Hx)|].
        rewrite (Hpi j x Hx), Hwid. lia.
    + rewrite logFile_emit, length_insert. apply Forall_app. split; [exact Hids|].
      apply Hmsg. lia.
  - destruct (cs !! n) as [w|] eqn:Hw; [|discriminate].
    destruct (Consumer_step cfg e b w) as [[[a0 b0] w0]|] eqn:Hs; [|discriminate].
    intros H. inversion H; subst.
    assert (Hrole : worker_role consume_pc w).
    { rewrite Forall_lookup in Hcr. exact (Hcr n w Hw). }
    assert (Hloop : loop_ok cfg w).
    { rewrite Forall_lookup in Hlc. exact (Hlc n w Hw). }
    destruct (Consumer_step_count _ _ _ _ _ _ _ Hs Hrole Hloop) as (_ & _ & Ep).
    eapply Order_inv_quiet; eauto.
Qed.

Lemma Reachable_Order_inv cfg s : Reachable cfg s -> Order_inv cfg s.
Proof.
  intros [sched H].
  assert (HI : (Run_inv cfg s /\ Count_inv cfg s) /\ Order_inv cfg s); [|apply HI].
  revert H.
  apply (exec_invariant cfg
           (fun s => (Run_inv cfg s /\ Count_inv cfg s) /\ Order_inv cfg s)).
  - intros t e s0 a s1 [[HR HC] HO] Hs. split; [split|].
    + eapply Run_inv_step; eauto.
    + eapply Count_inv_step; eauto.
    + eapply Order_inv_step; eauto.
  - split; [split|].
    + apply Run_inv_init.
    + constructor; simpl; auto using Forall_nil_2.
    + constructor; simpl; auto using Forall_nil_2.
      intros n w Hw. rewrite lookup_nil in Hw. discriminate.
Qed.

Lemma pushed_range cfg w : loop_ok cfg w -> 0 <= N cfg -> 0 <= pushed cfg w <= N cfg.
Proof.
  unfold loop_ok, pushed. destruct (wst w) as [|i|i p| |]; intros H HN; try lia.
  destruct p; simpl; lia.
Qed.

(** X15: for the producer at position n, the items the log announces for
    its id n+1, followed by the item it has pushed and not yet announced if
    there is one, are exactly its items of the indices 0, ..., k-1 in this
    order, for some k <= N; once that producer has ended, the log holds all
    its N items. *)
Theorem producer_items_in_order cfg s n w :
  0 <= N cfg -> Reachable cfg s -> producers s !! n = Some w ->
  exists k,
    0 <= k <= N cfg
    /\ produced_by (Z.of_nat n + 1) (logFile (sys_sink s)) ++ unannounced_push (worker_pc w)
       = item_of (Z.of_nat n + 1) <$> seqZ 0 k
    /\ (is_done w = true ->
        produced_by (Z.of_nat n + 1) (logFile (sys_sink s))
        = item_of (Z.of_nat n + 1) <$> seqZ 0 (N cfg)).
Proof.
  intros HN Hr Hw.
  destruct (Reachable_Order_inv cfg s Hr) as [_ Hord _].
  destruct (Reachable_Run_inv cfg s Hr) as [Hpi _ _ _ _].
  destruct (Reachable_Count_inv cfg s Hr) as [Hlp _ _ _].
  rewrite Forall_lookup in Hlp. specialize (Hlp n w Hw).
  specialize (Hord n w Hw). rewrite (Hpi n w Hw) in Hord.
  exists (pushed cfg w). split; [apply pushed_range; assumption|].
  split; [exact Hord|].
  intros Hd. unfold is_done, pushed, worker_pc in *.
  destruct (wst w); try discriminate. simpl in Hord.
  rewrite app_nil_r in Hord. rewrite Hord. f_equal. f_equal. lia.
Qed.

Lemma producer_items_in_order_witness :
  exists s,
    exec cfg_unit sched_unit (Principal_new cfg_unit) = Some s
    /\ produced_by 1 (logFile (sys_sink s)) = [100].
Proof.
  destruct (exec cfg_unit sched_unit (Principal_new cfg_unit)) as [s|] eqn:E;
    [|vm_compute in E; discriminate].
  exists s. split; [reflexivity|].
  destruct (producer_items_in_order cfg_unit s 0 (mkWorker 1 WDone))
    as (k & _ & _ & H).
  - simpl. lia.
  - exists sched_unit. exact E.
  - vm_compute in E. inversion E. reflexivity.
  - apply H. reflexivity.
Defined.

Lemma consumers_no_push cs :
  Forall (worker_role consume_pc) cs ->
  pending unannounced_push (worker_pc <$> cs) = [].
Proof.
  induction 1 as [|w cs Hw _ IH]; [reflexivity|].
  rewrite fmap_cons.
  change (unannounced_push (worker_pc w) ++ pending unannounced_push (worker_pc <$> cs) = []).
  rewrite IH, app_nil_r. unfold worker_role, worker_pc in *.
  destruct (wst w) as [| |i p| |]; try reflexivity.
  destruct p; simpl in Hw; try contradiction; reflexivity.
Qed.

Lemma produced_items_single log :
  Forall (produced_id_ok 1) log -> produced_items log = produced_by 1 log.
Proof.
  induction 1 as [|m log Hm _ IH]; [reflexivity|].
  unfold produced_items, produced_by in *. simpl.
  destruct m; simpl in *; try exact IH.
  replace (id =? 1) with true by (symmetry; apply Z.eqb_eq; lia).
  simpl. f_equal. exact IH.
Qed.

Lemma produced_items_nobody log :
  Forall (produced_id_ok 0) log -> produced_items log = [].
Proof.
  induction 1 as [|m log Hm _ IH]; [reflexivity|].
  unfold produced_items in *. simpl.
  destruct m; simpl in *; try exact IH. lia.
Qed.

Lemma seqZ_prefix (f : Z -> Z) k n :
  0 <= k <= n -> (f <$> seqZ 0 k) `prefix_of` (f <$> seqZ 0 n).
Proof.
  intros H. exists (f <$> seqZ k (n - k)).
  replace n with (k + (n - k)) at 1 by lia.
  rewrite seqZ_app, fmap_app by lia. reflexivity.
Qed.

(** X16: with a single producer, in every reachable state the items the
    log announces as consumed, followed by the item popped and not yet
    announced if there is one, followed by the queue, are the items of that
    producer of the indices 0, ..., k-1 in this order, for some k <= N.  So
    the consumers, however many, take the items in the order of their
    creation: the consumed items are always a prefix of the N items of the
    producer. *)
Theorem single_producer_order cfg s :
  0 <= capacity cfg -> 0 <= N cfg -> NP cfg = 1 -> Reachable cfg s ->
  (exists k,
      0 <= k <= N cfg
      /\ consumed_items (logFile (sys_sink s)) ++ pending unannounced_pop (pcs s)
         ++ buffer (sys_buffer s)
         = item_of 1 <$> seqZ 0 k)
  /\ consumed_items (logFile (sys_sink s)) `prefix_of` (item_of 1 <$> seqZ 0 (N cfg)).
Proof.
  intros Hc HN HNP Hr.
  assert (Hk : exists k,
             0 <= k <= N cfg
             /\ consumed_items (logFile (sys_sink s)) ++ pending unannounced_pop (pcs s)
                ++ buffer (sys_buffer s)
                = item_of 1 <$> seqZ 0 k).
  { pose proof (Reachable_Log_inv cfg s Hc Hr) as HL. unfold Log_inv in HL.
    destruct (Reachable_Order_inv cfg s Hr) as [_ Hord Hids].
    pose proof (Reachable_Run_inv cfg s Hr) as HR.
    destruct (Run_inv_lengths cfg s HR) as [Hlen _].
    destruct HR as [Hpi _ _ Hcr Hph].
    destruct (Reachable_Count_inv cfg s Hr) as [Hlp _ _ _].
    rewrite <- HL. unfold pcs. rewrite !pending_app, (consumers_no_push _ Hcr).
    assert (Hmain : pending unannounced_push [main_pc (sys_main s)] = []).
    { destruct (sys_main s) as [| | | |p|]; try reflexivity.
      simpl in Hph. destruct Hph as (_ & _ & _ & _ & Hshow & _).
      destruct p; simpl in Hshow; try contradiction; reflexivity. }
    rewrite Hmain. simpl.
    destruct (producers s) as [|w [|w2 ps]] eqn:Eps; simpl in Hlen; [| |lia].
    - exists 0. split; [lia|].
      rewrite (produced_items_nobody _ Hids). reflexivity.
    - exists (pushed cfg w). rewrite Forall_lookup in Hlp.
      split; [apply pushed_range; [apply (Hlp O w eq_refl)|exact HN]|].
      rewrite (produced_items_single _ Hids).
      specialize (Hord O w eq_refl). rewrite (Hpi O w eq_refl) in Hord. simpl in Hord.
      unfold pending. simpl. rewrite !app_nil_r. exact Hord. }
  split; [exact Hk|].
  destruct Hk as (k & Hle & Hk).
  etransitivity; [|apply seqZ_prefix; exact Hle].
  rewrite <- Hk. eexists. reflexivity.
Qed.

Lemma single_producer_order_witness :
  exists s,
    exec cfg_unit sched_before_pop (Principal_new cfg_unit) = Some s
    /\ consumed_items (logFile (sys_sink s)) `prefix_of` (item_of 1 <$> seqZ 0 1).
Proof.
  destruct (exec cfg_unit sched_before_pop (Principal_new cfg_unit)) as [s|] eqn:E;
    [|vm_compute in E; discriminate].
  exists s. split; [reflexivity|].
  destruct (single_producer_order cfg_unit s) as [_ H];
    [simpl; lia|simpl; lia|reflexivity|exists sched_before_pop; exact E|exact H].
Defined.
